(** * expose: schema reflection and endpoint discovery

    A shallow embedding of the reflection core of the [expose] package
    (identifier naming, required-field analysis, the schema walker and
    extractor, the schema builder, struct traversal and the operation
    naming of the document assembler), with the properties stated about
    them. *)

From Stdlib Require Import ZArith Lia Bool Ascii String.
From stdpp Require Import base option list gmap strings fin_maps.

#[local] Set Warnings "-register-all".

Local Open Scope string_scope.
Local Open Scope Z_scope.
Local Open Scope list_scope.

(** ** Go strings and the [strings] package

    A Go string is a sequence of bytes, here a [string] of [ascii].  The
    functions below are the ones the package calls, for the one-byte
    separators it passes. *)

Module strings.

(** [strings.LastIndex(s, sep)] for a one-byte [sep]: the byte index of
    the last occurrence, [-1] when there is none. *)
Fixpoint LastIndex (s : string) (sep : ascii) : Z :=
  match s with
  | EmptyString => -1
  | String c rest =>
      let r := LastIndex rest sep in
      if 0 <=? r then r + 1
      else if Ascii.eqb c sep then 0 else -1
  end.

(** [strings.ReplaceAll(s, old, new)] for one-byte [old] and [new]. *)
Fixpoint ReplaceAll (s : string) (old new : ascii) : string :=
  match s with
  | EmptyString => EmptyString
  | String c rest =>
      String (if Ascii.eqb c old then new else c) (ReplaceAll rest old new)
  end.

(** [s] without the leading [prefix], when [s] starts with it. *)
Fixpoint CutPrefix (s prefix : string) {struct prefix} : option string :=
  match prefix, s with
  | EmptyString, _ => Some s
  | String a p, String b rest =>
      if Ascii.eqb a b then CutPrefix rest p else None
  | String _ _, EmptyString => None
  end.

(** [strings.TrimPrefix(s, prefix)]: [s] unchanged when it does not
    start with [prefix]. *)
Definition TrimPrefix (s prefix : string) : string :=
  match CutPrefix s prefix with
  | Some rest => rest
  | None => s
  end.

(** [strings.Cut(s, sep)] for a one-byte [sep]: the text before and
    after the first [sep] and whether it was found; [(s, "", false)]
    when it was not. *)
Fixpoint Cut (s : string) (sep : ascii) : string * string * bool :=
  match s with
  | EmptyString => (EmptyString, EmptyString, false)
  | String c rest =>
      if Ascii.eqb c sep then (EmptyString, rest, true)
      else let '(before, after, found) := Cut rest sep in
           (String c before, after, found)
  end.

(** [strings.Split(s, sep)] for a one-byte [sep]. *)
Fixpoint Split (s : string) (sep : ascii) : list string :=
  match s with
  | EmptyString => [EmptyString]
  | String c rest =>
      if Ascii.eqb c sep then EmptyString :: Split rest sep
      else match Split rest sep with
           | [] => [String c EmptyString]
           | w :: ws => String c w :: ws
           end
  end.

(** Whether the byte [c] occurs in [s]. *)
Fixpoint ContainsByte (s : string) (c : ascii) : bool :=
  match s with
  | EmptyString => false
  | String b rest => Ascii.eqb b c || ContainsByte rest c
  end.

End strings.

(** ** Results of Go code

    A call either returns or panics.  Functions with an [error] result
    return it as a value, as the Go code does. *)

Inductive go (A : Type) : Type :=
| Ret (a : A)
| Panic (msg : string).
Arguments Ret {A} a.
Arguments Panic {A} msg.

Definition go_bind {A B} (m : go A) (k : A -> go B) : go B :=
  match m with
  | Ret a => k a
  | Panic msg => Panic msg
  end.

(** The slice expressions [s[:i]] and [s[i:]] on a string: out of range
    they panic. *)
Definition slice_to (s : string) (i : Z) : go string :=
  if (0 <=? i) && (i <=? Z.of_nat (String.length s))
  then Ret (String.substring 0 (Z.to_nat i) s)
  else Panic "slice bounds out of range".

Definition slice_from (s : string) (i : Z) : go string :=
  if (0 <=? i) && (i <=? Z.of_nat (String.length s))
  then Ret (String.substring (Z.to_nat i) (String.length s - Z.to_nat i) s)
  else Panic "slice bounds out of range".

(** An [error] value: a message, or another error wrapped by
    [fmt.Errorf("<prefix>%w", err)]. *)
Inductive error : Type :=
| ErrNew (msg : string)
| ErrWrap (prefix : string) (inner : error).

Fixpoint Error (e : error) : string :=
  match e with
  | ErrNew msg => msg
  | ErrWrap prefix inner => prefix +:+ Error inner
  end.

(** ** Type descriptors ([reflect.Type])

    A type is described by what the package reads from it: its kind, the
    element type of a pointer or a slice, the fields of a struct, and
    for the other kinds the package path, the name and the printed form.
    Descriptors are finite trees: a type that reaches itself through
    pointers, slices or embedded fields only is not described. *)

Inductive OtherKind : Type :=
| KBool | KInt | KUint | KFloat | KString | KArray | KMap | KChan | KFunc
| KInterface.

Inductive Kind : Type :=
| KPointer
| KSlice
| KStruct
| KOther (k : OtherKind).

Inductive GoType : Type :=
| TPointer (elem : GoType)
| TSlice (elem : GoType)
| TStruct (pkgPath name str : string) (fields : list StructField)
| TOther (k : OtherKind) (pkgPath name str : string)
with StructField : Type :=
| mkField (fName : string) (fAnonymous : bool) (fJsonTag : string)
          (fType : GoType).

(** [f.Name], [f.Anonymous], [f.Tag.Get("json")] (empty when the tag has
    no json key) and [f.Type]. *)
Definition Name_of (f : StructField) : string :=
  match f with mkField n _ _ _ => n end.
Definition Anonymous (f : StructField) : bool :=
  match f with mkField _ a _ _ => a end.
Definition JsonTag (f : StructField) : string :=
  match f with mkField _ _ t _ => t end.
Definition Type_of (f : StructField) : GoType :=
  match f with mkField _ _ _ t => t end.

Definition kind (t : GoType) : Kind :=
  match t with
  | TPointer _ => KPointer
  | TSlice _ => KSlice
  | TStruct _ _ _ _ => KStruct
  | TOther k _ _ _ => KOther k
  end.

Definition PkgPath (t : GoType) : string :=
  match t with
  | TStruct p _ _ _ | TOther _ p _ _ => p
  | _ => ""
  end.

Definition TypeName (t : GoType) : string :=
  match t with
  | TStruct _ n _ _ | TOther _ _ n _ => n
  | _ => ""
  end.

(** [t.String()] of a pointer or slice type is built from its element. *)
Fixpoint TypeString (t : GoType) : string :=
  match t with
  | TPointer e => "*" +:+ TypeString e
  | TSlice e => "[]" +:+ TypeString e
  | TStruct _ _ s _ | TOther _ _ _ s => s
  end.

(** ** Identifier naming *)

Definition SchemaIdentifier : Type := GoType -> string.

Fixpoint DefaultSchemaIdentifier (t : GoType) : string :=
  match t with
  | TSlice e => DefaultSchemaIdentifier e +:+ "List"
  | TPointer e => DefaultSchemaIdentifier e
  | _ =>
      let sb := "" in
      let sb :=
        if String.eqb (PkgPath t) "" then sb
        else (sb +:+ strings.ReplaceAll (PkgPath t) "/" ".") +:+ "." in
      sb +:+ TypeName t
  end.

Fixpoint ShortSchemaIdentifier (t : GoType) : string :=
  match t with
  | TSlice e => ShortSchemaIdentifier e +:+ "List"
  | TPointer e => ShortSchemaIdentifier e
  | _ => TypeString t
  end.

(** ** Required-field analysis *)

(** The loop [for i := 0; i < t.NumField(); i++] of [getRequiredProps],
    with [required] the function itself, called on embedded fields. *)
Definition requiredOfFields (required : GoType -> list string)
    : list StructField -> list string -> list string :=
  fix loop (fs : list StructField) (props : list string) : list string :=
    match fs with
    | [] => props
    | mkField fname anonymous jsonTag ftype :: rest =>
        if anonymous then loop rest (props ++ required ftype)%list
        else if String.eqb jsonTag "" then loop rest (props ++ [fname])%list
        else
          let '(alias, option, found) := strings.Cut jsonTag "," in
          if String.eqb option "omitempty" then loop rest props
          else
            let name := jsonTag in
            let name := if found then alias else name in
            let name := if String.eqb name "" then fname else name in
            if String.eqb name "-" then loop rest props
            else loop rest (props ++ [name])%list
    end.

Fixpoint getRequiredProps (t : GoType) : list string :=
  match t with
  | TPointer e => getRequiredProps e
  | TStruct _ _ _ fields => requiredOfFields getRequiredProps fields []
  | _ => []
  end.

(** Comparison of type descriptors, for [t != mainStructType]. *)
Fixpoint GoType_eqb (a b : GoType) : bool :=
  match a, b with
  | TPointer x, TPointer y => GoType_eqb x y
  | TSlice x, TSlice y => GoType_eqb x y
  | TStruct p n s fs, TStruct p' n' s' fs' =>
      String.eqb p p' && String.eqb n n' && String.eqb s s'
      && (fix fields_eqb (l l' : list StructField) : bool :=
            match l, l' with
            | [], [] => true
            | mkField n1 a1 t1 ty1 :: r, mkField n2 a2 t2 ty2 :: r' =>
                String.eqb n1 n2 && Bool.eqb a1 a2 && String.eqb t1 t2
                && GoType_eqb ty1 ty2 && fields_eqb r r'
            | _, _ => false
            end) fs fs'
  | TOther k p n s, TOther k' p' n' s' =>
      match k, k' with
      | KBool, KBool | KInt, KInt | KUint, KUint | KFloat, KFloat
      | KString, KString | KArray, KArray | KMap, KMap | KChan, KChan
      | KFunc, KFunc | KInterface, KInterface => true
      | _, _ => false
      end && String.eqb p p' && String.eqb n n' && String.eqb s s'
  | _, _ => false
  end.

(** ** Schema nodes ([openapi3.SchemaRef], [openapi3.Schema])

    A [SchemaRef] is a reference string and an optional schema body; the
    body holds the extension values, the composition members, the item
    schema, the properties and the required names, and the two further
    places where a body nests a schema: the schema of its additional
    properties ([AdditionalProperties.Schema], which [openapi3gen] fills
    with the schema of the element type of a Go map) and the schema it
    negates ([Not]).  The properties of a body are a Go map: the list
    gives its entries in the order in which [range] enumerates them in
    the run at hand.  The nodes of a schema
    are distinct objects, so that the in-place assignment [*ref = ...]
    of the walker is the replacement of one subtree. *)

Inductive ExtValue : Type :=
| ExtString (s : string)
| ExtOther.

Inductive SchemaRef : Type :=
| mkSchemaRef (Ref : string) (Value : option Schema)
with Schema : Type :=
| mkSchema (Extensions : gmap string ExtValue)
           (AllOf AnyOf OneOf : list SchemaRef)
           (Items : option SchemaRef)
           (Properties : list (string * SchemaRef))
           (Required : list string)
           (SType : string)
           (AdditionalProperties : option SchemaRef)
           (Not : option SchemaRef).

Definition Ref (r : SchemaRef) : string :=
  match r with mkSchemaRef s _ => s end.
Definition Value (r : SchemaRef) : option Schema :=
  match r with mkSchemaRef _ v => v end.
Definition Extensions (s : Schema) : gmap string ExtValue :=
  match s with mkSchema e _ _ _ _ _ _ _ _ _ => e end.
Definition AllOf (s : Schema) : list SchemaRef :=
  match s with mkSchema _ l _ _ _ _ _ _ _ _ => l end.
Definition AnyOf (s : Schema) : list SchemaRef :=
  match s with mkSchema _ _ l _ _ _ _ _ _ _ => l end.
Definition OneOf (s : Schema) : list SchemaRef :=
  match s with mkSchema _ _ _ l _ _ _ _ _ _ => l end.
Definition Items (s : Schema) : option SchemaRef :=
  match s with mkSchema _ _ _ _ i _ _ _ _ _ => i end.
Definition Properties (s : Schema) : list (string * SchemaRef) :=
  match s with mkSchema _ _ _ _ _ p _ _ _ _ => p end.
Definition Required (s : Schema) : list string :=
  match s with mkSchema _ _ _ _ _ _ r _ _ _ => r end.
Definition SType (s : Schema) : string :=
  match s with mkSchema _ _ _ _ _ _ _ t _ _ => t end.
Definition AdditionalProperties (s : Schema) : option SchemaRef :=
  match s with mkSchema _ _ _ _ _ _ _ _ a _ => a end.
Definition Not (s : Schema) : option SchemaRef :=
  match s with mkSchema _ _ _ _ _ _ _ _ _ n => n end.

Definition NewSchemaRef (ref : string) (value : option Schema) : SchemaRef :=
  mkSchemaRef ref value.

(** ** The schema walker

    A visitor is a Go closure: it reads and writes state of its own
    ([St]), and returns a replacement (or nil) and an error (or nil), or
    panics; it changes the schema through the replacement only.
    [walkSchema] returns the schema after its in-place edits, the
    visitor's state and the error it returns (or the panic). *)

Section Walk.

Context {St : Type}.

Definition visitorFn : Type :=
  SchemaRef -> St -> St * go (option SchemaRef * option error).

Definition walked (A : Type) : Type := (A * St * go (option error))%type.

(** A loop [for _, ref := range members] of [walkSchema]: entries with a
    nil body are passed over, an error of the recursive call leaves the
    loop and is returned behind [prefix]. *)
Definition walkMembers (walk : SchemaRef -> St -> walked SchemaRef)
    (prefix : string) : list SchemaRef -> St -> walked (list SchemaRef) :=
  fix loop (members : list SchemaRef) (st : St) : walked (list SchemaRef) :=
    match members with
    | [] => ([], st, Ret None)
    | ref :: rest =>
        match ref with
        | mkSchemaRef _ None =>
            let '(rest', st', res) := loop rest st in (ref :: rest', st', res)
        | mkSchemaRef _ (Some _) =>
            let '(ref', st1, res) := walk ref st in
            match res with
            | Ret None =>
                let '(rest', st2, res2) := loop rest st1 in
                (ref' :: rest', st2, res2)
            | Ret (Some err) =>
                (ref' :: rest, st1, Ret (Some (ErrWrap prefix err)))
            | Panic msg => (ref' :: rest, st1, Panic msg)
            end
        end
    end.

(** The loop [for k, p := range s.Properties]. *)
Definition walkProperties (walk : SchemaRef -> St -> walked SchemaRef)
    : list (string * SchemaRef) -> St -> walked (list (string * SchemaRef)) :=
  fix loop (props : list (string * SchemaRef)) (st : St)
      : walked (list (string * SchemaRef)) :=
    match props with
    | [] => ([], st, Ret None)
    | (k, p) :: rest =>
        match p with
        | mkSchemaRef _ None =>
            let '(rest', st', res) := loop rest st in
            ((k, p) :: rest', st', res)
        | mkSchemaRef _ (Some _) =>
            let '(p', st1, res) := walk p st in
            match res with
            | Ret None =>
                let '(rest', st2, res2) := loop rest st1 in
                ((k, p') :: rest', st2, res2)
            | Ret (Some err) =>
                ((k, p') :: rest, st1,
                 Ret (Some (ErrWrap ("prop " +:+ k +:+ ": ") err)))
            | Panic msg => ((k, p') :: rest, st1, Panic msg)
            end
        end
    end.

(** A step of [walkSchema] that is reached only when no earlier one
    returned an error: [if err != nil { return ... }] before it. *)
Definition unlessFailed {A : Type} (res : go (option error)) (st : St)
    (unchanged : A) (step : St -> walked A) : walked A :=
  match res with
  | Ret None => step st
  | _ => (unchanged, st, res)
  end.

(** The step [if s.Items != nil { ... }]. *)
Definition walkItems (walk : SchemaRef -> St -> walked SchemaRef)
    (items : option SchemaRef) (st : St) : walked (option SchemaRef) :=
  match items with
  | Some it =>
      let '(it', st, res) := walk it st in
      (Some it', st,
       match res with
       | Ret (Some err) => Ret (Some (ErrWrap "items: " err))
       | _ => res
       end)
  | None => (None, st, Ret None)
  end.

(** The call of the visitor on the node, and [*ref = *replacedRef]. *)
Definition visit (visitor : visitorFn) (ref : SchemaRef) (st : St)
    : walked SchemaRef :=
  let '(st, visited) := visitor ref st in
  match visited with
  | Ret (_, Some err) => (ref, st, Ret (Some err))
  | Ret (Some replacedRef, None) => (replacedRef, st, Ret None)
  | Ret (None, None) => (ref, st, Ret None)
  | Panic msg => (ref, st, Panic msg)
  end.

Fixpoint walkSchema (ref : SchemaRef) (visitor : visitorFn) (st : St)
    {struct ref} : walked SchemaRef :=
  match ref with
  | mkSchemaRef _ None => (ref, st, Ret None)
  | mkSchemaRef r
      (Some (mkSchema ext allOf anyOf oneOf items props req ty addl nt)) =>
      let walk := fun m st => walkSchema m visitor st in
      let '(allOf, st, res) := walkMembers walk "allOf: " allOf st in
      let '(anyOf, st, res) :=
        unlessFailed res st anyOf (walkMembers walk "allOf: " anyOf) in
      let '(oneOf, st, res) :=
        unlessFailed res st oneOf (walkMembers walk "allOf: " oneOf) in
      let '(items, st, res) :=
        unlessFailed res st items (walkItems walk items) in
      let '(props, st, res) :=
        unlessFailed res st props (walkProperties walk props) in
      let ref :=
        mkSchemaRef r
          (Some (mkSchema ext allOf anyOf oneOf items props req ty addl nt)) in
      unlessFailed res st ref (visit visitor ref)
  end.

End Walk.

Arguments visitorFn St : clear implicits.

(** ** The schema table and the extraction visitor

    [openapi3.Schemas] is a Go map from identifier to schema node. *)

Abbreviation Schemas := (gmap string SchemaRef).

(** The visitor closes over the table, which is its state. *)
Definition extractSubSchemas : visitorFn Schemas :=
  fun ref schemas =>
    match Value ref with
    | None => (schemas, Ret (None, None))
    | Some s =>
        match Extensions s !! "$id" with
        | None => (schemas, Ret (None, None))
        | Some (ExtString id) =>
            let id := strings.TrimPrefix id "#" in
            match schemas !! id with
            | Some _ =>
                (schemas,
                 Ret (Some (NewSchemaRef ("#/components/schemas/" +:+ id) None),
                      None))
            | None =>
                (<[id := ref]> schemas,
                 Ret (Some (NewSchemaRef ("#/components/schemas/" +:+ id) None),
                      None))
            end
        | Some ExtOther =>
            (schemas, Panic "interface conversion: interface {} is not string")
        end
    end.

(** ** Exposed functions

    [Function] is an interface with two implementations: the
    definitions made by [Func] and its variants, and the ones made by
    [Struct] for the methods it finds.  The wrapped Go function itself,
    which only [Apply] calls, is left out. *)

Record functionSettings : Type := mkFunctionSettings { validate : bool }.

Definition FuncOpt : Type := functionSettings -> functionSettings.

Definition Validate (v : bool) : FuncOpt := fun _ => mkFunctionSettings v.

Definition newSettings (opts : list FuncOpt) : functionSettings :=
  fold_left (fun s opt => opt s) opts (mkFunctionSettings false).

(** The placeholder type [Void]. *)
Definition Void : GoType :=
  TStruct "github.com/pbedat/expose" "Void" "expose.Void" [].

(** [functionDefinition[TReq, TRes]]. *)
Record functionDefinition : Type := mkFunctionDefinition {
  fd_name : string;
  fd_path : string;
  fd_TReq : GoType;
  fd_TRes : GoType;
  fd_settings : functionSettings
}.

(** [structFunctionDefinition]; [None] is a nil [reflect.Type]. *)
Record structFunctionDefinition : Type := mkStructFunctionDefinition {
  sd_name : string;
  sd_path : string;
  sd_reqType : option GoType;
  sd_resType : option GoType;
  sd_isNullary : bool;
  sd_isVoid : bool;
  sd_settings : functionSettings
}.

Inductive Function : Type :=
| FunctionDefinition (def : functionDefinition)
| StructFunctionDefinition (def : structFunctionDefinition).

Definition Name (f : Function) : string :=
  match f with
  | FunctionDefinition def => fd_name def
  | StructFunctionDefinition def => sd_name def
  end.

Definition Path (f : Function) : string :=
  match f with
  | FunctionDefinition def => fd_path def
  | StructFunctionDefinition def => sd_path def
  end.

Definition Module (f : Function) : go string :=
  match f with
  | FunctionDefinition def =>
      let i := strings.LastIndex (fd_path def) "/" in
      go_bind (slice_to (fd_path def) i) (fun parent =>
      Ret (strings.TrimPrefix (strings.ReplaceAll parent "/" ".") "."))
  | StructFunctionDefinition def =>
      let i := strings.LastIndex (sd_path def) "/" in
      go_bind (slice_to (sd_path def) i) (fun parent =>
      Ret (strings.TrimPrefix (strings.ReplaceAll parent "/" ".") "."))
  end.

(** [Req] and [Res] return a sample value, given here by its type. *)
Definition Req (f : Function) : GoType :=
  match f with
  | FunctionDefinition def => fd_TReq def
  | StructFunctionDefinition def =>
      match sd_reqType def with
      | Some t => if sd_isNullary def then Void else t
      | None => Void
      end
  end.

Definition Res (f : Function) : GoType :=
  match f with
  | FunctionDefinition def => fd_TRes def
  | StructFunctionDefinition def =>
      match sd_resType def with
      | Some t => if sd_isVoid def then Void else t
      | None => Void
      end
  end.

Definition Func (TReq TRes : GoType) (mountpoint : string)
    (opts : list FuncOpt) : go Function :=
  go_bind (slice_from mountpoint (strings.LastIndex mountpoint "/" + 1))
    (fun n =>
       Ret (FunctionDefinition
              (mkFunctionDefinition n mountpoint TReq TRes (newSettings opts)))).

Definition FuncVoid (TReq : GoType) (mountpoint : string)
    (opts : list FuncOpt) : go Function :=
  go_bind (slice_from mountpoint (strings.LastIndex mountpoint "/" + 1))
    (fun n =>
       Ret (FunctionDefinition
              (mkFunctionDefinition n mountpoint TReq Void (newSettings opts)))).

Definition FuncNullary (TRes : GoType) (mountpoint : string)
    (opts : list FuncOpt) : go Function :=
  go_bind (slice_from mountpoint (strings.LastIndex mountpoint "/" + 1))
    (fun n =>
       Ret (FunctionDefinition
              (mkFunctionDefinition n mountpoint Void TRes (newSettings opts)))).

Definition FuncNullaryVoid (mountpoint : string) (opts : list FuncOpt)
    : go Function :=
  go_bind (slice_from mountpoint (strings.LastIndex mountpoint "/" + 1))
    (fun n =>
       Ret (FunctionDefinition
              (mkFunctionDefinition n mountpoint Void Void (newSettings opts)))).

(** ** Values seen through reflection ([reflect.Value])

    A value is described by what [Struct] reads from it: whether it is
    a pointer, an interface, a struct or of another kind, what a pointer
    or an interface holds, and for a struct its fields (name, whether
    exported, value) and the method sets of its type and of the
    pointer to its type, each in the order in which [Method(i)]
    enumerates it.  [FuncType] is [method.Type()] of a bound method: the
    receiver is not among its parameters.  Values are finite trees: an
    object graph that reaches itself through pointers is not
    described. *)

Record FuncType : Type := mkFuncType {
  ins : list GoType;
  outs : list GoType
}.

Record Method : Type := mkMethod {
  method_name : string;
  method_exported : bool;
  method_type : FuncType
}.

Inductive ReflectValue : Type :=
| VPtr (elem : option ReflectValue)
| VInterface (elem : option ReflectValue)
| VStruct (methods ptrMethods : list Method)
          (fields : list (string * bool * ReflectValue))
| VOther.

Definition NumIn (mt : FuncType) : Z := Z.of_nat (length (ins mt)).
Definition NumOut (mt : FuncType) : Z := Z.of_nat (length (outs mt)).
Definition In_ (mt : FuncType) (i : Z) : option GoType :=
  ins mt !! Z.to_nat i.
Definition Out (mt : FuncType) (i : Z) : option GoType :=
  outs mt !! Z.to_nat i.

Record methodInfo : Type := mkMethodInfo {
  mi_name : string;
  mi_method : FuncType
}.

Section Discovery.

(** [strcase.ToKebab], and [t.Implements(u)] for [u] the interface types
    [context.Context] and [error]. *)
Variable ToKebab : string -> string.
Variable implementsContext : GoType -> bool.
Variable implementsError : GoType -> bool.

Definition implements (f : GoType -> bool) (t : option GoType) : bool :=
  match t with
  | Some t => f t
  | None => false
  end.

Definition isExposableMethod (method : FuncType) : bool :=
  let methodType := method in
  if (NumIn methodType <? 1) || (NumOut methodType <? 1)
     || (NumOut methodType >? 2) then false
  else if negb (implements implementsContext (In_ methodType 0)) then false
  else if (NumOut methodType =? 2)
          && negb (implements implementsError
                     (Out methodType (NumOut methodType - 1))) then false
  else if (NumOut methodType =? 1)
          && negb (implements implementsError (Out methodType 0)) then false
  else true.

(** [v] is a struct value with method sets [methods] (of its type) and
    [ptrMethods] (of the pointer to its type, which [v.Addr()] has);
    [canAddr] is [v.CanAddr()]. *)
Definition getExposableMethods (methods ptrMethods : list Method)
    (canAddr : bool) : list methodInfo :=
  let found :=
    fold_left
      (fun acc m =>
         if method_exported m && isExposableMethod (method_type m)
         then (acc ++ [mkMethodInfo (method_name m) (method_type m)])%list
         else acc)
      methods [] in
  if canAddr then
    fold_left
      (fun acc m =>
         let found :=
           existsb (fun mi => String.eqb (mi_name mi) (method_name m)) acc in
         if negb found && method_exported m
            && isExposableMethod (method_type m)
         then (acc ++ [mkMethodInfo (method_name m) (method_type m)])%list
         else acc)
      ptrMethods found
  else found.

Definition createTypedFunc (path methodName : string)
    (reqType resType : option GoType) (isNullary isVoid : bool)
    (opts : list FuncOpt) : Function :=
  StructFunctionDefinition
    (mkStructFunctionDefinition methodName path reqType resType
       isNullary isVoid (newSettings opts)).

(** [None] is the nil [Function]. *)
Definition createFunction (path methodName : string) (method : FuncType)
    (opts : list FuncOpt) : option Function :=
  let methodType := method in
  if (NumIn methodType <? 1) || (NumOut methodType <? 1)
     || (NumOut methodType >? 2) then None
  else if negb (implements implementsContext (In_ methodType 0)) then None
  else if (NumOut methodType =? 2)
          && negb (implements implementsError
                     (Out methodType (NumOut methodType - 1))) then None
  else if (NumIn methodType =? 2) && (NumOut methodType =? 2) then
    let reqType := In_ methodType 1 in
    let resType := Out methodType 0 in
    Some (createTypedFunc path methodName reqType resType false false opts)
  else if (NumIn methodType =? 2) && (NumOut methodType =? 1) then
    let reqType := In_ methodType 1 in
    Some (createTypedFunc path methodName reqType None false true opts)
  else if (NumIn methodType =? 1) && (NumOut methodType =? 2) then
    let resType := Out methodType 0 in
    Some (createTypedFunc path methodName None resType true false opts)
  else if (NumIn methodType =? 1) && (NumOut methodType =? 1) then
    Some (createTypedFunc path methodName None None true true opts)
  else None.

(** The registration step of [traverseStruct] for the methods found. *)
Definition registerMethods (path : string) (methods : list methodInfo)
    (functions : list Function) (opts : list FuncOpt) : list Function :=
  if (Z.of_nat (length methods) =? 1) then
    match methods with
    | m :: _ =>
        match createFunction path (mi_name m) (mi_method m) opts with
        | Some fn => (functions ++ [fn])%list
        | None => functions
        end
    | [] => functions
    end
  else if (Z.of_nat (length methods) >? 1) then
    fold_left
      (fun functions methodInfo =>
         let methodPath := path +:+ "/" +:+ ToKebab (mi_name methodInfo) in
         match createFunction methodPath (mi_name methodInfo)
                 (mi_method methodInfo) opts with
         | Some fn => (functions ++ [fn])%list
         | None => functions
         end)
      methods functions
  else functions.

(** The loop [for i := 0; i < t.NumField(); i++] of [traverseStruct],
    with [traverse] the function itself. *)
Definition traverseFields
    (traverse : string -> ReflectValue -> bool -> list Function ->
                list Function)
    (path : string) (canAddr : bool)
    : list (string * bool * ReflectValue) -> list Function -> list Function :=
  fix loop (fields : list (string * bool * ReflectValue))
      (functions : list Function) : list Function :=
    match fields with
    | [] => functions
    | (fieldName, isExported, fieldValue) :: rest =>
        if negb isExported then loop rest functions
        else
          let fieldPath := path +:+ "/" +:+ ToKebab fieldName in
          loop rest (traverse fieldPath fieldValue canAddr functions)
    end.

(** [traverseStruct] from its interface check on, that is once a pointer
    has been followed. *)
Definition traverseNode
    (traverse : string -> ReflectValue -> bool -> list Function ->
                list Function)
    (path : string) (v : ReflectValue) (canAddr : bool)
    (functions : list Function) (opts : list FuncOpt) : list Function :=
  match v with
  | VInterface None => functions
  | VInterface (Some e) => traverse path e false functions
  | VStruct methods ptrMethods fields =>
      let methods := getExposableMethods methods ptrMethods canAddr in
      let functions := registerMethods path methods functions opts in
      traverseFields traverse path canAddr fields functions
  | _ => functions
  end.

(** [canAddr] is [v.CanAddr()]: what a pointer holds and the fields of
    an addressable struct are addressable, what an interface holds is
    not. *)
Fixpoint traverseStruct (path : string) (v : ReflectValue) (canAddr : bool)
    (functions : list Function) (opts : list FuncOpt) {struct v}
    : list Function :=
  let traverse := fun path v canAddr functions =>
    traverseStruct path v canAddr functions opts in
  match v with
  | VPtr None => functions
  | VPtr (Some e) => traverseNode traverse path e true functions opts
  | _ => traverseNode traverse path v canAddr functions opts
  end.

Definition Struct (basePath : string) (v : ReflectValue) (opts : list FuncOpt)
    : list Function :=
  let functions := [] in
  traverseStruct basePath v false functions opts.

End Discovery.

(** [strcase.ToKebab] of [github.com/iancoleman/strcase], the function
    that [Struct] is run with: [ToScreamingDelimited(s, '-', "", false)],
    for strings without surrounding white space. *)

Definition isCap (c : ascii) : bool :=
  (65 <=? Z.of_nat (nat_of_ascii c)) && (Z.of_nat (nat_of_ascii c) <=? 90).
Definition isLow (c : ascii) : bool :=
  (97 <=? Z.of_nat (nat_of_ascii c)) && (Z.of_nat (nat_of_ascii c) <=? 122).
Definition isNum (c : ascii) : bool :=
  (48 <=? Z.of_nat (nat_of_ascii c)) && (Z.of_nat (nat_of_ascii c) <=? 57).
Definition toLower (c : ascii) : ascii :=
  ascii_of_nat (nat_of_ascii c + 32).

Fixpoint ToDelimited_from (prev : option ascii) (s : string)
    (delimiter : ascii) : string :=
  match s with
  | EmptyString => EmptyString
  | String v0 rest =>
      let vIsCap := isCap v0 in
      let vIsLow := isLow v0 in
      let v := if vIsCap then toLower v0 else v0 in
      let tail := ToDelimited_from (Some v0) rest delimiter in
      let plain :=
        if Ascii.eqb v " " || Ascii.eqb v "_" || Ascii.eqb v "-"
           || Ascii.eqb v "."
        then String delimiter tail
        else String v tail in
      match rest with
      | String next _ =>
          let vIsNum := isNum v in
          let nextIsCap := isCap next in
          let nextIsLow := isLow next in
          let nextIsNum := isNum next in
          if (vIsCap && (nextIsLow || nextIsNum))
             || (vIsLow && (nextIsCap || nextIsNum))
             || (vIsNum && (nextIsCap || nextIsLow))
          then
            let prevIsCap :=
              match prev with Some p => isCap p | None => false end in
            let after :=
              if vIsLow || vIsNum || nextIsNum then String delimiter tail
              else tail in
            if vIsCap && nextIsLow && prevIsCap
            then String delimiter (String v after)
            else String v after
          else plain
      | EmptyString => plain
      end
  end.

Definition strcase_ToKebab (s : string) : string :=
  ToDelimited_from None s "-".

(** ** The customizer pipeline and the schema builder

    The caller's closures (mapper, customizers, the [JSONSchema] methods
    of its types) and the generator of [openapi3gen] run on a world made
    of the schema table and of whatever state [U] those closures keep. *)

Section Reflect.

Context {U : Type}.

Definition World : Type := (Schemas * U)%type.

Definition SchemaCustomizer : Type :=
  string -> GoType -> string -> Schema -> World ->
  World * go (Schema * bool * option error).

Definition SchemaCustomizerFn : Type :=
  string -> GoType -> string -> Schema -> World ->
  World * go (Schema * option error).

Definition SchemaMapper : Type := GoType -> World -> World * option Schema.

Record reflectSettings : Type := mkReflectSettings {
  mapper : option SchemaMapper;
  typeNamer : SchemaIdentifier;
  skipExtractSubSchemas : bool;
  customizers : list SchemaCustomizer
}.

(** The generator [gen.NewSchemaRefForValue(val, schemas)] of
    [openapi3gen], built with the customizer flow, and the [JSONSchema]
    method of the types that implement [SchemaProvider] ([None] for the
    others). *)
Variable NewSchemaRefForValue :
  SchemaCustomizerFn -> GoType -> World -> World * go (SchemaRef + error).
Variable JSONSchema :
  GoType -> option (World -> World * (option SchemaRef * option error)).

Definition with_Extensions (s : Schema) (e : gmap string ExtValue) : Schema :=
  match s with
  | mkSchema _ allOf anyOf oneOf items props req ty addl nt =>
      mkSchema e allOf anyOf oneOf items props req ty addl nt
  end.

Definition with_Required (s : Schema) (req : list string) : Schema :=
  match s with
  | mkSchema e allOf anyOf oneOf items props _ ty addl nt =>
      mkSchema e allOf anyOf oneOf items props req ty addl nt
  end.

Definition setID (mainType : GoType) (namer : SchemaIdentifier)
    : SchemaCustomizer :=
  let mainStructType := mainType in
  let mainStructType :=
    match mainStructType with
    | TPointer e => e
    | _ => mainStructType
    end in
  fun name t tag schema w =>
    if negb (GoType_eqb t mainStructType)
       && match kind t with KStruct => true | _ => false end
    then
      let id := namer t in
      (w, Ret (with_Extensions schema
                 (<["$id" := ExtString ("#" +:+ id)]> (Extensions schema)),
               false, None))
    else (w, Ret (schema, false, None)).

Definition tryMap (mapper : option SchemaMapper) : SchemaCustomizer :=
  fun name t tag schema w =>
    match mapper with
    | None => (w, Ret (schema, false, None))
    | Some mapper =>
        match mapper t w with
        | (w, Some s) => (w, Ret (s, true, None))
        | (w, None) => (w, Ret (schema, false, None))
        end
    end.

Definition useCutomType : SchemaCustomizer :=
  fun name t tag schema w =>
    match JSONSchema t with
    | Some provider =>
        match provider w with
        | (w, (_, Some err)) =>
            (w, Ret (schema, true,
                     Some (ErrWrap ("failed to generate custom schema for "
                                    +:+ TypeName t +:+ ": ") err)))
        | (w, (Some (mkSchemaRef _ (Some custom)), None)) =>
            (w, Ret (custom, true, None))
        | (w, (_, None)) => (w, Panic "nil pointer dereference")
        end
    | None => (w, Ret (schema, false, None))
    end.

Definition markPropertiesRequired : SchemaCustomizer :=
  fun name t tag schema w =>
    (w, Ret (with_Required schema (Required schema ++ getRequiredProps t)%list,
             false, None)).

Definition newCustomizerFlow (pipes : list SchemaCustomizer)
    : SchemaCustomizerFn :=
  fun name t tag =>
    (fix loop (pipes : list SchemaCustomizer) (schema : Schema) (w : World)
       : World * go (Schema * option error) :=
       match pipes with
       | [] => (w, Ret (schema, None))
       | p :: rest =>
           match p name t tag schema w with
           | (w, Ret (schema, _, Some err)) => (w, Ret (schema, Some err))
           | (w, Ret (schema, true, None)) => (w, Ret (schema, None))
           | (w, Ret (schema, false, None)) => loop rest schema w
           | (w, Panic msg) => (w, Panic msg)
           end
       end) pipes.

(** [val] is given by its dynamic type, the one thing the builder reads
    from it.  After [schemas[id] = ref] the table holds the very node
    that [walkSchema] edits in place: the entry under [id] is the walked
    node. *)
Definition reflectSchema (val : GoType) (w : World)
    (settings : reflectSettings) : World * go (SchemaRef + error) :=
  let fail := fun err : error =>
    inr (ErrWrap ("failed to reflect schema " +:+ TypeString val +:+ "; ") err) in
  let t := val in
  let id := typeNamer settings t in
  match w.1 !! id with
  | Some _ => (w, Ret (inl (NewSchemaRef ("#/components/schemas/" +:+ id) None)))
  | None =>
      let pipes := [setID t (typeNamer settings)] in
      let pipes := (pipes ++ customizers settings)%list in
      let pipes :=
        (pipes ++ [tryMap (mapper settings); useCutomType;
                   markPropertiesRequired])%list in
      let '(w, generated) :=
        NewSchemaRefForValue (newCustomizerFlow pipes) val w in
      match generated with
      | Panic msg => (w, Panic msg)
      | Ret (inr err) => (w, Ret (fail err))
      | Ret (inl ref) =>
          let '(schemas, u) := w in
          let schemas := <[id := ref]> schemas in
          if negb (skipExtractSubSchemas settings)
             && match Value ref with Some _ => true | None => false end
          then
            let '(ref, schemas, res) :=
              walkSchema ref extractSubSchemas schemas in
            let schemas := <[id := ref]> schemas in
            match res with
            | Ret None =>
                ((schemas, u),
                 Ret (inl (NewSchemaRef ("#/components/schemas/" +:+ id) None)))
            | Ret (Some err) => ((schemas, u), Ret (fail err))
            | Panic msg => ((schemas, u), Panic msg)
            end
          else
            ((schemas, u),
             Ret (inl (NewSchemaRef ("#/components/schemas/" +:+ id) None)))
      end
  end.

(** ** The document assembler

    Of the document [openapi3.T] the assembler touches the version
    string, the schemas of its components and the POST operation of its
    path items; of an operation, its id, the schemas of its request body
    and of its response, and its tags. *)

Definition reflectSpecOpt : Type := reflectSettings -> reflectSettings.

Definition WithSchemaMapper (m : option SchemaMapper) : reflectSpecOpt :=
  fun s =>
    mkReflectSettings m (typeNamer s) (skipExtractSubSchemas s) (customizers s).

Definition WithSchemaCustomizers (cs : list SchemaCustomizer)
    : reflectSpecOpt :=
  fun s =>
    mkReflectSettings (mapper s) (typeNamer s) (skipExtractSubSchemas s)
      (customizers s ++ cs)%list.

Definition withSettings (settings : reflectSettings) : reflectSpecOpt :=
  fun _ => settings.

Definition SkipExtractSubSchemas (skip : list bool) : reflectSpecOpt :=
  fun s =>
    mkReflectSettings (mapper s) (typeNamer s)
      (match skip with b :: _ => b | [] => true end) (customizers s).

Record Operation : Type := mkOperation {
  OperationID : string;
  RequestBody : option SchemaRef;
  Response200 : option SchemaRef;
  Tags : list string
}.

Record PathItem : Type := mkPathItem {
  Post : option Operation;
  otherOperations : list (string * Operation)
}.

Record T : Type := mkT {
  OpenAPI : string;
  Components : option Schemas;
  Paths : gmap string PathItem
}.

(** [root.AddOperation(path, "POST", op)]. *)
Definition AddOperation (paths : gmap string PathItem) (path : string)
    (op : Operation) : gmap string PathItem :=
  let pathItem :=
    match paths !! path with
    | Some pathItem => pathItem
    | None => mkPathItem None []
    end in
  <[path := mkPathItem (Some op) (otherOperations pathItem)]> paths.

(** The body of the loop [for _, fn := range fns]: the operation of [fn]
    added to [paths], or the error of a failed reflection. *)
Definition reflectOperation (settings : reflectSettings) (fn : Function)
    (paths : gmap string PathItem) (w : World)
    : World * go (gmap string PathItem + error) :=
  match Module fn with
  | Panic msg => (w, Panic msg)
  | Ret module =>
      let operationID := module +:+ "#" +:+ Name fn in
      let '(w, body) :=
        if negb (GoType_eqb (Req fn) Void) then
          match reflectSchema (Req fn) w settings with
          | (w, Ret (inl reqSchemaRef)) => (w, Ret (inl (Some reqSchemaRef)))
          | (w, Ret (inr err)) => (w, Ret (inr err))
          | (w, Panic msg) => (w, Panic msg)
          end
        else (w, Ret (inl None)) in
      match body with
      | Panic msg => (w, Panic msg)
      | Ret (inr err) => (w, Ret (inr err))
      | Ret (inl requestBody) =>
          match reflectSchema (Res fn) w settings with
          | (w, Panic msg) => (w, Panic msg)
          | (w, Ret (inr err)) => (w, Ret (inr err))
          | (w, Ret (inl resSchema)) =>
              match Module fn with
              | Panic msg => (w, Panic msg)
              | Ret tag =>
                  let op :=
                    mkOperation operationID requestBody (Some resSchema)
                      ([] ++ [tag])%list in
                  (w, Ret (inl (AddOperation paths (Path fn) op)))
              end
          end
      end
  end.

Fixpoint reflectOperations (settings : reflectSettings)
    (fns : list Function) (paths : gmap string PathItem) (w : World)
    : World * go (gmap string PathItem + error) :=
  match fns with
  | [] => (w, Ret (inl paths))
  | fn :: rest =>
      match reflectOperation settings fn paths w with
      | (w, Ret (inl paths)) => reflectOperations settings rest paths w
      | (w, res) => (w, res)
      end
  end.

(** [u] is the state of the caller's closures when [ReflectSpec] is
    called; the schemas are collected in fresh components, which become
    the document's when the template has none. *)
Definition ReflectSpec (root : T) (fns : list Function)
    (opts : list (option reflectSpecOpt)) (u : U) : U * go (T + error) :=
  let fail := fun err : error =>
    inr (ErrWrap "failed to reflect openapi spec: " err) in
  let settings :=
    mkReflectSettings (Some (fun _ w => (w, None))) DefaultSchemaIdentifier
      false [] in
  let settings :=
    fold_left
      (fun settings opt =>
         match opt with
         | None => settings
         | Some opt => opt settings
         end)
      opts settings in
  let components : Schemas := ∅ in
  match reflectOperations settings fns (Paths root) (components, u) with
  | ((_, u), Panic msg) => (u, Panic msg)
  | ((_, u), Ret (inr err)) => (u, Ret (fail err))
  | ((components, u), Ret (inl paths)) =>
      (u, Ret (inl (mkT "3.0.2"
                      (match Components root with
                       | None => Some components
                       | Some c => Some c
                       end)
                      paths)))
  end.

End Reflect.

(** ** Errors with codes

    An error value, by what [errors.Is] and [errors.As] read from it:
    the sentinel [ErrApplication]; an error of [errors.New], which wraps
    nothing; an error made by [fmt.Errorf] with one [%w] closing its
    format; an [ErrWithCode]; and an error of any other type, given by
    whether its [Is] method accepts [ErrApplication] (false when it has
    none), by the code that its [Code] method returns or that its [As]
    method stores in a [WithCode] (none when it has neither), and by the
    errors that its [Unwrap] returns: one for [Unwrap() error], several
    for [Unwrap() []error], which the errors of [errors.Join] and of
    [fmt.Errorf] with several [%w] have, none without.  [None] is the
    nil error. *)

Inductive exposedError : Type :=
| ErrApplication
| ErrorsNew (msg : string)
| Errorf (prefix : string) (inner : exposedError)
| ErrWithCode (code : string) (err : option exposedError)
| ErrOther (isApplication : bool) (code : option string)
           (unwrapped : list exposedError).

(** [errors.Is(err, ErrApplication)] and [errors.As(err, &withCode)]
    for [withCode] of the interface type [WithCode], which gives the code
    of the error found.  Both look at the error itself and then follow
    [Unwrap], depth first; an [ErrWithCode] has the method [Code] and no
    [Unwrap]. *)
Fixpoint IsErrApplication (err : exposedError) : bool :=
  match err with
  | ErrApplication => true
  | ErrorsNew _ => false
  | Errorf _ inner => IsErrApplication inner
  | ErrWithCode _ _ => false
  | ErrOther isApplication _ unwrapped =>
      isApplication || existsb IsErrApplication unwrapped
  end.

Fixpoint AsWithCode (err : exposedError) : option string :=
  match err with
  | ErrApplication => None
  | ErrorsNew _ => None
  | Errorf _ inner => AsWithCode inner
  | ErrWithCode code _ => Some code
  | ErrOther _ (Some code) _ => Some code
  | ErrOther _ None unwrapped =>
      (fix first (errs : list exposedError) : option string :=
         match errs with
         | [] => None
         | err :: rest =>
             match AsWithCode err with
             | Some code => Some code
             | None => first rest
             end
         end) unwrapped
  end.

Definition SetErrCode (err : option exposedError) (code : string)
    : option exposedError :=
  Some (ErrWithCode code err).

Definition GetErrCode (err : option exposedError) : string * bool :=
  match err with
  | Some err =>
      match AsWithCode err with
      | Some code => (code, true)
      | None => ("", false)
      end
  | None => ("", false)
  end.

(** ** The options of the handler

    [http.Handler], the codecs of an [Encoding] and [ErrorHandler] are
    not described any further. *)

Section Handler.

Context {U Handler Codec ErrorHandler : Type}.

(** [http.StripPrefix]. *)
Variable StripPrefix : string -> Handler -> Handler.

Record Encoding : Type := mkEncoding {
  MimeType : string;
  codec : Codec
}.

Definition Middleware : Type := Handler -> Handler.

Record handlerSettings : Type := mkHandlerSettings {
  hs_reflectSettings : @reflectSettings U;
  errorHandler : option ErrorHandler;
  defaultSpec : T;
  encoding : gmap string Encoding;
  middlewares : list Middleware;
  swaggerPath : string;
  swaggerUIPath : string;
  basePath : string
}.

Definition HandlerOption : Type := handlerSettings -> handlerSettings.

Definition WithSwaggerUI (path : string) : HandlerOption :=
  fun settings =>
    mkHandlerSettings (hs_reflectSettings settings) (errorHandler settings)
      (defaultSpec settings) (encoding settings) (middlewares settings)
      (swaggerPath settings) path (basePath settings).

Definition WithErrorHandler (h : option ErrorHandler) : HandlerOption :=
  fun settings =>
    mkHandlerSettings (hs_reflectSettings settings) h
      (defaultSpec settings) (encoding settings) (middlewares settings)
      (swaggerPath settings) (swaggerUIPath settings) (basePath settings).

Definition WithSwaggerJSONPath (path : string) : HandlerOption :=
  fun settings =>
    mkHandlerSettings (hs_reflectSettings settings) (errorHandler settings)
      (defaultSpec settings) (encoding settings) (middlewares settings)
      path (swaggerUIPath settings) (basePath settings).

Definition WithEncodings (encodings : list Encoding) : HandlerOption :=
  fun settings =>
    mkHandlerSettings (hs_reflectSettings settings) (errorHandler settings)
      (defaultSpec settings)
      (fold_left (fun encoding enc => <[MimeType enc := enc]> encoding)
         encodings (encoding settings))
      (middlewares settings)
      (swaggerPath settings) (swaggerUIPath settings) (basePath settings).

Definition WithDefaultSpec (spec : T) : HandlerOption :=
  fun settings =>
    mkHandlerSettings (hs_reflectSettings settings) (errorHandler settings)
      spec (encoding settings) (middlewares settings)
      (swaggerPath settings) (swaggerUIPath settings) (basePath settings).

Definition WithPathPrefix (prefixPath : string) : HandlerOption :=
  fun settings =>
    mkHandlerSettings (hs_reflectSettings settings) (errorHandler settings)
      (defaultSpec settings) (encoding settings)
      ([fun next => StripPrefix prefixPath next] ++ middlewares settings)
      (swaggerPath settings) (swaggerUIPath settings) prefixPath.

Definition WithReflection (opts : list (option (@reflectSpecOpt U)))
    : HandlerOption :=
  fun settings =>
    mkHandlerSettings
      (fold_left
         (fun s opt =>
            match opt with
            | None => s
            | Some opt => opt s
            end)
         opts (hs_reflectSettings settings))
      (errorHandler settings)
      (defaultSpec settings) (encoding settings) (middlewares settings)
      (swaggerPath settings) (swaggerUIPath settings) (basePath settings).

Definition WithSchemaIdentifier (namer : SchemaIdentifier)
    : @reflectSpecOpt U :=
  fun s =>
    mkReflectSettings (mapper s) namer (skipExtractSubSchemas s) (customizers s).

Definition WithMiddleware (mws : list Middleware) : HandlerOption :=
  fun settings =>
    mkHandlerSettings (hs_reflectSettings settings) (errorHandler settings)
      (defaultSpec settings) (encoding settings)
      (middlewares settings ++ mws)
      (swaggerPath settings) (swaggerUIPath settings) (basePath settings).

(** The loops of [NewHandler] over the options and over the
    middlewares: [for _, applyOption := range options] and
    [for _, mw := range settings.middlewares { h = mw(h) }]. *)
Definition applyOptions (options : list HandlerOption)
    (settings : handlerSettings) : handlerSettings :=
  fold_left (fun settings applyOption => applyOption settings) options settings.

Definition applyMiddlewares (mws : list Middleware) (h : Handler) : Handler :=
  fold_left (fun h mw => mw h) mws h.

End Handler.

(** * The statements, in the specification's words *)

(** ** Required fields

    The name and the options of a json tag are the comma-separated
    parts of its text: the name first, then the options. *)

Definition tagName (tag : string) : string := (strings.Cut tag ",").1.1.

Definition tagOptions (tag : string) : list string :=
  tail (strings.Split tag ",").

Definition carriesOmitEmpty (tag : string) : bool :=
  existsb (String.eqb "omitempty") (tagOptions tag).

(** What a field that is not embedded contributes. *)
Definition requiredName (f : StructField) : list string :=
  let tag := JsonTag f in
  if String.eqb tag "" then [Name_of f]
  else if carriesOmitEmpty tag then []
  else if String.eqb (tagName tag) "-" then []
  else if String.eqb (tagName tag) "" then [Name_of f]
  else [tagName tag].

(** The required names as stated: those of the fields of a struct type,
    nothing for any other type. *)
Fixpoint Required_stated (t : GoType) : list string :=
  match t with
  | TStruct _ _ _ fields =>
      flat_map
        (fun f =>
           if Anonymous f then Required_stated (Type_of f)
           else requiredName f)
        fields
  | _ => []
  end.

(** The same with pointers looked through. *)
Fixpoint Required_through_pointers (t : GoType) : list string :=
  match t with
  | TPointer e => Required_through_pointers e
  | TStruct _ _ _ fields =>
      flat_map
        (fun f =>
           if Anonymous f then Required_through_pointers (Type_of f)
           else requiredName f)
        fields
  | _ => []
  end.

(** The fields met by the analysis of [t] on which the statement is
    made: a json tag that carries [omitempty] has it as its one option,
    and the declared name is not the text [-] (which no Go identifier
    is). *)
Definition omitEmptyAlone (tag : string) : bool :=
  negb (carriesOmitEmpty tag)
  || String.eqb (strings.Cut tag ",").1.2 "omitempty".

Definition fieldInScope (f : StructField) : bool :=
  omitEmptyAlone (JsonTag f) && negb (String.eqb (Name_of f) "-").

Fixpoint fieldsInScope (t : GoType) : bool :=
  match t with
  | TPointer e => fieldsInScope e
  | TStruct _ _ _ fields =>
      forallb
        (fun f =>
           if Anonymous f then fieldsInScope (Type_of f) else fieldInScope f)
        fields
  | _ => true
  end.

(** ** The order of the walk

    The nodes that the walk visits, in order, each with the labels under
    which an error of its visit is returned, outermost first: the
    members of [allOf], of [anyOf] and of [oneOf], the item schema, the
    properties, and then the node itself; nothing for a node without a
    body, and nothing for the schemas under [AdditionalProperties] and
    [Not], which [walkSchema] does not read.  The members of [anyOf] and [oneOf] are labelled [allOf: ] as
    those of [allOf] are. *)

Definition under (label : string) (order : list (list string * SchemaRef))
    : list (list string * SchemaRef) :=
  map (fun visit => (label :: visit.1, visit.2)) order.

Fixpoint visitOrder (ref : SchemaRef) : list (list string * SchemaRef) :=
  match ref with
  | mkSchemaRef _ None => []
  | mkSchemaRef _ (Some (mkSchema _ allOf anyOf oneOf items props _ _ _ _)) =>
      (under "allOf: " (flat_map visitOrder allOf)
       ++ under "allOf: " (flat_map visitOrder anyOf)
       ++ under "allOf: " (flat_map visitOrder oneOf)
       ++ under "items: "
            (match items with Some it => visitOrder it | None => [] end)
       ++ flat_map
            (fun kp : string * SchemaRef =>
               under ("prop " +:+ kp.1 +:+ ": ") (visitOrder kp.2))
            props
       ++ [([], ref)])%list
  end.

Definition wrapAll (labels : list string) (err : error) : error :=
  fold_right ErrWrap err labels.

(** What a node holds itself, apart from the nodes below it that the
    walk visits: the schemas under [AdditionalProperties] and [Not] are
    part of it. *)
Definition shallow (ref : SchemaRef)
    : string
      * option (gmap string ExtValue * list string * string
                * option SchemaRef * option SchemaRef) :=
  (Ref ref,
   match Value ref with
   | Some s =>
       Some (Extensions s, Required s, SType s, AdditionalProperties s, Not s)
   | None => None
   end).

(** A visitor that records, after each call, the node it was given and
    the error (or panic) it answered with. *)
Abbreviation visitLog := (list (SchemaRef * go (option error))).

Definition logged {St : Type} (visitor : visitorFn St)
    : visitorFn (St * visitLog) :=
  fun ref state =>
    let '(st, log) := state in
    let '(st, out) := visitor ref st in
    ((st,
      (log ++ [(ref,
                match out with
                | Ret (_, err) => Ret err
                | Panic msg => Panic msg
                end)])%list),
     out).

(** [Walked order log res]: the calls recorded in [log] are on the nodes
    of [order], one after the other; the walk returns nil when all
    answered nil, and otherwise ends with the first call that did not,
    returning its error behind the labels of its node, or its panic. *)
Inductive Walked
    : list (list string * SchemaRef) -> visitLog -> go (option error) -> Prop :=
| Walked_done : Walked [] [] (Ret None)
| Walked_next labels target order seen log res :
    shallow seen = shallow target ->
    Walked order log res ->
    Walked ((labels, target) :: order) ((seen, Ret None) :: log) res
| Walked_error labels target order seen err :
    shallow seen = shallow target ->
    Walked ((labels, target) :: order) [(seen, Ret (Some err))]
      (Ret (Some (wrapAll labels err)))
| Walked_panic labels target order seen msg :
    shallow seen = shallow target ->
    Walked ((labels, target) :: order) [(seen, Panic msg)] (Panic msg).

(** [stepL] does what [stepV] does, and records visits of the nodes of
    [order]. *)
Definition records {St A : Type}
    (stepV : St -> walked (St := St) A)
    (stepL : St * visitLog -> walked (St := St * visitLog) A)
    (order : list (list string * SchemaRef)) : Prop :=
  forall st log,
    exists new,
      stepL (st, log)
      = (let '(x, st', res) := stepV st in (x, (st', log ++ new), res))
      /\ Walked order new (stepV st).2.

(** Every call recorded by [logged visitor] holds what [visitor]
    answered on the node recorded with it. *)
Definition answered {St : Type} (visitor : visitorFn St)
    (call : SchemaRef * go (option error)) : Prop :=
  exists st,
    call.2 = match (visitor call.1 st).2 with
             | Ret (_, err) => Ret err
             | Panic msg => Panic msg
             end.

(** ** Extraction

    A node is stamped when its extensions hold an identifier under
    [$id]; the identifier is the text without one leading [#]. *)

Definition pendingId (ref : SchemaRef) : option string :=
  match Value ref with
  | Some s =>
      match Extensions s !! "$id" with
      | Some (ExtString id) => Some (strings.TrimPrefix id "#")
      | _ => None
      end
  | None => None
  end.

Definition reference (id : string) : SchemaRef :=
  mkSchemaRef ("#/components/schemas/" +:+ id) None.

(** A schema with every stamped node that the walk visits replaced by
    the reference to its identifier: [settled] does so below a node,
    [promoted] at the node as well.  The schemas under
    [AdditionalProperties] and [Not] stay as they are, stamped or
    not. *)
Fixpoint promoted (ref : SchemaRef) : SchemaRef :=
  match ref with
  | mkSchemaRef _ None => ref
  | mkSchemaRef r
      (Some (mkSchema ext allOf anyOf oneOf items props req ty addl nt)) =>
      match pendingId ref with
      | Some id => reference id
      | None =>
          mkSchemaRef r
            (Some (mkSchema ext (map promoted allOf) (map promoted anyOf)
                     (map promoted oneOf) (option_map promoted items)
                     (map (fun kp : string * SchemaRef =>
                             (kp.1, promoted kp.2)) props)
                     req ty addl nt))
      end
  end.

Definition settled (ref : SchemaRef) : SchemaRef :=
  match ref with
  | mkSchemaRef _ None => ref
  | mkSchemaRef r
      (Some (mkSchema ext allOf anyOf oneOf items props req ty addl nt)) =>
      mkSchemaRef r
        (Some (mkSchema ext (map promoted allOf) (map promoted anyOf)
                 (map promoted oneOf) (option_map promoted items)
                 (map (fun kp : string * SchemaRef =>
                         (kp.1, promoted kp.2)) props)
                 req ty addl nt))
  end.

(** Every node of a schema, at any depth and in every place where a
    body nests a schema; [nestedNodes] are the nodes below the first. *)
Fixpoint nodesOf (ref : SchemaRef) : list SchemaRef :=
  ref ::
  match ref with
  | mkSchemaRef _ None => []
  | mkSchemaRef _
      (Some (mkSchema _ allOf anyOf oneOf items props _ _ addl nt)) =>
      (flat_map nodesOf allOf ++ flat_map nodesOf anyOf
       ++ flat_map nodesOf oneOf
       ++ match items with Some it => nodesOf it | None => [] end
       ++ flat_map (fun kp : string * SchemaRef => nodesOf kp.2) props
       ++ match addl with Some a => nodesOf a | None => [] end
       ++ match nt with Some n => nodesOf n | None => [] end)%list
  end.

Definition nestedNodes (ref : SchemaRef) : list SchemaRef :=
  tail (nodesOf ref).

(** The stamped nodes among those visited, each with its identifier and
    as it stands when it is visited. *)
Definition stampedAmong (order : list (list string * SchemaRef))
    : list (string * SchemaRef) :=
  omap
    (fun visit : list string * SchemaRef =>
       match pendingId visit.2 with
       | Some id => Some (id, settled visit.2)
       | None => None
       end)
    order.

Definition stampedNodes (ref : SchemaRef) : list (string * SchemaRef) :=
  stampedAmong (visitOrder ref).

(** Every value under [$id] among the nodes visited is a string. *)
Definition idsAreStringsAmong (order : list (list string * SchemaRef))
    : bool :=
  forallb
    (fun visit : list string * SchemaRef =>
       match Value visit.2 with
       | Some s =>
           match Extensions s !! "$id" with
           | Some ExtOther => false
           | _ => true
           end
       | None => true
       end)
    order.

Definition idsAreStrings (ref : SchemaRef) : bool :=
  idsAreStringsAmong (visitOrder ref).

(** [schemas'] is [schemas] with entries added for [entries]: what was
    there is kept as it was, every identifier of [entries] has an entry,
    and each new entry is among [entries]. *)
Definition extendedBy (schemas : Schemas)
    (entries : list (string * SchemaRef)) (schemas' : Schemas) : Prop :=
  (forall id entry, schemas !! id = Some entry -> schemas' !! id = Some entry)
  /\ (forall id, id ∈ entries.*1 -> is_Some (schemas' !! id))
  /\ (forall id entry,
        schemas' !! id = Some entry ->
        schemas !! id = Some entry \/ (id, entry) ∈ entries).

(** [step] extracts the stamped nodes of [order], leaving [result]. *)
Definition extracts {A : Type}
    (step : Schemas -> walked (St := Schemas) A) (result : A)
    (order : list (list string * SchemaRef)) : Prop :=
  idsAreStringsAmong order = true ->
  forall schemas,
    exists schemas',
      step schemas = (result, schemas', Ret None)
      /\ extendedBy schemas (stampedAmong order) schemas'.

(** The property [k] of the body of [ref] is [p]. *)
Definition hasProperty (ref : SchemaRef) (k : string) (p : SchemaRef) : Prop :=
  exists s, Value ref = Some s /\ (k, p) ∈ Properties s.

(** ** The customizer flow

    [passes pipes name t tag schema w] is the schema and the world
    after [pipes], when each of them returned [stop = false] and no
    error; [None] when one of them stopped the flow, failed or
    panicked. *)

Fixpoint passes {U : Type} (pipes : list (@SchemaCustomizer U))
    (name : string) (t : GoType) (tag : string) (schema : Schema)
    (w : @World U) : option (Schema * @World U) :=
  match pipes with
  | [] => Some (schema, w)
  | p :: rest =>
      match p name t tag schema w with
      | (w, Ret (schema, false, None)) => passes rest name t tag schema w
      | _ => None
      end
  end.

(** The flow that [reflectSchema] builds the generator with. *)
Definition flowOf {U : Type}
    (JSONSchema :
       GoType ->
       option (@World U -> @World U * (option SchemaRef * option error)))
    (val : GoType) (settings : @reflectSettings U) : @SchemaCustomizerFn U :=
  newCustomizerFlow
    (([setID val (typeNamer settings)] ++ customizers settings)
     ++ [tryMap (mapper settings); useCutomType JSONSchema;
         markPropertiesRequired]).

(** The error that [reflectSchema] returns for [val]. *)
Definition failedToReflect (val : GoType) (err : error) : error :=
  ErrWrap ("failed to reflect schema " +:+ TypeString val +:+ "; ") err.

(** ** The document

    The settings that [ReflectSpec] works with: the defaults, then the
    options in order, nil options passed over. *)

Definition settingsOf {U : Type} (opts : list (option (@reflectSpecOpt U)))
    : @reflectSettings U :=
  fold_left
    (fun settings opt =>
       match opt with
       | None => settings
       | Some opt => opt settings
       end)
    opts
    (mkReflectSettings (Some (fun _ w => (w, None))) DefaultSchemaIdentifier
       false []).

(** The operation of [fn]: its request body refers to the schema of
    its request type, unless that type is [Void], and its response to
    the schema of its result type. *)
Definition operationOf {U : Type} (settings : @reflectSettings U)
    (fn : Function) (module : string) : Operation :=
  mkOperation (module +:+ "#" +:+ Name fn)
    (if GoType_eqb (Req fn) Void then None
     else Some (reference (typeNamer settings (Req fn))))
    (Some (reference (typeNamer settings (Res fn))))
    [module].

(** The operations of the path [p] for the other methods. *)
Definition othersAt (paths : gmap string PathItem) (p : string)
    : list (string * Operation) :=
  match paths !! p with
  | Some item => otherOperations item
  | None => []
  end.

(** ** The methods of a value

    The methods of the structs that [v] holds at any depth, behind
    pointers and interfaces and in fields; and the type that an
    identifier is made from, below pointers and slices. *)

Fixpoint methodsOf (v : ReflectValue) : list Method :=
  match v with
  | VPtr (Some e) | VInterface (Some e) => methodsOf e
  | VStruct methods ptrMethods fields =>
      (methods ++ ptrMethods
       ++ flat_map (fun f : string * bool * ReflectValue => methodsOf f.2)
            fields)%list
  | _ => []
  end.

Fixpoint elemType (t : GoType) : GoType :=
  match t with
  | TPointer e | TSlice e => elemType e
  | _ => t
  end.

(** ** Wrapped errors and option lists

    An error wrapped by [fmt.Errorf] once for each of [prefixes], the
    first of them outermost; and the options that set the path prefix
    or add middlewares. *)

Definition wrappedBy (prefixes : list string) (err : exposedError)
    : exposedError :=
  fold_right Errorf err prefixes.

Definition chainOption {Handler : Type} {U Codec ErrorHandler : Type}
    (StripPrefix : string -> Handler -> Handler)
    (o : string + list (@Middleware Handler))
    : @HandlerOption U Handler Codec ErrorHandler :=
  match o with
  | inl prefixPath => WithPathPrefix StripPrefix prefixPath
  | inr mws => WithMiddleware mws
  end.

(** The prefixes and the middlewares that a list of such options
    names, each in the order of the options. *)
Definition prefixesOf {Handler : Type}
    (os : list (string + list (@Middleware Handler))) : list string :=
  omap (fun o => match o with inl p => Some p | inr _ => None end) os.

Definition middlewaresOf {Handler : Type}
    (os : list (string + list (@Middleware Handler)))
    : list (@Middleware Handler) :=
  flat_map (fun o => match o with inl _ => [] | inr mws => mws end) os.

(** ** Module names

    Every [/] replaced by [.], and one leading [.] removed. *)

Definition slashesToDots (s : string) : string :=
  string_of_list_ascii
    (map (fun c => if Ascii.eqb c "/" then "."%char else c)
       (list_ascii_of_string s)).

Definition withoutLeadingDot (s : string) : string :=
  match s with
  | String "." rest => rest
  | _ => s
  end.

(** An operation with the id and the tag of [fn]. *)
Definition namedAfter (fn : Function) (op : Operation) : Prop :=
  exists m,
    Module fn = Ret m
    /\ OperationID op = m +:+ "#" +:+ Name fn
    /\ Tags op = [m].

(** ** Endpoint discovery

    The four supported shapes of a method: [(context) -> (result, error)],
    [(context, request) -> (result, error)], [(context) -> error] and
    [(context, request) -> error]. *)

Section DiscoveryStatements.

Variable ToKebab : string -> string.
Variable implementsContext : GoType -> bool.
Variable implementsError : GoType -> bool.

Definition fourShapes (mt : FuncType) : bool :=
  match ins mt, outs mt with
  | [c], [_; e] | [c; _], [_; e] | [c], [e] | [c; _], [e] =>
      implementsContext c && implementsError e
  | _, _ => false
  end.

(** The path segments that a struct node adds below its path: the
    kebab-cased names of its methods when it registers more than one,
    and those of its exported fields. *)
Definition segments (methods : list methodInfo)
    (fields : list (string * bool * ReflectValue)) : list string :=
  ((if (1 <? Z.of_nat (length methods))
    then map (fun m => ToKebab (mi_name m)) methods else [])
   ++ map (fun f => ToKebab f.1.1) (filter (fun f => f.1.2 = true) fields))%list.

(** At every struct node that the traversal of [v] reaches, the segments
    are pairwise distinct and free of [/]. *)
Definition segmentsDistinctAt
    (rec : ReflectValue -> bool -> bool) (v : ReflectValue) (canAddr : bool)
    : bool :=
  match v with
  | VInterface (Some e) => rec e false
  | VStruct methods ptrMethods fields =>
      let segs :=
        segments
          (getExposableMethods implementsContext implementsError
             methods ptrMethods canAddr)
          fields in
      bool_decide (NoDup segs)
      && forallb (fun seg => negb (strings.ContainsByte seg "/")) segs
      && forallb (fun f => negb f.1.2 || rec f.2 canAddr) fields
  | _ => true
  end.

Fixpoint segmentsDistinct (v : ReflectValue) (canAddr : bool) {struct v}
    : bool :=
  match v with
  | VPtr None => true
  | VPtr (Some e) => segmentsDistinctAt segmentsDistinct e true
  | _ => segmentsDistinctAt segmentsDistinct v canAddr
  end.

(** The function made for a method of a supported shape, and the
    functions registered at a node as the naming rule states them: none
    for no method, the function of the one method at the path, or the
    function of each method at the path followed by its kebab-cased
    name. *)
Definition endpointOf (path : string) (m : methodInfo) (opts : list FuncOpt)
    : Function :=
  createTypedFunc path (mi_name m)
    (if NumIn (mi_method m) =? 2 then In_ (mi_method m) 1 else None)
    (if NumOut (mi_method m) =? 2 then Out (mi_method m) 0 else None)
    (NumIn (mi_method m) =? 1) (NumOut (mi_method m) =? 1) opts.

Definition endpointsStated (path : string) (methods : list methodInfo)
    (opts : list FuncOpt) : list Function :=
  match methods with
  | [] => []
  | [m] => [endpointOf path m opts]
  | _ =>
      map (fun m => endpointOf (path +:+ "/" +:+ ToKebab (mi_name m)) m opts)
        methods
  end.

End DiscoveryStatements.

(** ** Sample types and values of the package's tests *)

Definition t_string : GoType := TOther KString "" "string" "string".
Definition t_int : GoType := TOther KInt "" "int" "int".
Definition t_dup : GoType :=
  TStruct "github.com/pbedat/expose" "dup" "expose.dup"
    [mkField "Foo" false "" t_string].
Definition t_dedup1 : GoType :=
  TStruct "github.com/pbedat/expose" "dedup1" "expose.dedup1"
    [mkField "Dup1" false "" t_dup].

Definition fn_inc : Function :=
  FunctionDefinition
    (mkFunctionDefinition "inc" "/counter/inc" t_int t_int
       (mkFunctionSettings false)).
Definition fn_get : Function :=
  FunctionDefinition
    (mkFunctionDefinition "get" "/counter/get" Void t_int
       (mkFunctionSettings false)).

(** A generator for the examples: it knows no structure and passes one
    empty schema for the value through the customizer flow. *)
Definition flatGenerator {U : Type} (flow : @SchemaCustomizerFn U)
    (t : GoType) (w : @World U) : @World U * go (SchemaRef + error) :=
  match flow "" t "" (mkSchema ∅ [] [] [] None [] [] "" None None) w with
  | (w, Ret (schema, None)) => (w, Ret (inl (mkSchemaRef "" (Some schema))))
  | (w, Ret (_, Some err)) => (w, Ret (inr err))
  | (w, Panic msg) => (w, Panic msg)
  end.

(** [context.Context], [error], and [Implements] for them on the types
    of the examples. *)
Definition t_Context : GoType :=
  TOther KInterface "context" "Context" "context.Context".
Definition t_error : GoType := TOther KInterface "" "error" "error".

Definition implementsContext_sample (t : GoType) : bool :=
  GoType_eqb t t_Context.
Definition implementsError_sample (t : GoType) : bool :=
  GoType_eqb t t_error.

(** [Struct] as the package runs it, on the types of the examples. *)
Definition Struct_sample : string -> ReflectValue -> list FuncOpt ->
                           list Function :=
  Struct strcase_ToKebab implementsContext_sample implementsError_sample.

(** [func (h *T) Get(ctx context.Context) error] and
    [func (h *T) Do(ctx context.Context, a int, b int) error]. *)
Definition m_Get : Method :=
  mkMethod "Get" true (mkFuncType [t_Context] [t_error]).
Definition m_Do : Method :=
  mkMethod "Do" true (mkFuncType [t_Context; t_int; t_int] [t_error]).

(** The application of the package's example: [&Application{Commands:
    Commands{Inc: IncHandler{}}, Queries: Queries{Count:
    CountQueryHandler{}}}], whose handlers have one method [Handle] on
    the pointer receiver. *)
Definition v_Application : ReflectValue :=
  VPtr (Some (VStruct [] []
    [("Commands", true,
      VStruct [] []
        [("Inc", true,
          VStruct []
            [mkMethod "Handle" true (mkFuncType [t_Context; t_string] [t_error])]
            [])]);
     ("Queries", true,
      VStruct [] []
        [("Count", true,
          VStruct []
            [mkMethod "Handle" true (mkFuncType [t_Context] [t_int; t_error])]
            [])])])).

(** [&multimethod{}] of the package's test, with the methods [Count] and
    [Inc] on the pointer receiver and the unexported field [i]. *)
Definition v_multimethod : ReflectValue :=
  VPtr (Some (VStruct []
    [mkMethod "Count" true (mkFuncType [t_Context] [t_int; t_error]);
     mkMethod "Inc" true (mkFuncType [t_Context] [t_error])]
    [("i", false, VOther)])).

(** A pointer to a struct with the methods [Do] and [Get], and one to a
    struct with [Do] alone. *)
Definition v_Do_Get : ReflectValue := VPtr (Some (VStruct [] [m_Do; m_Get] [])).
Definition v_Do : ReflectValue := VPtr (Some (VStruct [] [m_Do] [])).

(** A pointer to [struct { URL H; Url H }], where [H] has the one method
    [Handle(ctx context.Context) error]. *)
Definition v_handler : ReflectValue :=
  VStruct [] [mkMethod "Handle" true (mkFuncType [t_Context] [t_error])] [].
Definition v_URL_Url : ReflectValue :=
  VPtr (Some (VStruct [] [] [("URL", true, v_handler); ("Url", true, v_handler)])).

(** The schemas that the generator makes for [dedup1] and [dedup2] of
    the package's test, with the stamp of [setID] on the nested [dup]. *)
Definition s_string : SchemaRef :=
  mkSchemaRef "" (Some (mkSchema ∅ [] [] [] None [] [] "string" None None)).
Definition s_dup : SchemaRef :=
  mkSchemaRef ""
    (Some (mkSchema {["$id" := ExtString "#github.com.pbedat.expose.dup"]}
             [] [] [] None [("Foo", s_string)] ["Foo"] "object" None None)).
Definition s_dedup1 : SchemaRef :=
  mkSchemaRef ""
    (Some (mkSchema ∅ [] [] [] None [("Dup1", s_dup)] ["Dup1"] "object" None None)).

(** The type [struct { M map[string]dup }] and the schema that the
    generator makes for it: the schema of [dup], with the stamp of
    [setID], is the schema of the additional properties of [M]. *)
Definition t_mapOfDup : GoType :=
  TStruct "github.com/pbedat/expose" "mapOfDup" "expose.mapOfDup"
    [mkField "M" false "" (TOther KMap "" "" "map[string]expose.dup")].
Definition s_mapOfDup : SchemaRef :=
  mkSchemaRef ""
    (Some (mkSchema ∅ [] [] [] None
             [("M",
               mkSchemaRef ""
                 (Some (mkSchema ∅ [] [] [] None [] [] "object"
                          (Some s_dup) None)))]
             ["M"] "object" None None)).

(** A mapper that maps no type and counts its calls, and the settings of
    the package's tests with it. *)
Definition countingMapper : @SchemaMapper nat :=
  fun _ w => ((w.1, (w.2 + 1)%nat), None).
Definition countingSettings : @reflectSettings nat :=
  mkReflectSettings (Some countingMapper) DefaultSchemaIdentifier false [].

(** The schema of the walker's test, and its visitors: one that notes
    the [$id] of each node, one that fails on a given [$id], and one
    that replaces the node of a given [$id] by a reference. *)
Definition s_leaf (id : string) : SchemaRef :=
  mkSchemaRef ""
    (Some (mkSchema {["$id" := ExtString id]} [] [] [] None [] [] "" None None)).

Definition s_test : SchemaRef :=
  mkSchemaRef ""
    (Some (mkSchema {["$id" := ExtString "root"]}
             [s_leaf "allOf1";
              mkSchemaRef ""
                (Some (mkSchema {["$id" := ExtString "allOfNested"]}
                         [] [s_leaf "anyOf1"] [] None [] [] "" None None))]
             []
             [s_leaf "oneOf1"; s_leaf "oneOf2"]
             None
             [("prop1",
               mkSchemaRef ""
                 (Some (mkSchema {["$id" := ExtString "prop1"]} [] [] []
                          (Some (s_leaf "item1")) [] [] "array" None None)));
              ("prop2",
               mkSchemaRef ""
                 (Some (mkSchema {["$id" := ExtString "prop2"]} [] [] [] None
                          [("prop3", s_leaf "nestedProp")] [] "" None None)))]
             [] "" None None)).

Definition idOf (ref : SchemaRef) : string :=
  match Value ref with
  | Some s =>
      match Extensions s !! "$id" with
      | Some (ExtString id) => id
      | _ => ""
      end
  | None => ""
  end.

Definition noteIds : visitorFn (list string) :=
  fun ref actual => (actual ++ [idOf ref], Ret (None, None)).

Definition failOn (failId : string) : visitorFn (list string) :=
  fun ref actual =>
    (actual ++ [idOf ref],
     if String.eqb (idOf ref) failId
     then Ret (None, Some (ErrNew "test"))
     else Ret (None, None)).

Definition replaceOn (id : string) : visitorFn unit :=
  fun ref st =>
    (st,
     if String.eqb (idOf ref) id
     then Ret (Some (NewSchemaRef ("#/components/schemas/" +:+ id) None), None)
     else Ret (None, None)).

(** A generator for the examples that follows the structure of the
    type: a pointer is its element, a slice an array of its element, a
    struct an object with one property for each field, and the
    customizer flow runs on each type once its schema is made. *)
Definition customized {U : Type} (flow : @SchemaCustomizerFn U)
    (name : string) (t : GoType) (tag : string) (schema : Schema)
    (w : @World U) : @World U * go (SchemaRef + error) :=
  match flow name t tag schema w with
  | (w, Ret (schema, None)) => (w, Ret (inl (mkSchemaRef "" (Some schema))))
  | (w, Ret (_, Some err)) => (w, Ret (inr err))
  | (w, Panic msg) => (w, Panic msg)
  end.

Fixpoint generateSchemaRef {U : Type} (flow : @SchemaCustomizerFn U)
    (name : string) (t : GoType) (tag : string) (w : @World U)
    {struct t} : @World U * go (SchemaRef + error) :=
  match t with
  | TPointer e => generateSchemaRef flow name e tag w
  | TSlice e =>
      match generateSchemaRef flow name e tag w with
      | (w, Ret (inl items)) =>
          customized flow name t tag
            (mkSchema ∅ [] [] [] (Some items) [] [] "array" None None) w
      | failed => failed
      end
  | TStruct _ _ _ fields =>
      let '(w, props) :=
        (fix properties (fs : list StructField) (w : @World U)
           : @World U * go (list (string * SchemaRef) + error) :=
           match fs with
           | [] => (w, Ret (inl []))
           | mkField fname _ ftag ftype :: rest =>
               match generateSchemaRef flow fname ftype ftag w with
               | (w, Ret (inl p)) =>
                   match properties rest w with
                   | (w, Ret (inl ps)) => (w, Ret (inl ((fname, p) :: ps)))
                   | failed => failed
                   end
               | (w, Ret (inr err)) => (w, Ret (inr err))
               | (w, Panic msg) => (w, Panic msg)
               end
           end) fields w in
      match props with
      | Ret (inl props) =>
          customized flow name t tag
            (mkSchema ∅ [] [] [] None props [] "object" None None) w
      | Ret (inr err) => (w, Ret (inr err))
      | Panic msg => (w, Panic msg)
      end
  | TOther _ _ n _ =>
      customized flow name t tag (mkSchema ∅ [] [] [] None [] [] n None None) w
  end.

Definition structuralGenerator {U : Type} (flow : @SchemaCustomizerFn U)
    (t : GoType) (w : @World U) : @World U * go (SchemaRef + error) :=
  generateSchemaRef flow "" t "" w.

Definition t_dedup2 : GoType :=
  TStruct "github.com/pbedat/expose" "dedup2" "expose.dedup2"
    [mkField "Dup2" false "" t_dup].

(** A mapper that maps [dup] to a string schema, a customizer that
    stops the flow on [dup], and a provider that fails. *)
Definition dupMapper : @SchemaMapper nat :=
  fun t w =>
    if GoType_eqb t t_dup
    then (w, Some (mkSchema ∅ [] [] [] None [] [] "string" None None))
    else (w, None).
Definition dupSettings : @reflectSettings nat :=
  mkReflectSettings (Some dupMapper) DefaultSchemaIdentifier false [].

Definition stopOnDup : @SchemaCustomizer nat :=
  fun name t tag schema w =>
    (w, Ret (schema, GoType_eqb t t_dup, None)).

Definition failingProvider
    : GoType ->
      option (@World nat -> @World nat * (option SchemaRef * option error)) :=
  fun t =>
    if GoType_eqb t t_dup
    then Some (fun w => (w, (None, Some (ErrNew "no schema"))))
    else None.

(** * Properties *)

Example DefaultSchemaIdentifier_list :
  DefaultSchemaIdentifier (TSlice t_string) = "stringList".
Proof. reflexivity. Qed.

Example DefaultSchemaIdentifier_dup :
  DefaultSchemaIdentifier (TPointer t_dup) = "github.com.pbedat.expose.dup".
Proof. reflexivity. Qed.

Example ShortSchemaIdentifier_dedup1 :
  ShortSchemaIdentifier t_dedup1 = "expose.dedup1".
Proof. reflexivity. Qed.

Example getRequiredProps_with_tags :
  getRequiredProps
    (TStruct "" "" "struct {...}"
       [mkField "Foo" false "foo" t_string;
        mkField "Bar" false "bar,omitempty" t_string]) = ["foo"].
Proof. reflexivity. Qed.

Example getRequiredProps_embedded :
  getRequiredProps
    (TStruct "" "" "struct {...}"
       [mkField "Foo" false "" t_string;
        mkField "bar" true ""
          (TStruct "github.com/pbedat/expose" "bar" "expose.bar"
             [mkField "Bar" false "bar" t_string;
              mkField "Nope1" false "nope1,omitempty" t_string]);
        mkField "baz" true ""
          (TPointer
             (TStruct "github.com/pbedat/expose" "baz" "expose.baz"
                [mkField "Baz" false "baz" t_string;
                 mkField "Nope2" false "nope2,omitempty" t_string]))])
  = ["Foo"; "bar"; "baz"].
Proof. reflexivity. Qed.

Example getRequiredProps_ignored :
  getRequiredProps
    (TStruct "" "" "struct {...}"
       [mkField "Foo" false "-" t_string; mkField "Bar" false "" t_string])
  = ["Bar"].
Proof. reflexivity. Qed.

Example getRequiredProps_unnamed_omitempty :
  getRequiredProps
    (TStruct "" "" "struct {...}"
       [mkField "Foo" false ",omitempty" t_string;
        mkField "Bar" false "" t_string])
  = ["Bar"].
Proof. reflexivity. Qed.

Example ToKebab_samples :
  map strcase_ToKebab ["Commands"; "Inc"; "Count"; "JSONData"; "userID"]
  = ["commands"; "inc"; "count"; "json-data"; "user-id"].
Proof. reflexivity. Qed.

Example Module_counter_inc :
  go_bind (Func t_int t_int "/counter/inc" []) Module = Ret "counter".
Proof. reflexivity. Qed.

Example Module_foo_bar_baz :
  go_bind (Func t_int t_int "/foo/bar/baz" [])
    (fun f => go_bind (Module f) (fun m => Ret (m +:+ "#" +:+ Name f)))
  = Ret "foo.bar#baz".
Proof. reflexivity. Qed.

(** ** Induction on type descriptors *)

Lemma GoType_nested_ind (P : GoType -> Prop) :
  (forall e, P e -> P (TPointer e)) ->
  (forall e, P e -> P (TSlice e)) ->
  (forall p n s fs, Forall (fun f => P (Type_of f)) fs -> P (TStruct p n s fs)) ->
  (forall k p n s, P (TOther k p n s)) ->
  forall t, P t.
Proof.
  intros Hptr Hslice Hstruct Hother.
  fix IH 1. intros [e|e|p n s fs|k p n s].
  - apply Hptr, IH.
  - apply Hslice, IH.
  - apply Hstruct. induction fs as [|[fn fa ft fty] fs IHfs].
    + constructor.
    + constructor; [exact (IH fty) | exact IHfs].
  - apply Hother.
Qed.

(** ** Identifier naming *)

(** C6. Both naming strategies are functions of the type alone (equal
    types get equal identifiers), give a pointer type the identifier of
    its element, and give a slice type the identifier of its element
    followed by [List]. *)
Theorem schema_identifier_naming :
  forall namer : SchemaIdentifier,
    namer = DefaultSchemaIdentifier \/ namer = ShortSchemaIdentifier ->
    (forall t t' : GoType, t = t' -> namer t = namer t')
    /\ (forall t : GoType, namer (TPointer t) = namer t)
    /\ (forall t : GoType, namer (TSlice t) = namer t +:+ "List").
Proof.
  intros namer [-> | ->]; repeat split; intros; subst; reflexivity.
Qed.

Lemma schema_identifier_naming_witness :
  DefaultSchemaIdentifier (TPointer (TSlice (TPointer t_dup)))
  = "github.com.pbedat.expose.dupList".
Proof.
  destruct (schema_identifier_naming DefaultSchemaIdentifier (or_introl eq_refl))
    as (_ & Hptr & Hslice).
  rewrite Hptr, Hslice, Hptr. reflexivity.
Defined.

(** ** Required-field analysis *)

Lemma Split_Cut (s : string) (sep : ascii) :
  strings.Split s sep
  = match strings.Cut s sep with
    | (before, after, found) =>
        before :: (if found then strings.Split after sep else [])
    end.
Proof.
  induction s as [|c s IH]; simpl; [reflexivity|].
  destruct (Ascii.eqb c sep); [reflexivity|].
  rewrite IH. destruct (strings.Cut s sep) as [[before after] found].
  reflexivity.
Qed.

Lemma Cut_not_found (s : string) (sep : ascii) :
  (strings.Cut s sep).2 = false -> (strings.Cut s sep).1.2 = "".
Proof.
  induction s as [|c s IH]; simpl; [reflexivity|].
  destruct (Ascii.eqb c sep); [discriminate|].
  destruct (strings.Cut s sep) as [[b a] f]. exact IH.
Qed.

(** When [omitempty] is the one option of the tags that carry it,
    testing the text after the first comma against [omitempty] is
    testing whether the flag is among the options. *)
Lemma omitempty_alone (tag : string) :
  omitEmptyAlone tag = true ->
  String.eqb (strings.Cut tag ",").1.2 "omitempty" = carriesOmitEmpty tag.
Proof.
  unfold omitEmptyAlone, carriesOmitEmpty, tagOptions.
  rewrite Split_Cut. pose proof (Cut_not_found tag ",") as Hnf.
  destruct (strings.Cut tag ",") as [[alias option] found]. simpl in *.
  destruct (String.eqb option "omitempty") eqn:E.
  - intros _. apply String.eqb_eq in E. subst option.
    destruct found; [reflexivity|]. now specialize (Hnf eq_refl).
  - rewrite orb_false_r. now intros ->%negb_true_iff.
Qed.

Lemma Cut_whole (s : string) (sep : ascii) :
  (strings.Cut s sep).2 = false -> (strings.Cut s sep).1.1 = s.
Proof.
  induction s as [|c s IH]; simpl; [reflexivity|].
  destruct (Ascii.eqb c sep); [discriminate|].
  destruct (strings.Cut s sep) as [[b a] f]. simpl in *.
  intros Hf. now rewrite IH.
Qed.

(** The loop appends, field by field, what the statement lists. *)
Lemma requiredOfFields_flat_map (required spec : GoType -> list string)
    (scope : GoType -> bool) (fs : list StructField) :
  Forall (fun f => scope (Type_of f) = true ->
                   required (Type_of f) = spec (Type_of f)) fs ->
  forallb (fun f => if Anonymous f then scope (Type_of f)
                    else fieldInScope f) fs = true ->
  forall props,
    requiredOfFields required fs props
    = (props
       ++ flat_map (fun f => if Anonymous f then spec (Type_of f)
                             else requiredName f) fs)%list.
Proof.
  induction 1 as [|[fname anon tag ty] fs Hf _ IH]; intros Hopts props.
  - simpl. now rewrite app_nil_r.
  - simpl in Hopts. apply andb_true_iff in Hopts as [Hopt Hrest].
    specialize (IH Hrest). simpl in Hf.
    cbn [requiredOfFields flat_map Anonymous Type_of].
    destruct anon.
    + rewrite IH, Hf by assumption. now rewrite app_assoc.
    + unfold fieldInScope in Hopt. cbn [JsonTag Name_of] in Hopt.
      apply andb_true_iff in Hopt as [Hopt Hdash].
      apply negb_true_iff in Hdash.
      unfold requiredName. cbn [JsonTag Name_of].
      destruct (String.eqb tag "") eqn:Etag.
      { rewrite IH. now rewrite <- app_assoc. }
      rewrite <- (omitempty_alone tag Hopt). unfold tagName.
      pose proof (Cut_whole tag ",") as Hwhole.
      destruct (strings.Cut tag ",") as [[alias option] found]. simpl in *.
      destruct (String.eqb option "omitempty").
      { rewrite IH. reflexivity. }
      assert (Hname : (if found then alias else tag) = alias).
      { destruct found; [reflexivity|]. now rewrite Hwhole. }
      rewrite Hname.
      destruct (String.eqb alias "") eqn:Ealias.
      * destruct (String.eqb alias "-") eqn:Edash.
        { apply String.eqb_eq in Ealias, Edash. congruence. }
        rewrite Hdash, IH. now rewrite <- app_assoc.
      * destruct (String.eqb alias "-"); rewrite IH;
          [reflexivity | now rewrite <- app_assoc].
Qed.

(** C5, as stated, fails on a pointer type: it is not a struct type,
    and its required names are those of the struct it points to. *)
Lemma required_of_pointer_not_empty :
  kind (TPointer t_dup) <> KStruct
  /\ getRequiredProps (TPointer t_dup) = ["Foo"]
  /\ Required_stated (TPointer t_dup) = []
  /\ getRequiredProps (TPointer t_dup) <> Required_stated (TPointer t_dup).
Proof. repeat split; discriminate. Qed.

(** C5, amended.  With pointers looked through, the required names are
    those the statement lists: the declared name of a field without a
    json tag, the annotation name of a renamed field, nothing for a
    field flagged [omitempty] or renamed to [-], the names of the
    embedded fields' types in place, and nothing for a type that is
    neither a struct nor a pointer. *)
Theorem getRequiredProps_spec (t : GoType) :
  fieldsInScope t = true ->
  getRequiredProps t = Required_through_pointers t
  /\ (match kind t with KStruct | KPointer => True | _ => getRequiredProps t = [] end).
Proof.
  intros Hscope. split; [|destruct t; simpl; auto].
  revert Hscope. induction t as [e IH|e _|p n s fs IH|k p n s]
    using GoType_nested_ind; simpl; intros Hscope; auto.
  rewrite (requiredOfFields_flat_map _ Required_through_pointers fieldsInScope);
    auto.
Qed.

Lemma getRequiredProps_spec_witness :
  getRequiredProps
    (TStruct "" "" "struct {...}"
       [mkField "Foo" false "foo" t_string;
        mkField "Bar" false "bar,omitempty" t_string;
        mkField "Hidden" false "-" t_string;
        mkField "dup" true "" (TPointer t_dup)])
  = ["foo"; "Foo"].
Proof.
  exact (proj1 (getRequiredProps_spec
                  (TStruct "" "" "struct {...}"
                     [mkField "Foo" false "foo" t_string;
                      mkField "Bar" false "bar,omitempty" t_string;
                      mkField "Hidden" false "-" t_string;
                      mkField "dup" true "" (TPointer t_dup)])
                  eq_refl)).
Defined.

(** A tag with several options, [omitempty] among them: the field is
    kept, although it carries the flag. *)
Example getRequiredProps_several_options :
  getRequiredProps
    (TStruct "" "" "struct {...}"
       [mkField "ID" false "id,omitempty,string" t_int]) = ["id"]
  /\ carriesOmitEmpty "id,omitempty,string" = true.
Proof. split; reflexivity. Qed.

(** ** Strings *)

Lemma LastIndex_absent (s : string) (sep : ascii) :
  strings.ContainsByte s sep = false -> strings.LastIndex s sep = -1.
Proof.
  induction s as [|c s IH]; simpl; [reflexivity|].
  intros [Hc Hs]%orb_false_iff. rewrite (IH Hs), Hc. reflexivity.
Qed.

Lemma LastIndex_range (s : string) (sep : ascii) :
  -1 <= strings.LastIndex s sep < Z.of_nat (String.length s).
Proof.
  induction s as [|c s IH]; simpl String.length; simpl strings.LastIndex;
    [lia|].
  destruct (0 <=? strings.LastIndex s sep) eqn:E.
  - apply Z.leb_le in E. lia.
  - destruct (Ascii.eqb c sep); lia.
Qed.

Lemma LastIndex_present (s : string) (sep : ascii) :
  strings.ContainsByte s sep = true -> 0 <= strings.LastIndex s sep.
Proof.
  induction s as [|c s IH]; simpl; [discriminate|].
  destruct (0 <=? strings.LastIndex s sep) eqn:E.
  - apply Z.leb_le in E. lia.
  - apply Z.leb_gt in E. destruct (Ascii.eqb c sep); simpl; [lia|].
    intros Hs. specialize (IH Hs). lia.
Qed.

Lemma LastIndex_last (pre last : string) (sep : ascii) :
  strings.ContainsByte last sep = false ->
  strings.LastIndex (pre +:+ String sep last) sep
  = Z.of_nat (String.length pre).
Proof.
  intros Hlast. induction pre as [|c pre IH].
  - simpl. rewrite (LastIndex_absent _ _ Hlast), Ascii.eqb_refl. reflexivity.
  - simpl String.append. simpl strings.LastIndex. rewrite IH.
    replace (0 <=? Z.of_nat (String.length pre)) with true
      by (symmetry; apply Z.leb_le; lia).
    simpl String.length. lia.
Qed.

Lemma substring_prefix (a b : string) :
  String.substring 0 (String.length a) (a +:+ b) = a.
Proof.
  induction a as [|c a IH]; simpl.
  - destruct b; reflexivity.
  - now rewrite IH.
Qed.

Lemma substring_whole (s : string) :
  String.substring 0 (String.length s) s = s.
Proof. induction s as [|c s IH]; simpl; [reflexivity | now rewrite IH]. Qed.

Lemma substring_suffix (a b : string) :
  String.substring (String.length a) (String.length b) (a +:+ b) = b.
Proof.
  induction a as [|c a IH]; simpl; [apply substring_whole | exact IH].
Qed.

Lemma length_append (a b : string) :
  String.length (a +:+ b) = (String.length a + String.length b)%nat.
Proof. induction a as [|c a IH]; simpl; [reflexivity | now rewrite IH]. Qed.

Lemma slice_from_0 (s : string) : slice_from s 0 = Ret s.
Proof.
  unfold slice_from. simpl.
  replace (0 <=? Z.of_nat (String.length s)) with true
    by (symmetry; apply Z.leb_le; lia).
  simpl. rewrite Nat.sub_0_r, substring_whole. reflexivity.
Qed.

Lemma slice_to_prefix (a b : string) :
  slice_to (a +:+ b) (Z.of_nat (String.length a)) = Ret a.
Proof.
  unfold slice_to. rewrite length_append.
  replace (0 <=? Z.of_nat (String.length a)) with true
    by (symmetry; apply Z.leb_le; lia).
  replace (Z.of_nat (String.length a)
           <=? Z.of_nat (String.length a + String.length b)) with true
    by (symmetry; apply Z.leb_le; lia).
  simpl. rewrite Nat2Z.id, substring_prefix. reflexivity.
Qed.

Lemma slice_from_suffix (a b : string) :
  slice_from (a +:+ b) (Z.of_nat (String.length a)) = Ret b.
Proof.
  unfold slice_from. rewrite length_append.
  replace (0 <=? Z.of_nat (String.length a)) with true
    by (symmetry; apply Z.leb_le; lia).
  replace (Z.of_nat (String.length a)
           <=? Z.of_nat (String.length a + String.length b)) with true
    by (symmetry; apply Z.leb_le; lia).
  simpl. rewrite Nat2Z.id.
  replace (String.length a + String.length b - String.length a)%nat
    with (String.length b) by lia.
  rewrite substring_suffix. reflexivity.
Qed.

Lemma slice_to_negative (s : string) (i : Z) :
  i < 0 -> slice_to s i = Panic "slice bounds out of range".
Proof.
  intros Hi. unfold slice_to.
  replace (0 <=? i) with false by (symmetry; apply Z.leb_gt; lia).
  reflexivity.
Qed.

Lemma slice_to_defined (s : string) (i : Z) :
  0 <= i <= Z.of_nat (String.length s) -> exists p, slice_to s i = Ret p.
Proof.
  intros Hi. unfold slice_to.
  replace (0 <=? i) with true by (symmetry; apply Z.leb_le; lia).
  replace (i <=? Z.of_nat (String.length s)) with true
    by (symmetry; apply Z.leb_le; lia).
  simpl. eauto.
Qed.

Lemma slice_from_defined (s : string) (i : Z) :
  0 <= i <= Z.of_nat (String.length s) -> exists p, slice_from s i = Ret p.
Proof.
  intros Hi. unfold slice_from.
  replace (0 <=? i) with true by (symmetry; apply Z.leb_le; lia).
  replace (i <=? Z.of_nat (String.length s)) with true
    by (symmetry; apply Z.leb_le; lia).
  simpl. eauto.
Qed.

Lemma ReplaceAll_slashesToDots (s : string) :
  strings.ReplaceAll s "/" "." = slashesToDots s.
Proof.
  unfold slashesToDots. induction s as [|c s IH]; simpl; [reflexivity|].
  now rewrite IH.
Qed.

Lemma TrimPrefix_dot (s : string) :
  strings.TrimPrefix s "." = withoutLeadingDot s.
Proof.
  unfold strings.TrimPrefix, withoutLeadingDot.
  destruct s as [|c s]; simpl; [reflexivity|].
  destruct (Ascii.eqb "." c) eqn:E.
  - apply Ascii.eqb_eq in E. subst c. reflexivity.
  - destruct c as [[] [] [] [] [] [] [] []]; try reflexivity; discriminate.
Qed.

(** ** Exposed functions: names and modules *)

Lemma Module_of_path (f : Function) :
  Module f
  = go_bind (slice_to (Path f) (strings.LastIndex (Path f) "/"))
      (fun parent =>
         Ret (strings.TrimPrefix (strings.ReplaceAll parent "/" ".") ".")).
Proof. destruct f; reflexivity. Qed.

Lemma Module_parent (f : Function) (pre last : string) :
  Path f = pre +:+ String "/" last ->
  strings.ContainsByte last "/" = false ->
  Module f = Ret (withoutLeadingDot (slashesToDots pre)).
Proof.
  intros Hpath Hlast. rewrite Module_of_path, Hpath.
  rewrite (LastIndex_last _ _ _ Hlast), slice_to_prefix. simpl.
  now rewrite ReplaceAll_slashesToDots, TrimPrefix_dot.
Qed.

Lemma Module_defined_iff (f : Function) :
  (exists m, Module f = Ret m) <-> strings.ContainsByte (Path f) "/" = true.
Proof.
  rewrite Module_of_path. split.
  - intros [m Hm]. destruct (strings.ContainsByte (Path f) "/") eqn:E;
      [reflexivity|].
    rewrite (LastIndex_absent _ _ E), slice_to_negative in Hm by lia.
    discriminate.
  - intros Hc. pose proof (LastIndex_present _ _ Hc).
    pose proof (LastIndex_range (Path f) "/").
    destruct (slice_to_defined (Path f) (strings.LastIndex (Path f) "/"))
      as [p Hp]; [lia|].
    rewrite Hp. simpl. eauto.
Qed.

Lemma Module_slash_free (f : Function) :
  strings.ContainsByte (Path f) "/" = false ->
  Module f = Panic "slice bounds out of range".
Proof.
  intros Hc. rewrite Module_of_path, (LastIndex_absent _ _ Hc).
  reflexivity.
Qed.

Lemma definition_of_mountpoint (TReq TRes : GoType) (mountpoint : string)
    (settings : functionSettings) :
  exists f,
    go_bind (slice_from mountpoint (strings.LastIndex mountpoint "/" + 1))
      (fun n =>
         Ret (FunctionDefinition
                (mkFunctionDefinition n mountpoint TReq TRes settings)))
    = Ret f
    /\ Path f = mountpoint
    /\ ((exists m, Module f = Ret m)
        <-> strings.ContainsByte mountpoint "/" = true)
    /\ (strings.ContainsByte mountpoint "/" = false ->
        Module f = Panic "slice bounds out of range" /\ Name f = mountpoint).
Proof.
  pose proof (LastIndex_range mountpoint "/") as Hr.
  destruct (slice_from_defined mountpoint (strings.LastIndex mountpoint "/" + 1))
    as [n Hn]; [lia|].
  set (f := FunctionDefinition
              (mkFunctionDefinition n mountpoint TReq TRes settings)).
  exists f. rewrite Hn. cbn [go_bind].
  split; [reflexivity|]. split; [reflexivity|].
  split; [exact (Module_defined_iff f)|].
  intros Hc. split; [exact (Module_slash_free f Hc)|].
  rewrite (LastIndex_absent _ _ Hc) in Hn. simpl in Hn.
  rewrite slice_from_0 in Hn. subst f. simpl. congruence.
Qed.

(** C10. [Func], [FuncVoid], [FuncNullary] and [FuncNullaryVoid] return
    a function for every mountpoint; its [Module] returns exactly when
    the mountpoint contains a [/]; for a mountpoint without one,
    [Module] panics on the slice bounds and [Name] is the whole
    mountpoint. *)
Theorem Func_any_mountpoint (TReq TRes : GoType) (mountpoint : string)
    (opts : list FuncOpt) :
  Forall
    (fun ctor : string -> list FuncOpt -> go Function =>
       exists f,
         ctor mountpoint opts = Ret f
         /\ Path f = mountpoint
         /\ ((exists m, Module f = Ret m)
             <-> strings.ContainsByte mountpoint "/" = true)
         /\ (strings.ContainsByte mountpoint "/" = false ->
             Module f = Panic "slice bounds out of range"
             /\ Name f = mountpoint))
    [Func TReq TRes; FuncVoid TReq; FuncNullary TRes; FuncNullaryVoid].
Proof.
  repeat constructor; apply definition_of_mountpoint.
Qed.

Lemma Func_any_mountpoint_witness :
  exists f,
    Func t_int t_int "counter" [] = Ret f
    /\ Module f = Panic "slice bounds out of range"
    /\ Name f = "counter".
Proof.
  pose proof (Func_any_mountpoint t_int t_int "counter" []) as H.
  apply Forall_cons in H as [(f & Hf & _ & _ & Hpanic) _].
  exists f. split; [exact Hf|]. apply Hpanic. reflexivity.
Defined.

Lemma split_at_last (s : string) (sep : ascii) :
  strings.ContainsByte s sep = true ->
  exists pre last,
    s = pre +:+ String sep last /\ strings.ContainsByte last sep = false.
Proof.
  induction s as [|c s IH]; simpl; [discriminate|].
  destruct (strings.ContainsByte s sep) eqn:Hs.
  - intros _. destruct (IH eq_refl) as (pre & last & -> & Hlast).
    exists (String c pre), last. split; [reflexivity | exact Hlast].
  - rewrite orb_false_r. intros ->%Ascii.eqb_eq.
    exists "", s. split; [reflexivity | exact Hs].
Qed.

(** ** The document assembler *)

Section Assembler.

Context {U : Type}.
Variable NewSchemaRefForValue :
  @SchemaCustomizerFn U -> GoType -> @World U ->
  @World U * go (SchemaRef + error).
Variable JSONSchema :
  GoType -> option (@World U -> @World U * (option SchemaRef * option error)).

Lemma reflectOperation_adds settings fn paths w w' paths' :
  reflectOperation NewSchemaRefForValue JSONSchema settings fn paths w
  = (w', Ret (inl paths')) ->
  exists op, namedAfter fn op /\ paths' = AddOperation paths (Path fn) op.
Proof.
  unfold reflectOperation. destruct (Module fn) as [m|msg] eqn:Hm;
    [|discriminate].
  destruct (negb (GoType_eqb (Req fn) Void)).
  - destruct (reflectSchema _ _ (Req fn) w settings) as [w1 [[r|e]|msg]];
      try discriminate.
    destruct (reflectSchema _ _ (Res fn) w1 settings) as [w2 [[r2|e]|msg]];
      try discriminate.
    intros [= <- <-]. eexists. split; [|reflexivity].
    exists m. auto.
  - destruct (reflectSchema _ _ (Res fn) w settings) as [w2 [[r2|e]|msg]];
      try discriminate.
    intros [= <- <-]. eexists. split; [|reflexivity].
    exists m. auto.
Qed.

(** After the loop, a path either is none of the functions' and keeps
    its item, or holds the operation of the last function at it. *)
Lemma reflectOperations_paths settings fns : forall paths w w' paths',
  reflectOperations NewSchemaRefForValue JSONSchema settings fns paths w
  = (w', Ret (inl paths')) ->
  forall p,
    ((p ∉ map Path fns) /\ paths' !! p = paths !! p)
    \/ (exists before fn after item op,
          fns = (before ++ fn :: after)%list /\ Path fn = p
          /\ (p ∉ map Path after)
          /\ paths' !! p = Some item /\ Post item = Some op
          /\ namedAfter fn op).
Proof.
  induction fns as [|fn fns IH]; intros paths w w' paths' Hrun p.
  - simpl in Hrun. injection Hrun as <- <-. left. split; [|reflexivity].
    apply not_elem_of_nil.
  - simpl in Hrun.
    destruct (reflectOperation _ _ settings fn paths w) as [w1 [[paths1|e]|msg]]
      eqn:Hstep; try discriminate.
    destruct (reflectOperation_adds _ _ _ _ _ _ Hstep) as (op & Hop & ->).
    destruct (IH _ _ _ _ Hrun p) as [[Hnot Hkeep] | Hlater].
    + destruct (decide (Path fn = p)) as [Heq | Hne].
      * right. exists [], fn, fns. do 2 eexists.
        split; [reflexivity|]. split; [exact Heq|]. split; [exact Hnot|].
        split; [|split; [|exact Hop]].
        -- rewrite Hkeep. unfold AddOperation. rewrite Heq.
           apply lookup_insert_eq.
        -- reflexivity.
      * left. split.
        -- simpl. rewrite not_elem_of_cons. auto.
        -- rewrite Hkeep. unfold AddOperation.
           now rewrite lookup_insert_ne.
    + right. destruct Hlater as (before & fn' & after & item & op' & -> & H).
      exists (fn :: before), fn', after, item, op'. split; [reflexivity|].
      exact H.
Qed.

End Assembler.

(** C8. [Module] of a function whose path has a [/] is the path up to
    its last [/], with every [/] replaced by [.] and one leading [.]
    removed; in the document that [ReflectSpec] returns, the operation
    at the path of each function has the id [Module() + "#" + Name()] and
    the single tag [Module()] of the function registered last at that
    path. *)
Theorem operation_naming {U : Type}
    (NewSchemaRefForValue :
       @SchemaCustomizerFn U -> GoType -> @World U ->
       @World U * go (SchemaRef + error))
    (JSONSchema :
       GoType ->
       option (@World U -> @World U * (option SchemaRef * option error)))
    (root : T) (fns : list Function) (opts : list (option reflectSpecOpt))
    (u u' : U) (doc : T) :
  ReflectSpec NewSchemaRefForValue JSONSchema root fns opts u
  = (u', Ret (inl doc)) ->
  forall fn, fn ∈ fns ->
    exists pre last module,
      Path fn = pre +:+ String "/" last
      /\ strings.ContainsByte last "/" = false
      /\ module = withoutLeadingDot (slashesToDots pre)
      /\ Module fn = Ret module
      /\ exists before fn' after item op,
           fns = (before ++ fn' :: after)%list
           /\ Path fn' = Path fn
           /\ (Path fn ∉ map Path after)
           /\ Paths doc !! Path fn = Some item
           /\ Post item = Some op
           /\ OperationID op = module +:+ "#" +:+ Name fn'
           /\ Tags op = [module].
Proof.
  unfold ReflectSpec. intros Hrun fn Hin.
  match type of Hrun with
  | context [reflectOperations _ _ ?s _ _ ?w] =>
      destruct (reflectOperations NewSchemaRefForValue JSONSchema s fns
                  (Paths root) w) as [[c u1] [[paths|e]|msg]] eqn:Hops
  end; try discriminate.
  injection Hrun as <- <-. simpl.
  destruct (reflectOperations_paths _ _ _ _ _ _ _ _ Hops (Path fn))
    as [[Hnot _] | (before & fn' & after & item & op & Hfns & Hpath & Hafter
                    & Hitem & Hpost & m & Hm & Hid & Htags)].
  { exfalso. apply Hnot. apply list_elem_of_fmap. eauto. }
  assert (Hslash : strings.ContainsByte (Path fn) "/" = true).
  { rewrite <- Hpath. apply Module_defined_iff. eauto. }
  destruct (split_at_last _ _ Hslash) as (pre & last & Hsplit & Hlast).
  assert (Hmod : forall g, Path g = Path fn ->
                           Module g = Ret (withoutLeadingDot (slashesToDots pre))).
  { intros g Hg. apply (Module_parent g pre last); congruence. }
  exists pre, last, (withoutLeadingDot (slashesToDots pre)).
  repeat (split; [solve [auto]|]).
  exists before, fn', after, item, op.
  rewrite (Hmod fn' Hpath) in Hm. injection Hm as <-.
  repeat (split; [solve [auto]|]). exact Htags.
Qed.

Lemma operation_naming_witness :
  exists u' doc item op,
    ReflectSpec flatGenerator (fun _ => None) (mkT "" None ∅)
      [fn_inc; fn_get] [] tt = (u', Ret (inl doc))
    /\ Paths doc !! "/counter/inc" = Some item
    /\ Post item = Some op
    /\ OperationID op = "counter#inc"
    /\ Tags op = ["counter"].
Proof.
  destruct (ReflectSpec flatGenerator (fun _ => None) (mkT "" None ∅)
              [fn_inc; fn_get] [] tt) as [u' [[doc|e]|msg]] eqn:Hrun;
    [|vm_compute in Hrun; discriminate..].
  destruct (operation_naming _ _ _ _ _ _ _ _ Hrun fn_inc)
    as (pre & last & module & Hpath & Hlast & Hmodule & Hm & before & fn'
        & after & item & op & Hfns & Hsame & Hafter & Hitem & Hpost & Hid
        & Htags).
  { apply list_elem_of_here. }
  assert (Hmod : module = "counter").
  { vm_compute in Hm. congruence. }
  assert (Hfn' : fn' = fn_inc).
  { destruct before as [|b [|b' [|b'' before]]]; simpl in Hfns;
      inversion Hfns; subst; try reflexivity; discriminate. }
  subst module fn'. rewrite Hmod in Hid, Htags.
  exists u', doc, item, op. repeat split; assumption.
Defined.

(** ** Endpoint discovery *)

Example Struct_Application :
  map Path (Struct_sample "/app" v_Application [])
  = ["/app/commands/inc"; "/app/queries/count"].
Proof. reflexivity. Qed.

Example Struct_multimethod :
  map Path (Struct_sample "/app" v_multimethod [])
  = ["/app/count"; "/app/inc"].
Proof. reflexivity. Qed.

Lemma ReflectValue_nested_ind (P : ReflectValue -> Prop) :
  P (VPtr None) ->
  (forall e, P e -> P (VPtr (Some e))) ->
  P (VInterface None) ->
  (forall e, P e -> P (VInterface (Some e))) ->
  (forall ms pms fields,
      Forall (fun f => P f.2) fields -> P (VStruct ms pms fields)) ->
  P VOther ->
  forall v, P v.
Proof.
  intros HpN HpS HiN HiS Hs Ho.
  fix IH 1. intros [[e|]|[e|]|ms pms fields|].
  - apply HpS, IH.
  - exact HpN.
  - apply HiS, IH.
  - exact HiN.
  - apply Hs. induction fields as [|[[n x] fv] fields IHf].
    + constructor.
    + constructor; [exact (IH fv) | exact IHf].
  - exact Ho.
Qed.

Section DiscoveryProperties.

Variable ToKebab : string -> string.
Variable implementsContext : GoType -> bool.
Variable implementsError : GoType -> bool.

Local Abbreviation exposable :=
  (isExposableMethod implementsContext implementsError).
Local Abbreviation create :=
  (createFunction implementsContext implementsError).
Local Abbreviation exposables :=
  (getExposableMethods implementsContext implementsError).
Local Abbreviation register :=
  (registerMethods ToKebab implementsContext implementsError).
Local Abbreviation traverse :=
  (traverseStruct ToKebab implementsContext implementsError).
Local Abbreviation shapes := (fourShapes implementsContext implementsError).

(** Decide the integer comparisons of the goal. *)
Ltac zcompare :=
  repeat match goal with
    | |- context [?a >? ?b] => rewrite (Z.gtb_ltb a b)
    | |- context [?a <? ?b] =>
        destruct (Z.ltb_spec a b); try lia; cbn [orb andb negb]
    | |- context [?a <=? ?b] =>
        destruct (Z.leb_spec a b); try lia; cbn [orb andb negb]
    | |- context [?a =? ?b] =>
        destruct (Z.eqb_spec a b); try lia; cbn [orb andb negb]
    end.

(** What [isExposableMethod] accepts: a context first, any number of
    further parameters, and one or two results, the last an error. *)
Lemma isExposableMethod_spec mt :
  exposable mt
  = match ins mt, outs mt with
    | c :: _, [e] | c :: _, [_; e] => implementsContext c && implementsError e
    | _, _ => false
    end.
Proof.
  destruct mt as [i o]. unfold isExposableMethod, NumIn, NumOut, In_, Out.
  cbn [ins outs].
  destruct i as [|c i], o as [|a [|b [|y o]]]; cbn [length]; zcompare;
    try reflexivity.
  - change (Z.to_nat 0) with 0%nat. cbn.
    destruct (implementsContext c), (implementsError a); reflexivity.
  - change (Z.to_nat 0) with 0%nat.
    change (Z.to_nat (Z.of_nat 2 - 1)) with 1%nat. cbn.
    destruct (implementsContext c), (implementsError b); reflexivity.
Qed.

(** The four shapes are the accepted methods with at most two
    parameters. *)
Lemma fourShapes_exposable mt :
  shapes mt = exposable mt && (NumIn mt <=? 2).
Proof.
  rewrite isExposableMethod_spec. destruct mt as [i o].
  unfold fourShapes, NumIn. cbn [ins outs].
  destruct i as [|c [|r [|x i]]], o as [|a [|b [|y o]]]; cbn [length];
    try reflexivity; rewrite ?andb_true_r, ?andb_false_r; try reflexivity.
  all: zcompare; now rewrite andb_false_r.
Qed.

(** On an accepted method, [createFunction] makes a function exactly
    when the method has at most two parameters. *)
Lemma createFunction_exposable path name mt opts :
  exposable mt = true ->
  create path name mt opts
  = if NumIn mt <=? 2
    then Some (createTypedFunc path name
                 (if (NumIn mt =? 2) then In_ mt 1 else None)
                 (if (NumOut mt =? 2) then Out mt 0 else None)
                 (NumIn mt =? 1) (NumOut mt =? 1) opts)
    else None.
Proof.
  rewrite isExposableMethod_spec. destruct mt as [i o].
  unfold createFunction, NumIn, NumOut, In_, Out. cbn [ins outs].
  destruct i as [|c [|r [|x i]]], o as [|a [|b [|y o]]]; try discriminate;
    cbn [length]; intros [Hc He]%andb_true_iff.
  all: zcompare.
  all: try change (Z.to_nat 0) with 0%nat.
  all: try change (Z.to_nat 1) with 1%nat.
  all: try change (Z.to_nat (Z.of_nat 2 - 1)) with 1%nat.
  all: cbn; rewrite ?Hc, ?He; try reflexivity.
Qed.

Lemma createFunction_path path name mt opts f :
  create path name mt opts = Some f -> Path f = path /\ Name f = name.
Proof.
  unfold createFunction, createTypedFunc.
  repeat match goal with
    | |- context [if ?c then _ else _] => destruct c
    end; intros [= <-]; auto.
Qed.

Lemma registerMethods_fold_app (step : methodInfo -> option Function)
    (ms : list methodInfo) : forall fns,
  fold_left
    (fun functions m =>
       match step m with
       | Some fn => (functions ++ [fn])%list
       | None => functions
       end) ms fns
  = (fns ++ flat_map (fun m => option_list (step m)) ms)%list.
Proof.
  induction ms as [|m ms IH]; intros fns; simpl.
  - now rewrite app_nil_r.
  - rewrite IH. destruct (step m); simpl; [now rewrite <- app_assoc | reflexivity].
Qed.

(** What the registration step appends: for one method, its function at
    the path; for several, the function of each at the path followed by
    its kebab-cased name; [createFunction] permitting. *)
Lemma registerMethods_spec path ms fns opts :
  register path ms fns opts
  = (fns
     ++ match ms with
        | [] => []
        | [m] => option_list (create path (mi_name m) (mi_method m) opts)
        | _ =>
            flat_map
              (fun m =>
                 option_list
                   (create (path +:+ "/" +:+ ToKebab (mi_name m))
                      (mi_name m) (mi_method m) opts))
              ms
        end)%list.
Proof.
  unfold registerMethods. destruct ms as [|m [|m' ms]].
  - simpl. now rewrite app_nil_r.
  - simpl. destruct (create path (mi_name m) (mi_method m) opts); simpl;
      [reflexivity | now rewrite app_nil_r].
  - replace (Z.of_nat (length (m :: m' :: ms)) =? 1) with false
      by (symmetry; apply Z.eqb_neq; cbn [length]; lia).
    replace (Z.of_nat (length (m :: m' :: ms)) >? 1) with true
      by (symmetry; rewrite Z.gtb_ltb; apply Z.ltb_lt; cbn [length]; lia).
    apply (registerMethods_fold_app
             (fun m => create (path +:+ "/" +:+ ToKebab (mi_name m))
                         (mi_name m) (mi_method m) opts)).
Qed.

Local Abbreviation traverseOpts opts :=
  (fun path v canAddr functions => traverse path v canAddr functions opts).
Local Abbreviation node opts :=
  (traverseNode ToKebab implementsContext implementsError (traverseOpts opts)).
Local Abbreviation fieldsLoop opts :=
  (traverseFields ToKebab (traverseOpts opts)).

Lemma traverseStruct_unfold path v canAddr fns opts :
  traverse path v canAddr fns opts
  = match v with
    | VPtr None => fns
    | VPtr (Some e) => node opts path e true fns opts
    | _ => node opts path v canAddr fns opts
    end.
Proof. destruct v as [[e|]|[e|]|ms pms fields|]; reflexivity. Qed.

(** What the loop over the fields appends: the functions found below
    each exported field, in order. *)
Lemma traverseFields_spec opts path canAddr fields :
  Forall (fun f : string * bool * ReflectValue => forall p a fns,
            traverse p f.2 a fns opts = (fns ++ traverse p f.2 a [] opts)%list)
    fields ->
  forall fns,
    fieldsLoop opts path canAddr fields fns
    = (fns
       ++ flat_map
            (fun f : string * bool * ReflectValue =>
               if f.1.2
               then traverse (path +:+ "/" +:+ ToKebab f.1.1) f.2 canAddr [] opts
               else [])
            fields)%list.
Proof.
  induction 1 as [|[[n x] fv] fields Hf _ IH]; intros fns.
  - simpl. now rewrite app_nil_r.
  - cbn [traverseFields flat_map fst snd]. destruct x; cbn [negb].
    + rewrite IH. simpl in Hf. rewrite (Hf _ _ fns).
      now rewrite <- app_assoc.
    + rewrite IH. reflexivity.
Qed.

(** The traversal appends to the functions it is given. *)
Lemma traverseStruct_app opts v :
  (forall path a fns,
     traverse path v a fns opts = (fns ++ traverse path v a [] opts)%list)
  /\ (forall path a fns,
        node opts path v a fns opts = (fns ++ node opts path v a [] opts)%list).
Proof.
  induction v as [|e [_ IHn]| |e [IHt _]|ms pms fields IH|]
    using ReflectValue_nested_ind.
  - split; intros; simpl; now rewrite app_nil_r.
  - split; intros.
    + rewrite !(traverseStruct_unfold _ (VPtr (Some e))). apply IHn.
    + simpl. now rewrite app_nil_r.
  - split; intros; simpl; now rewrite app_nil_r.
  - assert (Hn : forall path a fns,
               node opts path (VInterface (Some e)) a fns opts
               = (fns ++ node opts path (VInterface (Some e)) a [] opts)%list)
      by (intros; apply IHt).
    split; [|exact Hn]. intros.
    rewrite !(traverseStruct_unfold _ (VInterface (Some e))). apply Hn.
  - assert (Hfields : Forall (fun f : string * bool * ReflectValue => forall p a fns,
               traverse p f.2 a fns opts
               = (fns ++ traverse p f.2 a [] opts)%list) fields).
    { eapply Forall_impl; [exact IH|]. intros f [Hf _]. exact Hf. }
    assert (Hn : forall path a fns,
               node opts path (VStruct ms pms fields) a fns opts
               = (fns ++ node opts path (VStruct ms pms fields) a [] opts)%list).
    { intros. unfold traverseNode.
      rewrite !(traverseFields_spec _ _ _ _ Hfields).
      rewrite (registerMethods_spec _ _ fns), (registerMethods_spec _ _ []).
      simpl. now rewrite <- !app_assoc. }
    split; [|exact Hn]. intros.
    rewrite !(traverseStruct_unfold _ (VStruct ms pms fields)). apply Hn.
  - split; intros; simpl; now rewrite app_nil_r.
Qed.

(** A struct node: the functions of its methods, then those found below
    its exported fields. *)
Lemma traverseNode_struct opts path ms pms fields canAddr :
  node opts path (VStruct ms pms fields) canAddr [] opts
  = (register path (exposables ms pms canAddr) [] opts
     ++ flat_map
          (fun f : string * bool * ReflectValue =>
             if f.1.2
             then traverse (path +:+ "/" +:+ ToKebab f.1.1) f.2 canAddr [] opts
             else [])
          fields)%list.
Proof.
  unfold traverseNode. apply traverseFields_spec.
  apply Forall_forall. intros f _. apply traverseStruct_app.
Qed.

End DiscoveryProperties.

(** ** Paths of the functions found *)

Lemma append_cons (x : ascii) (a b : string) :
  String x a +:+ b = String x (a +:+ b).
Proof. reflexivity. Qed.

Lemma append_assoc (a b c : string) : (a +:+ b) +:+ c = a +:+ (b +:+ c).
Proof.
  induction a as [|x a IH]; [reflexivity|].
  rewrite !append_cons. now rewrite IH.
Qed.

Lemma append_nil_r (a : string) : a +:+ "" = a.
Proof.
  induction a as [|x a IH]; [reflexivity|].
  rewrite append_cons. now rewrite IH.
Qed.

Lemma append_inv_head (a b c : string) : a +:+ b = a +:+ c -> b = c.
Proof.
  induction a as [|x a IH]; [auto|]. rewrite !append_cons.
  intros [= H]. auto.
Qed.

(** Two segments without [/], each followed by nothing or by a [/]: if
    the texts are equal, so are the segments. *)
Lemma segment_eq (a b s1 s2 : string) :
  strings.ContainsByte a "/" = false ->
  strings.ContainsByte b "/" = false ->
  (s1 = "" \/ exists r, s1 = String "/" r) ->
  (s2 = "" \/ exists r, s2 = String "/" r) ->
  a +:+ s1 = b +:+ s2 -> a = b.
Proof.
  revert b. induction a as [|x a IH]; intros [|y b] Ha Hb H1 H2;
    rewrite ?append_cons; change ("" +:+ s1) with s1;
    change ("" +:+ s2) with s2.
  - reflexivity.
  - intros ->. simpl in Hb. apply orb_false_iff in Hb as [Hy _].
    destruct H1 as [H1 | [r H1]]; [discriminate|].
    injection H1 as -> _. rewrite Ascii.eqb_refl in Hy. discriminate.
  - intros <-. simpl in Ha. apply orb_false_iff in Ha as [Hx _].
    destruct H2 as [H2 | [r H2]]; [discriminate|].
    injection H2 as -> _. rewrite Ascii.eqb_refl in Hx. discriminate.
  - intros [= <- H]. simpl in Ha, Hb.
    apply orb_false_iff in Ha as [_ Ha], Hb as [_ Hb].
    f_equal. eapply IH; eauto.
Qed.

Section DiscoveryPaths.

Variable ToKebab : string -> string.
Variable implementsContext : GoType -> bool.
Variable implementsError : GoType -> bool.
Variable opts : list FuncOpt.

Local Abbreviation create :=
  (createFunction implementsContext implementsError).
Local Abbreviation exposables :=
  (getExposableMethods implementsContext implementsError).
Local Abbreviation register :=
  (registerMethods ToKebab implementsContext implementsError).
Local Abbreviation traverse :=
  (traverseStruct ToKebab implementsContext implementsError).
Local Abbreviation node :=
  (traverseNode ToKebab implementsContext implementsError
     (fun path v canAddr functions => traverse path v canAddr functions opts)).
Local Abbreviation distinct :=
  (segmentsDistinct ToKebab implementsContext implementsError).
Local Abbreviation distinctAt :=
  (segmentsDistinctAt ToKebab implementsContext implementsError distinct).
Local Abbreviation below path p :=
  (exists suffix,
      p = path +:+ suffix /\ (suffix = "" \/ exists r, suffix = String "/" r)).
Local Abbreviation fieldFunctions path canAddr :=
  (fun f : string * bool * ReflectValue =>
     if f.1.2
     then traverse (path +:+ "/" +:+ ToKebab f.1.1) f.2 canAddr [] opts
     else []).

(** The paths of the functions registered at a node. *)
Lemma registerMethods_paths path ms p :
  p ∈ map Path (register path ms [] opts) ->
  (length ms = 1%nat /\ p = path)
  \/ ((1 < length ms)%nat
      /\ exists m, m ∈ ms /\ p = path +:+ String "/" (ToKebab (mi_name m))).
Proof.
  rewrite registerMethods_spec. simpl.
  intros (f & -> & Hf)%list_elem_of_fmap.
  destruct ms as [|m [|m' ms]].
  - inversion Hf.
  - left. split; [reflexivity|].
    destruct (create path (mi_name m) (mi_method m) opts) as [g|] eqn:E;
      simpl in Hf; [|inversion Hf].
    apply list_elem_of_singleton in Hf as ->.
    now apply createFunction_path in E.
  - right. split; [simpl; lia|].
    apply list_elem_of_In, in_flat_map in Hf as (m0 & Hm0 & Hf).
    exists m0. split; [now apply list_elem_of_In|].
    destruct (create _ (mi_name m0) (mi_method m0) opts) as [g|] eqn:E;
      simpl in Hf; [|contradiction].
    destruct Hf as [<-|[]]. now apply createFunction_path in E.
Qed.

Lemma registerMethods_NoDup path ms :
  ((1 < length ms)%nat -> NoDup (map (fun m => ToKebab (mi_name m)) ms)) ->
  NoDup (map Path (register path ms [] opts)).
Proof.
  rewrite registerMethods_spec. simpl. intros Hnd.
  destruct ms as [|m [|m' ms]].
  - constructor.
  - destruct (create path (mi_name m) (mi_method m) opts); simpl;
      [apply NoDup_singleton | constructor].
  - specialize (Hnd ltac:(simpl; lia)).
    revert Hnd. generalize (m :: m' :: ms). clear m m' ms.
    induction l as [|m ms IH]; simpl; [constructor|].
    intros [Hm Hms]%NoDup_cons.
    destruct (create _ (mi_name m) (mi_method m) opts) as [g|] eqn:E; simpl;
      [|auto].
    apply NoDup_cons. split; [|auto].
    apply createFunction_path in E as [-> _].
    intros (f & Hp & Hf)%list_elem_of_fmap.
    apply list_elem_of_In, in_flat_map in Hf as (m0 & Hm0 & Hf).
    destruct (create _ (mi_name m0) (mi_method m0) opts) as [g0|] eqn:E0;
      simpl in Hf; [|contradiction].
    destruct Hf as [<-|[]]. apply createFunction_path in E0 as [E0 _].
    rewrite E0 in Hp. do 2 apply append_inv_head in Hp.
    apply Hm. rewrite Hp. apply list_elem_of_fmap. exists m0.
    split; [reflexivity | now apply list_elem_of_In].
Qed.

(** Every function found has a path below the path of the traversal. *)
Lemma traverseStruct_below v :
  (forall path a f, f ∈ traverse path v a [] opts -> below path (Path f))
  /\ (forall path a f, f ∈ node path v a [] opts -> below path (Path f)).
Proof.
  induction v as [|e [_ IHn]| |e [IHt _]|ms pms fields IH|]
    using ReflectValue_nested_ind.
  - split; intros path a f Hf; inversion Hf.
  - split; intros path a f Hf; [|inversion Hf].
    rewrite traverseStruct_unfold in Hf. eauto.
  - split; intros path a f Hf; inversion Hf.
  - assert (Hn : forall path a f,
               f ∈ node path (VInterface (Some e)) a [] opts ->
               below path (Path f)) by (intros path a f Hf; eapply IHt, Hf).
    split; [|exact Hn]. intros path a f Hf.
    rewrite traverseStruct_unfold in Hf. eauto.
  - assert (Hn : forall path a f,
               f ∈ node path (VStruct ms pms fields) a [] opts ->
               below path (Path f)).
    { intros path a f. rewrite traverseNode_struct.
      intros [Hf | Hf]%elem_of_app.
      - assert (Hp : Path f ∈ map Path (register path (exposables ms pms a) [] opts))
          by (apply list_elem_of_fmap; eauto).
        apply registerMethods_paths in Hp as [[_ ->] | [_ (m & _ & ->)]].
        + exists "". rewrite append_nil_r. auto.
        + eexists. split; [reflexivity|]. eauto.
      - apply list_elem_of_In, in_flat_map in Hf as (fd & Hfd & Hf).
        destruct fd as [[n x] fv]. simpl in Hf. destruct x; [|contradiction].
        apply list_elem_of_In in Hfd, Hf.
        rewrite Forall_forall in IH. destruct (IH _ Hfd) as [IHfd _].
        destruct (IHfd _ _ _ Hf) as (suffix & -> & Hs).
        exists (String "/" (ToKebab n +:+ suffix)). split; [|eauto].
        rewrite append_assoc. reflexivity. }
    split; [|exact Hn]. intros path a f Hf.
    rewrite traverseStruct_unfold in Hf. eauto.
  - split; intros path a f Hf; inversion Hf.
Qed.

Lemma fieldFunctions_paths path a fields p :
  p ∈ map Path (flat_map (fieldFunctions path a) fields) ->
  exists n fv suffix,
    (n, true, fv) ∈ fields
    /\ p = path +:+ String "/" (ToKebab n +:+ suffix)
    /\ (suffix = "" \/ exists r, suffix = String "/" r).
Proof.
  intros (f & -> & Hf)%list_elem_of_fmap.
  apply list_elem_of_In, in_flat_map in Hf as ([[n x] fv] & Hfd & Hf).
  simpl in Hf. destruct x; [|contradiction].
  apply list_elem_of_In in Hfd, Hf.
  destruct (proj1 (traverseStruct_below fv) _ _ _ Hf) as (suffix & -> & Hs).
  exists n, fv, suffix. split; [exact Hfd|]. split; [|exact Hs].
  rewrite append_assoc. reflexivity.
Qed.

Lemma fieldFunctions_NoDup path a fields :
  NoDup (map (fun f : string * bool * ReflectValue => ToKebab f.1.1)
           (filter (fun f : string * bool * ReflectValue => f.1.2 = true)
              fields)) ->
  (forall n fv, (n, true, fv) ∈ fields ->
                strings.ContainsByte (ToKebab n) "/" = false) ->
  (forall n fv, (n, true, fv) ∈ fields ->
                forall p, NoDup (map Path (traverse p fv a [] opts))) ->
  NoDup (map Path (flat_map (fieldFunctions path a) fields)).
Proof.
  induction fields as [|[[n x] fv] fields IH]; intros Hnd Hslash Hsub.
  - constructor.
  - cbn [flat_map fst snd]. destruct x.
    + rewrite filter_cons_True in Hnd by reflexivity.
      cbn [map fst snd] in Hnd. apply NoDup_cons in Hnd as [Hn Hnd].
      rewrite map_app. apply NoDup_app. split; [|split].
      * eapply Hsub. apply list_elem_of_here.
      * intros p (f & -> & Hf)%list_elem_of_fmap Hrest.
        destruct (proj1 (traverseStruct_below fv) _ _ _ Hf)
          as (s1 & Hp1 & Hs1).
        apply fieldFunctions_paths in Hrest
          as (n' & fv' & s2 & Hin' & Hp2 & Hs2).
        rewrite Hp1, append_assoc in Hp2.
        apply append_inv_head in Hp2. injection Hp2 as Hp2.
        apply Hn. apply list_elem_of_fmap. exists (n', true, fv').
        split.
        -- simpl. eapply segment_eq; [| |exact Hs1|exact Hs2|exact Hp2].
           ++ eapply Hslash, list_elem_of_here.
           ++ eapply Hslash, list_elem_of_further, Hin'.
        -- apply list_elem_of_filter. split; [reflexivity|exact Hin'].
      * apply IH; [exact Hnd| |].
        -- intros n' fv' Hin'. eapply Hslash, list_elem_of_further, Hin'.
        -- intros n' fv' Hin'. eapply Hsub, list_elem_of_further, Hin'.
    + rewrite filter_cons_False in Hnd by (simpl; discriminate).
      simpl. apply IH; [exact Hnd| |].
      * intros n' fv' Hin'. eapply Hslash, list_elem_of_further, Hin'.
      * intros n' fv' Hin'. eapply Hsub, list_elem_of_further, Hin'.
Qed.

Lemma segmentsDistinct_unfold v a :
  distinct v a
  = match v with
    | VPtr None => true
    | VPtr (Some e) => distinctAt e true
    | _ => distinctAt v a
    end.
Proof. destruct v as [[e|]|[e|]|ms pms fields|]; reflexivity. Qed.

(** With distinct segments at every node reached, no two functions
    found have the same path. *)
Lemma traverseStruct_NoDup v :
  (forall path a, distinct v a = true ->
                  NoDup (map Path (traverse path v a [] opts)))
  /\ (forall path a, distinctAt v a = true ->
                     NoDup (map Path (node path v a [] opts))).
Proof.
  induction v as [|e [_ IHn]| |e [IHt _]|ms pms fields IH|]
    using ReflectValue_nested_ind.
  - split; intros; constructor.
  - split; intros path a Hd; [|constructor].
    rewrite traverseStruct_unfold. rewrite segmentsDistinct_unfold in Hd. auto.
  - split; intros; constructor.
  - assert (Hn : forall path a, distinctAt (VInterface (Some e)) a = true ->
               NoDup (map Path (node path (VInterface (Some e)) a [] opts)))
      by (intros path a Hd; apply IHt, Hd).
    split; [|exact Hn]. intros path a Hd.
    rewrite traverseStruct_unfold. rewrite segmentsDistinct_unfold in Hd. auto.
  - assert (Hn : forall path a,
               distinctAt (VStruct ms pms fields) a = true ->
               NoDup (map Path (node path (VStruct ms pms fields) a [] opts))).
    { intros path a Hd. rewrite traverseNode_struct.
      unfold segmentsDistinctAt in Hd.
      apply andb_true_iff in Hd as [Hd Hfields].
      apply andb_true_iff in Hd as [Hnd Hslash].
      apply bool_decide_eq_true in Hnd. unfold segments in Hnd, Hslash.
      apply NoDup_app in Hnd as (Hms & Hdisj & Hfs).
      rewrite forallb_app in Hslash.
      apply andb_true_iff in Hslash as [Hslash_m Hslash_f].
      rewrite forallb_forall in Hslash_m, Hslash_f, Hfields.
      assert (Hfield_slash : forall n fv, (n, true, fv) ∈ fields ->
                 strings.ContainsByte (ToKebab n) "/" = false).
      { intros n fv Hin. apply negb_true_iff, Hslash_f.
        apply list_elem_of_In, list_elem_of_fmap. exists (n, true, fv).
        split; [reflexivity|]. apply list_elem_of_filter. auto. }
      rewrite map_app. apply NoDup_app. split; [|split].
      - apply registerMethods_NoDup. intros Hlen.
        replace (1 <? Z.of_nat (length (exposables ms pms a))) with true in Hms
          by (symmetry; apply Z.ltb_lt; lia).
        exact Hms.
      - intros p Hreg Hfld.
        apply fieldFunctions_paths in Hfld as (n & fv & s & Hin & Hp & Hs).
        apply registerMethods_paths in Hreg
          as [[_ Hreg] | [Hlen (m & Hm & Hreg)]].
        + rewrite Hreg in Hp. rewrite <- (append_nil_r path) in Hp at 1.
          apply append_inv_head in Hp. discriminate.
        + replace (1 <? Z.of_nat (length (exposables ms pms a))) with true
            in Hdisj, Hslash_m by (symmetry; apply Z.ltb_lt; lia).
          rewrite Hreg in Hp. apply append_inv_head in Hp.
          injection Hp as Hp. rewrite <- (append_nil_r (ToKebab _)) in Hp at 1.
          assert (Hmseg : ToKebab (mi_name m)
                          ∈ map (fun m => ToKebab (mi_name m))
                              (exposables ms pms a))
            by (apply list_elem_of_fmap; eauto).
          apply segment_eq in Hp; auto.
          * apply (Hdisj _ Hmseg). rewrite Hp.
            apply list_elem_of_fmap. exists (n, true, fv).
            split; [reflexivity|]. apply list_elem_of_filter. auto.
          * apply negb_true_iff, Hslash_m, list_elem_of_In, Hmseg.
          * eauto.
      - apply fieldFunctions_NoDup; [exact Hfs | exact Hfield_slash |].
        intros n fv Hin p. rewrite Forall_forall in IH.
        destruct (IH _ Hin) as [IHfv _]. apply IHfv.
        specialize (Hfields (n, true, fv) ltac:(now apply list_elem_of_In)).
        exact Hfields. }
    split; [|exact Hn]. intros path a Hd.
    rewrite traverseStruct_unfold. rewrite segmentsDistinct_unfold in Hd. auto.
  - split; intros; constructor.
Qed.

End DiscoveryPaths.

(** ** The naming rule on methods of the supported shapes *)

Section NamingRule.

Variable ToKebab : string -> string.
Variable implementsContext : GoType -> bool.
Variable implementsError : GoType -> bool.
Variable opts : list FuncOpt.

Local Abbreviation exposable :=
  (isExposableMethod implementsContext implementsError).
Local Abbreviation exposables :=
  (getExposableMethods implementsContext implementsError).
Local Abbreviation register :=
  (registerMethods ToKebab implementsContext implementsError).
Local Abbreviation traverse :=
  (traverseStruct ToKebab implementsContext implementsError).
Local Abbreviation node :=
  (traverseNode ToKebab implementsContext implementsError
     (fun path v canAddr functions => traverse path v canAddr functions opts)).

Lemma fold_left_collect {A B : Type} (P : B -> Prop)
    (keep : list B -> A -> bool) (make : A -> B) (l : list A) :
  (forall acc x, keep acc x = true -> P (make x)) ->
  forall init,
    Forall P init ->
    Forall P (fold_left
                (fun acc x => if keep acc x then acc ++ [make x] else acc)
                l init).
Proof.
  intros Hkeep. induction l as [|x l IH]; intros init Hinit; simpl; [exact Hinit|].
  apply IH. destruct (keep init x) eqn:E; [|exact Hinit].
  apply Forall_app. split; [exact Hinit|]. constructor; [eauto | constructor].
Qed.

(** Every method that [getExposableMethods] returns is accepted by
    [isExposableMethod]. *)
Lemma getExposableMethods_exposable ms pms canAddr :
  Forall (fun m => exposable (mi_method m) = true) (exposables ms pms canAddr).
Proof.
  unfold getExposableMethods.
  assert (Hvalue :
    Forall (fun m => exposable (mi_method m) = true)
      (fold_left
         (fun acc m =>
            if method_exported m && exposable (method_type m)
            then acc ++ [mkMethodInfo (method_name m) (method_type m)]
            else acc) ms [])).
  { apply (fold_left_collect _
             (fun _ m => method_exported m && exposable (method_type m))
             (fun m => mkMethodInfo (method_name m) (method_type m)));
      [|constructor].
    intros acc m [_ H]%andb_true_iff. exact H. }
  destruct canAddr; [|exact Hvalue].
  apply (fold_left_collect _
           (fun acc m =>
              negb (existsb (fun mi => String.eqb (mi_name mi) (method_name m))
                      acc)
              && method_exported m && exposable (method_type m))
           (fun m => mkMethodInfo (method_name m) (method_type m)));
    [|exact Hvalue].
  intros acc m [_ H]%andb_true_iff. exact H.
Qed.

(** When the methods found have at most two parameters, what a struct
    node adds is what the naming rule states, followed by what is found
    below each exported field, at the path followed by the kebab-cased
    name of the field. *)
Lemma traverseNode_supported path ms pms fields canAddr :
  Forall (fun m => NumIn (mi_method m) <= 2) (exposables ms pms canAddr) ->
  node path (VStruct ms pms fields) canAddr [] opts
  = endpointsStated ToKebab path (exposables ms pms canAddr) opts
    ++ flat_map
         (fun f : string * bool * ReflectValue =>
            if f.1.2
            then traverse (path +:+ "/" +:+ ToKebab f.1.1) f.2 canAddr [] opts
            else [])
         fields.
Proof.
  intros Hsupported. rewrite traverseNode_struct. f_equal.
  pose proof (getExposableMethods_exposable ms pms canAddr) as Hexposable.
  rewrite registerMethods_spec. simpl.
  assert (Hcreate : forall p m,
             m ∈ exposables ms pms canAddr ->
             createFunction implementsContext implementsError p (mi_name m)
               (mi_method m) opts = Some (endpointOf p m opts)).
  { intros p m Hin. rewrite Forall_forall in Hsupported, Hexposable.
    rewrite (createFunction_exposable _ _ _ _ _ _ (Hexposable m Hin)).
    destruct (Z.leb_spec (NumIn (mi_method m)) 2) as [_|Hgt]; [reflexivity|].
    specialize (Hsupported m Hin). lia. }
  unfold endpointsStated.
  destruct (exposables ms pms canAddr) as [|m [|m' l]] eqn:E.
  - reflexivity.
  - rewrite Hcreate by apply list_elem_of_here. reflexivity.
  - assert (Hall : forall l0, (forall m0, m0 ∈ l0 -> m0 ∈ m :: m' :: l) ->
               flat_map
                 (fun m0 =>
                    option_list
                      (createFunction implementsContext implementsError
                         (path +:+ "/" +:+ ToKebab (mi_name m0)) (mi_name m0)
                         (mi_method m0) opts)) l0
               = map (fun m0 =>
                        endpointOf (path +:+ "/" +:+ ToKebab (mi_name m0)) m0
                          opts) l0).
    { induction l0 as [|x l0 IH]; intros Hsub; simpl; [reflexivity|].
      rewrite Hcreate by apply Hsub, list_elem_of_here. simpl. f_equal.
      apply IH. intros m0 Hm0. apply Hsub, list_elem_of_further, Hm0. }
    apply Hall. auto.
Qed.

End NamingRule.

(** C3. A method [Do(ctx, a, b) error] has none of the four shapes, and
    [createFunction] makes no function for it; [isExposableMethod]
    accepts it all the same, and [getExposableMethods] counts it. *)
Theorem isExposableMethod_three_parameters :
  fourShapes implementsContext_sample implementsError_sample
    (method_type m_Do) = false
  /\ isExposableMethod implementsContext_sample implementsError_sample
       (method_type m_Do) = true
  /\ createFunction implementsContext_sample implementsError_sample
       "/app" "Do" (method_type m_Do) [] = None
  /\ map mi_name
       (getExposableMethods implementsContext_sample implementsError_sample
          [] [m_Do; m_Get] true) = ["Do"; "Get"].
Proof. repeat split; reflexivity. Qed.

(** C4. A struct with the methods [Get(ctx) error] and [Do(ctx, a, b)
    error] has one method of a supported shape; its one function is
    registered below the path, at [/app/get], not at [/app].  A struct
    with [Do] alone has one method counted and no function
    registered. *)
Theorem traverseStruct_counts_unsupported_method :
  map Path (Struct_sample "/app" v_Do_Get []) = ["/app/get"]
  /\ map Name (Struct_sample "/app" v_Do_Get []) = ["Get"]
  /\ length (getExposableMethods implementsContext_sample
               implementsError_sample [] [m_Do] true) = 1%nat
  /\ Struct_sample "/app" v_Do [] = [].
Proof. repeat split; reflexivity. Qed.

(** C9, as stated, fails: the fields [URL] and [Url] have the same
    kebab-cased name, and their functions the same path. *)
Lemma Struct_paths_not_distinct :
  map Path (Struct_sample "/app" v_URL_Url []) = ["/app/url"; "/app/url"]
  /\ ~ NoDup (map Path (Struct_sample "/app" v_URL_Url [])).
Proof.
  split; [reflexivity|].
  change (map Path (Struct_sample "/app" v_URL_Url []))
    with ["/app/url"; "/app/url"].
  intros [Hin _]%NoDup_cons. apply Hin, list_elem_of_here.
Qed.

(** C9, amended.  When at every struct node reached the kebab-cased
    names of the exported fields, and of the methods where more than one
    is registered, are pairwise distinct and free of [/], the functions
    of one [Struct] pass have pairwise distinct paths. *)
Theorem Struct_paths_distinct (ToKebab : string -> string)
    (implementsContext implementsError : GoType -> bool)
    (basePath : string) (v : ReflectValue) (opts : list FuncOpt) :
  segmentsDistinct ToKebab implementsContext implementsError v false = true ->
  NoDup (map Path (Struct ToKebab implementsContext implementsError
                     basePath v opts)).
Proof.
  intros Hd. unfold Struct. now apply traverseStruct_NoDup.
Qed.

Lemma Struct_paths_distinct_witness :
  NoDup (map Path (Struct_sample "/app" v_Application [])).
Proof.
  apply Struct_paths_distinct. vm_compute. reflexivity.
Defined.

(** ** The schema walker *)

Lemma SchemaRef_nested_ind (P : SchemaRef -> Prop) :
  (forall r, P (mkSchemaRef r None)) ->
  (forall r ext allOf anyOf oneOf items props req ty addl nt,
      Forall P allOf -> Forall P anyOf -> Forall P oneOf ->
      match items with Some it => P it | None => True end ->
      Forall (fun kp => P kp.2) props ->
      P (mkSchemaRef r
           (Some (mkSchema ext allOf anyOf oneOf items props req ty addl nt)))) ->
  forall ref, P ref.
Proof.
  intros Hnil Hnode. fix IH 1.
  intros [r [[ext allOf anyOf oneOf items props req ty addl nt]|]]; [|apply Hnil].
  apply Hnode.
  - induction allOf as [|m l IHl]; constructor; [apply IH | exact IHl].
  - induction anyOf as [|m l IHl]; constructor; [apply IH | exact IHl].
  - induction oneOf as [|m l IHl]; constructor; [apply IH | exact IHl].
  - destruct items as [it|]; [apply IH | exact I].
  - induction props as [|[k p] props IHp]; constructor;
      [apply IH | exact IHp].
Qed.

Lemma Walked_app o1 l1 o2 l2 res :
  Walked o1 l1 (Ret None) -> Walked o2 l2 res ->
  Walked (o1 ++ o2) (l1 ++ l2) res.
Proof.
  intros H1 H2. remember (Ret None) as ok eqn:Hok.
  induction H1; try discriminate; simpl; [exact H2|].
  constructor; auto.
Qed.

Lemma Walked_stop o1 l1 o2 res :
  Walked o1 l1 res -> res <> Ret None -> Walked (o1 ++ o2) l1 res.
Proof.
  induction 1; intros Hres; simpl; try congruence; constructor; auto.
Qed.

(** A step after the nodes [o0]: it runs when they all answered nil. *)
Lemma Walked_seq o0 l0 res0 o l res :
  Walked o0 l0 res0 ->
  (res0 = Ret None -> Walked o l res) ->
  (res0 <> Ret None -> l = [] /\ res = res0) ->
  Walked (o0 ++ o) (l0 ++ l) res.
Proof.
  intros H0 Hok Hfail. destruct res0 as [[e|]|msg].
  - destruct Hfail as [-> ->]; [discriminate|]. rewrite app_nil_r.
    apply Walked_stop; [exact H0 | discriminate].
  - apply Walked_app; auto.
  - destruct Hfail as [-> ->]; [discriminate|]. rewrite app_nil_r.
    apply Walked_stop; [exact H0 | discriminate].
Qed.

Lemma Walked_under label o l res :
  Walked o l res ->
  Walked (under label o) l
    (match res with
     | Ret (Some err) => Ret (Some (ErrWrap label err))
     | _ => res
     end).
Proof.
  induction 1; simpl.
  - constructor.
  - constructor; assumption.
  - apply (Walked_error (label :: labels)). assumption.
  - constructor. assumption.
Qed.

Section WalkOrder.

Context {St : Type}.
Variable walkV : SchemaRef -> St -> walked (St := St) SchemaRef.
Variable walkL :
  SchemaRef -> St * visitLog -> walked (St := St * visitLog) SchemaRef.

Lemma under_app label o1 o2 :
  under label (o1 ++ o2) = under label o1 ++ under label o2.
Proof. apply map_app. Qed.

Lemma records_members prefix ms :
  Forall (fun m => records (walkV m) (walkL m) (visitOrder m)) ms ->
  records (walkMembers walkV prefix ms) (walkMembers walkL prefix ms)
    (under prefix (flat_map visitOrder ms)).
Proof.
  induction 1 as [|m ms Hm _ IH]; intros st log.
  - exists []. simpl. rewrite app_nil_r. split; [reflexivity | constructor].
  - destruct m as [rf [s|]].
    + destruct (Hm st log) as (new1 & E1 & W1).
      cbn [walkMembers flat_map]. rewrite E1. clear E1.
      destruct (walkV (mkSchemaRef rf (Some s)) st) as [[m' st1] res1].
      cbn [snd] in W1. rewrite under_app.
      apply (Walked_under prefix) in W1.
      destruct res1 as [[err|]|msg]; cbv beta iota.
      * exists new1. split; [reflexivity|].
        apply Walked_stop; [exact W1 | discriminate].
      * destruct (IH st1 (log ++ new1)) as (new2 & E2 & W2).
        exists (new1 ++ new2). rewrite E2. clear E2.
        destruct (walkMembers walkV prefix ms st1) as [[ms' st2] res2].
        cbv beta iota. rewrite app_assoc. split; [reflexivity|].
        apply Walked_app; assumption.
      * exists new1. split; [reflexivity|].
        apply Walked_stop; [exact W1 | discriminate].
    + destruct (IH st log) as (new & E & W).
      cbn [walkMembers flat_map]. rewrite E. clear E.
      destruct (walkMembers walkV prefix ms st) as [[ms' st'] res].
      cbv beta iota. exists new. split; [reflexivity | exact W].
Qed.

Lemma records_properties props :
  Forall (fun kp => records (walkV kp.2) (walkL kp.2) (visitOrder kp.2)) props ->
  records (walkProperties walkV props) (walkProperties walkL props)
    (flat_map
       (fun kp : string * SchemaRef =>
          under ("prop " +:+ kp.1 +:+ ": ") (visitOrder kp.2))
       props).
Proof.
  induction 1 as [|[k p] props Hp _ IH]; intros st log.
  - exists []. simpl. rewrite app_nil_r. split; [reflexivity | constructor].
  - cbn [fst snd] in Hp. destruct p as [rf [s|]].
    + destruct (Hp st log) as (new1 & E1 & W1).
      cbn [walkProperties flat_map fst snd]. rewrite E1. clear E1.
      destruct (walkV (mkSchemaRef rf (Some s)) st) as [[p' st1] res1].
      cbn [snd] in W1.
      apply (Walked_under ("prop " +:+ k +:+ ": ")) in W1.
      destruct res1 as [[err|]|msg]; cbv beta iota.
      * exists new1. split; [reflexivity|].
        apply Walked_stop; [exact W1 | discriminate].
      * destruct (IH st1 (log ++ new1)) as (new2 & E2 & W2).
        exists (new1 ++ new2). rewrite E2. clear E2.
        destruct (walkProperties walkV props st1) as [[props' st2] res2].
        cbv beta iota. rewrite app_assoc. split; [reflexivity|].
        apply Walked_app; assumption.
      * exists new1. split; [reflexivity|].
        apply Walked_stop; [exact W1 | discriminate].
    + destruct (IH st log) as (new & E & W).
      cbn [walkProperties flat_map fst snd]. rewrite E. clear E.
      destruct (walkProperties walkV props st) as [[props' st'] res].
      cbv beta iota. exists new. split; [reflexivity | exact W].
Qed.

Lemma records_items items :
  match items with
  | Some it => records (walkV it) (walkL it) (visitOrder it)
  | None => True
  end ->
  records (walkItems walkV items) (walkItems walkL items)
    (under "items: "
       (match items with Some it => visitOrder it | None => [] end)).
Proof.
  intros Hit st log. destruct items as [it|].
  - destruct (Hit st log) as (new & E & W). cbn [walkItems]. rewrite E.
    clear E. destruct (walkV it st) as [[it' st'] res]. cbn [snd] in *.
    cbv beta iota. exists new. split; [reflexivity|]. now apply Walked_under.
  - exists []. simpl. rewrite app_nil_r. split; [reflexivity | constructor].
Qed.

Lemma records_visit (visitor : visitorFn St) (seen target : SchemaRef) :
  shallow seen = shallow target ->
  records (visit visitor seen) (visit (logged visitor) seen) [([], target)].
Proof.
  intros Hsh st log. unfold visit, logged.
  destruct (visitor seen st) as [st' [[[rep|] [err|]]|msg]]; cbn [snd];
    eexists; (split; [reflexivity|]).
  - now apply (Walked_error []).
  - constructor; [assumption | constructor].
  - now apply (Walked_error []).
  - constructor; [assumption | constructor].
  - now constructor.
Qed.

End WalkOrder.

(** The facts of the next step of the walk, with its result named. *)
Ltac walk_stage R st log new E W :=
  destruct (R st log) as (new & E & W);
  match type of W with
  | Walked _ _ (snd ?c) =>
      let x := fresh "x" in
      let st' := fresh "st" in
      let res := fresh "res" in
      destruct c as [[x st'] res]; cbn [snd] in W; cbv beta iota in E
  end.

(** Replay the steps on the recording side. *)
Ltac walk_replay :=
  repeat match goal with
    | E : _ = _ |- _ =>
        progress (rewrite E); cbn [unlessFailed]; cbv beta iota
    end;
  rewrite <- ?app_assoc.

Ltac walk_failed :=
  split;
  [reflexivity
  |repeat (apply Walked_app; [assumption|]);
   apply Walked_stop; [assumption | discriminate]].

Lemma walkSchema_records {St : Type} (visitor : visitorFn St) ref :
  records (walkSchema ref visitor) (walkSchema ref (logged visitor))
    (visitOrder ref).
Proof.
  induction ref as [r|r ext allOf anyOf oneOf items props req ty addl nt
                      HallOf HanyOf HoneOf Hitems Hprops]
    using SchemaRef_nested_ind; intros st log.
  - exists []. simpl. rewrite app_nil_r. split; [reflexivity | constructor].
  - set (walkV := fun m st => walkSchema m visitor st).
    set (walkL := fun m st => walkSchema m (logged visitor) st).
    pose proof (records_members walkV walkL "allOf: " allOf HallOf) as R1.
    pose proof (records_members walkV walkL "allOf: " anyOf HanyOf) as R2.
    pose proof (records_members walkV walkL "allOf: " oneOf HoneOf) as R3.
    pose proof (records_items walkV walkL items Hitems) as R4.
    pose proof (records_properties walkV walkL props Hprops) as R5.
    cbn [walkSchema visitOrder]. fold walkV. fold walkL.
    walk_stage R1 st log new1 E1 W1.
    destruct res as [[e|]|msg]; cbn [unlessFailed].
    1,3: (exists new1; walk_replay; walk_failed).
    walk_stage R2 st0 (log ++ new1) new2 E2 W2.
    destruct res as [[e|]|msg]; cbn [unlessFailed].
    1,3: (exists (new1 ++ new2); walk_replay; walk_failed).
    walk_stage R3 st1 ((log ++ new1) ++ new2) new3 E3 W3.
    destruct res as [[e|]|msg]; cbn [unlessFailed].
    1,3: (exists (new1 ++ new2 ++ new3); walk_replay; walk_failed).
    walk_stage R4 st2 (((log ++ new1) ++ new2) ++ new3) new4 E4 W4.
    destruct res as [[e|]|msg]; cbn [unlessFailed].
    1,3: (exists (new1 ++ new2 ++ new3 ++ new4); walk_replay; walk_failed).
    walk_stage R5 st3 ((((log ++ new1) ++ new2) ++ new3) ++ new4) new5 E5 W5.
    destruct res as [[e|]|msg]; cbn [unlessFailed].
    1,3: (exists (new1 ++ new2 ++ new3 ++ new4 ++ new5); walk_replay;
          walk_failed).
    pose proof
      (records_visit visitor
         (mkSchemaRef r (Some (mkSchema ext x x0 x1 x2 x3 req ty addl nt)))
         (mkSchemaRef r
            (Some (mkSchema ext allOf anyOf oneOf items props req ty addl nt)))
         eq_refl) as R6.
    destruct (R6 st4 (((((log ++ new1) ++ new2) ++ new3) ++ new4) ++ new5))
      as (new6 & E6 & W6).
    exists (new1 ++ new2 ++ new3 ++ new4 ++ new5 ++ new6). walk_replay.
    split.
    + destruct (visit visitor _ st4) as [[x4 st5] res]. now rewrite <- ?app_assoc.
    + repeat (apply Walked_app; [assumption|]). exact W6.
Qed.

(** C7. For every visitor, [walkSchema] visits the nodes in the order of
    [visitOrder]: below a node the members of [allOf], of [anyOf] and of
    [oneOf], the item schema and the properties, then the node; a node
    without a body is not visited.  The walk ends with the first visit
    that answers an error, which it returns behind the labels of the
    node ([allOf: ], [items: ], [prop <name>: ]). *)
Theorem walkSchema_order {St : Type} (visitor : visitorFn St)
    (ref : SchemaRef) (st : St) :
  exists log,
    walkSchema ref (logged visitor) (st, [])
    = (let '(ref', st', res) := walkSchema ref visitor st in
       (ref', (st', log), res))
    /\ Walked (visitOrder ref) log (walkSchema ref visitor st).2.
Proof. exact (walkSchema_records visitor ref st []). Qed.

(** What [Walked] says of a walk that returns nil, and of one that
    returns an error. *)
Lemma Walked_complete order log :
  Walked order log (Ret None) ->
  map shallow (map fst log) = map shallow (map snd order)
  /\ Forall (fun call => call.2 = Ret None) log.
Proof.
  intros H. remember (Ret None) as res eqn:Hres.
  induction H; try discriminate; simpl.
  - split; constructor.
  - destruct (IHWalked Hres) as [-> Hall]. rewrite H.
    split; [reflexivity | constructor; auto].
Qed.

Lemma Walked_first_error order log err :
  Walked order log (Ret (Some err)) ->
  exists before seen e labels target,
    log = before ++ [(seen, Ret (Some e))]
    /\ Forall (fun call => call.2 = Ret None) before
    /\ map shallow (map fst before)
       = map shallow (map snd (take (length before) order))
    /\ order !! length before = Some (labels, target)
    /\ shallow seen = shallow target
    /\ err = wrapAll labels e.
Proof.
  intros H. remember (Ret (Some err)) as res eqn:Hres.
  induction H; try discriminate.
  - destruct (IHWalked Hres)
      as (before & seen' & e & labels' & target' & -> & Hall & Hmap & Hat
          & Hsh & ->).
    exists ((seen, Ret None) :: before), seen', e, labels', target'.
    simpl. rewrite H, Hmap. repeat split; auto.
  - injection Hres as <-. exists [], seen, err0, labels, target.
    simpl. repeat split; auto.
Qed.

(** ** Extraction *)

Lemma extendedBy_refl (schemas : Schemas) : extendedBy schemas [] schemas.
Proof.
  repeat split; auto. intros id Hin. simpl in Hin. inversion Hin.
Qed.

Lemma extendedBy_trans (s0 s1 s2 : Schemas) e1 e2 :
  extendedBy s0 e1 s1 -> extendedBy s1 e2 s2 -> extendedBy s0 (e1 ++ e2) s2.
Proof.
  intros (K1 & I1 & N1) (K2 & I2 & N2). repeat split.
  - auto.
  - intros id Hin. rewrite fmap_app in Hin.
    apply elem_of_app in Hin as [Hin|Hin]; [|auto].
    destruct (I1 id Hin) as [e He]. eauto.
  - intros id e He. destruct (N2 id e He) as [H1|H2].
    + destruct (N1 id e H1); [auto|]. right. apply elem_of_app. auto.
    + right. apply elem_of_app. auto.
Qed.

Lemma stampedAmong_app o1 o2 :
  stampedAmong (o1 ++ o2) = stampedAmong o1 ++ stampedAmong o2.
Proof. apply omap_app. Qed.

Lemma stampedAmong_under label o : stampedAmong (under label o) = stampedAmong o.
Proof.
  induction o as [|[labels n] o IH]; simpl; [reflexivity|].
  unfold stampedAmong in *. simpl. now rewrite IH.
Qed.

Lemma idsAreStringsAmong_app o1 o2 :
  idsAreStringsAmong (o1 ++ o2)
  = idsAreStringsAmong o1 && idsAreStringsAmong o2.
Proof. apply forallb_app. Qed.

Lemma idsAreStringsAmong_under label o :
  idsAreStringsAmong (under label o) = idsAreStringsAmong o.
Proof.
  induction o as [|[labels n] o IH]; simpl; [reflexivity|].
  unfold idsAreStringsAmong in *. simpl. now rewrite IH.
Qed.

Section Extraction.

Variable walk : SchemaRef -> Schemas -> walked (St := Schemas) SchemaRef.

Lemma extracts_members prefix ms :
  Forall (fun m => extracts (walk m) (promoted m) (visitOrder m)) ms ->
  extracts (walkMembers walk prefix ms) (map promoted ms)
    (under prefix (flat_map visitOrder ms)).
Proof.
  induction 1 as [|m ms Hm _ IH]; intros Hids schemas.
  - exists schemas. split; [reflexivity | apply extendedBy_refl].
  - rewrite idsAreStringsAmong_under in Hids. cbn [flat_map] in Hids.
    rewrite idsAreStringsAmong_app in Hids.
    apply andb_true_iff in Hids as [Hids_m Hids_ms].
    rewrite <- (idsAreStringsAmong_under prefix) in Hids_ms.
    cbn [flat_map]. rewrite under_app, stampedAmong_app, stampedAmong_under.
    destruct m as [rf [s|]].
    + destruct (Hm Hids_m schemas) as (s1 & E1 & G1).
      destruct (IH Hids_ms s1) as (s2 & E2 & G2).
      exists s2. split; [|eapply extendedBy_trans; eassumption].
      cbn [walkMembers map]. rewrite E1. cbv beta iota. rewrite E2.
      reflexivity.
    + destruct (IH Hids_ms schemas) as (s2 & E2 & G2).
      exists s2. split; [|exact G2].
      cbn [walkMembers map]. rewrite E2. reflexivity.
Qed.

Lemma extracts_properties props :
  Forall (fun kp => extracts (walk kp.2) (promoted kp.2) (visitOrder kp.2))
    props ->
  extracts (walkProperties walk props)
    (map (fun kp : string * SchemaRef => (kp.1, promoted kp.2)) props)
    (flat_map
       (fun kp : string * SchemaRef =>
          under ("prop " +:+ kp.1 +:+ ": ") (visitOrder kp.2))
       props).
Proof.
  induction 1 as [|[k p] props Hp _ IH]; intros Hids schemas.
  - exists schemas. split; [reflexivity | apply extendedBy_refl].
  - cbn [flat_map fst snd] in *. rewrite idsAreStringsAmong_app in Hids.
    apply andb_true_iff in Hids as [Hids_p Hids_ps].
    rewrite idsAreStringsAmong_under in Hids_p.
    rewrite stampedAmong_app, stampedAmong_under.
    destruct p as [rf [s|]].
    + destruct (Hp Hids_p schemas) as (s1 & E1 & G1).
      destruct (IH Hids_ps s1) as (s2 & E2 & G2).
      exists s2. split; [|eapply extendedBy_trans; eassumption].
      cbn [walkProperties map fst snd]. rewrite E1. cbv beta iota. rewrite E2.
      reflexivity.
    + destruct (IH Hids_ps schemas) as (s2 & E2 & G2).
      exists s2. split; [|exact G2].
      cbn [walkProperties map fst snd]. rewrite E2. reflexivity.
Qed.

Lemma extracts_items items :
  match items with
  | Some it => extracts (walk it) (promoted it) (visitOrder it)
  | None => True
  end ->
  extracts (walkItems walk items) (option_map promoted items)
    (under "items: "
       (match items with Some it => visitOrder it | None => [] end)).
Proof.
  intros Hit Hids schemas. rewrite idsAreStringsAmong_under in Hids.
  rewrite stampedAmong_under. destruct items as [it|].
  - destruct (Hit Hids schemas) as (s1 & E1 & G1).
    exists s1. split; [|exact G1]. cbn [walkItems option_map]. rewrite E1.
    reflexivity.
  - exists schemas. split; [reflexivity | apply extendedBy_refl].
Qed.

End Extraction.

(** The visit of a node whose nodes below have been extracted. *)
Lemma extracts_visit (ref : SchemaRef) :
  Value ref <> None ->
  extracts (visit extractSubSchemas (settled ref)) (promoted ref)
    [([], ref)].
Proof.
  destruct ref as [r [[ext allOf anyOf oneOf items props req ty addl nt]|]];
    [intros _ | intros H; now destruct H].
  intros Hids schemas. unfold idsAreStringsAmong in Hids. simpl in Hids.
  unfold visit, extractSubSchemas, stampedAmong. simpl.
  unfold pendingId. simpl.
  destruct (ext !! "$id") as [[id|]|] eqn:Hid; [| discriminate |].
  - destruct (schemas !! strings.TrimPrefix id "#") as [old|] eqn:Hold.
    + exists schemas. split; [reflexivity|]. repeat split; auto.
      intros id' Hin. simpl in Hin. apply list_elem_of_singleton in Hin as ->.
      eauto.
    + eexists. split; [reflexivity|]. repeat split.
      * intros id' e He. rewrite lookup_insert_ne; [exact He | congruence].
      * intros id' Hin. simpl in Hin. apply list_elem_of_singleton in Hin as ->.
        rewrite lookup_insert_eq. eauto.
      * intros id' e He. destruct (decide (strings.TrimPrefix id "#" = id'))
          as [<-|Hne].
        -- rewrite lookup_insert_eq in He. injection He as <-.
           right. apply list_elem_of_here.
        -- rewrite lookup_insert_ne in He by exact Hne. auto.
  - exists schemas. split; [reflexivity | apply extendedBy_refl].
Qed.

(** Extraction replaces every stamped node by the reference to its
    identifier, and adds to the table an entry for each identifier that
    had none. *)
Lemma walkSchema_extracts (ref : SchemaRef) :
  extracts (walkSchema ref extractSubSchemas) (promoted ref) (visitOrder ref).
Proof.
  induction ref as [r|r ext allOf anyOf oneOf items props req ty addl nt
                      HallOf HanyOf HoneOf Hitems Hprops]
    using SchemaRef_nested_ind; intros Hids schemas.
  - exists schemas. split; [reflexivity | apply extendedBy_refl].
  - set (walk := fun m st => walkSchema m extractSubSchemas st).
    cbn [visitOrder] in Hids |- *.
    set (node := mkSchemaRef r
                   (Some (mkSchema ext allOf anyOf oneOf items props req ty addl nt)))
      in *.
    rewrite !idsAreStringsAmong_app in Hids.
    apply andb_true_iff in Hids as [H1 Hids].
    apply andb_true_iff in Hids as [H2 Hids].
    apply andb_true_iff in Hids as [H3 Hids].
    apply andb_true_iff in Hids as [H4 Hids].
    apply andb_true_iff in Hids as [H5 H6].
    destruct (extracts_members walk "allOf: " allOf HallOf H1 schemas)
      as (s1 & E1 & G1).
    destruct (extracts_members walk "allOf: " anyOf HanyOf H2 s1)
      as (s2 & E2 & G2).
    destruct (extracts_members walk "allOf: " oneOf HoneOf H3 s2)
      as (s3 & E3 & G3).
    destruct (extracts_items walk items Hitems H4 s3) as (s4 & E4 & G4).
    destruct (extracts_properties walk props Hprops H5 s4) as (s5 & E5 & G5).
    destruct (extracts_visit node ltac:(discriminate) H6 s5) as (s6 & E6 & G6).
    exists s6. split.
    + unfold node at 1. cbn [walkSchema]. fold walk.
      rewrite E1. cbn [unlessFailed]. rewrite E2. cbn [unlessFailed].
      rewrite E3. cbn [unlessFailed]. rewrite E4. cbn [unlessFailed].
      rewrite E5. cbn [unlessFailed]. exact E6.
    + rewrite !stampedAmong_app.
      repeat (eapply extendedBy_trans; [eassumption|]). exact G6.
Qed.

Lemma stampedAmong_flat_map_nil {A : Type}
    (f : A -> list (list string * SchemaRef)) (l : list A) :
  Forall (fun x => stampedAmong (f x) = []) l ->
  stampedAmong (flat_map f l) = [].
Proof.
  induction 1 as [|x l Hx _ IH]; simpl; [reflexivity|].
  now rewrite stampedAmong_app, Hx, IH.
Qed.

(** No stamped node is left in a promoted schema. *)
Lemma promoted_no_stamp (ref : SchemaRef) : stampedNodes (promoted ref) = [].
Proof.
  unfold stampedNodes.
  induction ref as [r|r ext allOf anyOf oneOf items props req ty addl nt
                      HallOf HanyOf HoneOf Hitems Hprops]
    using SchemaRef_nested_ind; [reflexivity|].
  assert (Hmembers : forall l,
             Forall (fun m => stampedAmong (visitOrder (promoted m)) = []) l ->
             stampedAmong (flat_map visitOrder (map promoted l)) = []).
  { induction 1 as [|m l Hm _ IH]; simpl; [reflexivity|].
    now rewrite stampedAmong_app, Hm, IH. }
  cbn [promoted].
  destruct (pendingId (mkSchemaRef r (Some (mkSchema ext allOf anyOf oneOf
                                              items props req ty addl nt))))
    as [id|] eqn:Hid; [reflexivity|].
  cbn [visitOrder]. rewrite !stampedAmong_app, !stampedAmong_under.
  rewrite !Hmembers by assumption.
  replace (stampedAmong
             match option_map promoted items with
             | Some it => visitOrder it
             | None => []
             end) with (@nil (string * SchemaRef))
    by (destruct items; simpl; [now rewrite Hitems | reflexivity]).
  replace (stampedAmong
             (flat_map
                (fun kp : string * SchemaRef =>
                   under ("prop " +:+ kp.1 +:+ ": ") (visitOrder kp.2))
                (map (fun kp : string * SchemaRef => (kp.1, promoted kp.2))
                   props))) with (@nil (string * SchemaRef)).
  2: { symmetry. clear -Hprops.
       induction Hprops as [|[k p] props Hp _ IH]; simpl; [reflexivity|].
       simpl in Hp. now rewrite stampedAmong_app, stampedAmong_under, Hp, IH. }
  simpl. unfold stampedAmong. cbn [omap snd].
  unfold pendingId in *. cbn [Value Extensions] in *. now rewrite Hid.
Qed.




(** The stamp that [setID] writes for a struct type met below the main
    type is the pending identifier that the namer gives the type. *)
Lemma setID_stamps {U : Type} (mainType : GoType) (namer : SchemaIdentifier)
    (name : string) (t : GoType) (tag : string) (schema : Schema)
    (w : @World U) (r : string) :
  kind t = KStruct ->
  GoType_eqb t (match mainType with TPointer e => e | _ => mainType end)
  = false ->
  exists schema',
    setID mainType namer name t tag schema w = (w, Ret (schema', false, None))
    /\ pendingId (mkSchemaRef r (Some schema')) = Some (namer t).
Proof.
  intros Hkind Hmain. unfold setID. rewrite Hmain, Hkind. simpl.
  eexists. split; [reflexivity|].
  unfold pendingId. destruct schema. simpl. rewrite lookup_insert_eq.
  reflexivity.
Qed.

(** C2. Not every nested stamped node is replaced: the walk does not
    read the additional properties of a body.  For
    [struct { M map[string]dup }] the stamped schema of [dup] is below
    [M] after extraction as it was before, and the table has no entry
    for it; so it is after [reflectSchema], run with a generator that
    returns the schema of the type. *)
Theorem extraction_misses_additionalProperties :
  walkSchema s_mapOfDup extractSubSchemas ∅ = (s_mapOfDup, ∅, Ret None)
  /\ s_dup ∈ nestedNodes (walkSchema s_mapOfDup extractSubSchemas ∅).1.1
  /\ pendingId s_dup = Some "github.com.pbedat.expose.dup"
  /\ (walkSchema s_mapOfDup extractSubSchemas ∅).1.2
       !! "github.com.pbedat.expose.dup" = None
  /\ ~ (forall node,
          node ∈ nestedNodes (walkSchema s_mapOfDup extractSubSchemas ∅).1.1 ->
          pendingId node = None)
  /\ exists table,
       reflectSchema (fun _ _ w => (w, Ret (inl s_mapOfDup))) (fun _ => None)
         t_mapOfDup (∅, 0%nat) countingSettings
       = ((table, 0%nat),
          Ret (inl (reference "github.com.pbedat.expose.mapOfDup")))
       /\ table !! "github.com.pbedat.expose.mapOfDup" = Some s_mapOfDup
       /\ table !! "github.com.pbedat.expose.dup" = None.
Proof.
  assert (Hwalk : walkSchema s_mapOfDup extractSubSchemas ∅
                  = (s_mapOfDup, ∅, Ret None)) by reflexivity.
  assert (Hin : s_dup ∈ nestedNodes s_mapOfDup).
  { apply list_elem_of_further, list_elem_of_here. }
  rewrite Hwalk. cbn [fst snd].
  split; [reflexivity|]. split; [exact Hin|]. split; [reflexivity|].
  split; [reflexivity|].
  split; [intros Hnone; specialize (Hnone s_dup Hin); discriminate|].
  eexists. split; [vm_compute; reflexivity|]. split; reflexivity.
Qed.



(** ** The schema builder *)

(** C1. When the identifier of the value's type is a key of the table,
    [reflectSchema] returns the reference to it and leaves the table and
    the state of the caller's closures as they are, whatever the
    generator, the customizers and the mapper: none of them is run.
    After a call that returned a reference the identifier is a key, so
    that building the same value again returns the same reference and
    changes nothing. *)
Theorem reflectSchema_known_identifier {U : Type}
    (NewSchemaRefForValue :
       @SchemaCustomizerFn U -> GoType -> @World U ->
       @World U * go (SchemaRef + error))
    (JSONSchema :
       GoType ->
       option (@World U -> @World U * (option SchemaRef * option error)))
    (val : GoType) (w : @World U) (settings : reflectSettings) :
  let unchanged := fun w : @World U =>
    forall generator provider settings',
      typeNamer settings' = typeNamer settings ->
      reflectSchema generator provider val w settings'
      = (w, Ret (inl (reference (typeNamer settings val)))) in
  (is_Some (w.1 !! typeNamer settings val) -> unchanged w)
  /\ (forall w1 ref,
        reflectSchema NewSchemaRefForValue JSONSchema val w settings
        = (w1, Ret (inl ref)) ->
        ref = reference (typeNamer settings val) /\ unchanged w1).
Proof.
  assert (Hknown : forall w0 : @World U,
             is_Some (w0.1 !! typeNamer settings val) ->
             forall generator provider settings',
               typeNamer settings' = typeNamer settings ->
               reflectSchema generator provider val w0 settings'
               = (w0, Ret (inl (reference (typeNamer settings val))))).
  { intros w0 [entry He] generator provider settings' Hnamer.
    unfold reflectSchema. rewrite Hnamer, He. reflexivity. }
  split; [apply Hknown|].
  intros w1 ref. unfold reflectSchema.
  destruct (w.1 !! typeNamer settings val) as [entry|] eqn:He.
  { intros [= <- <-]. split; [reflexivity|]. apply Hknown. rewrite He. eauto. }
  match goal with
  | |- context [NewSchemaRefForValue ?flow val w] =>
      destruct (NewSchemaRefForValue flow val w) as [[s u] [[r|e]|msg]]
  end; try discriminate.
  assert (Hkey : forall (x : SchemaRef) (s' : Schemas),
             is_Some ((<[typeNamer settings val := x]> s', u).1
                      !! typeNamer settings val)).
  { intros x s'. simpl. rewrite lookup_insert_eq. eauto. }
  destruct (negb (skipExtractSubSchemas settings)
            && match Value r with Some _ => true | None => false end).
  - destruct (walkSchema r extractSubSchemas
                (<[typeNamer settings val := r]> s)) as [[r' s'] [[e|]|msg]];
      try discriminate.
    intros [= <- <-]. split; [reflexivity|]. apply Hknown, Hkey.
  - intros [= <- <-]. split; [reflexivity|]. apply Hknown, Hkey.
Qed.

Lemma reflectSchema_known_identifier_witness :
  exists schemas,
    reflectSchema flatGenerator (fun _ => None) t_int (∅, 0%nat)
      countingSettings
    = ((schemas, 1%nat), Ret (inl (reference "int")))
    /\ reflectSchema flatGenerator (fun _ => None) t_int (schemas, 1%nat)
         countingSettings
       = ((schemas, 1%nat), Ret (inl (reference "int"))).
Proof.
  destruct (reflectSchema flatGenerator (fun _ => None) t_int (∅, 0%nat)
              countingSettings) as [[schemas calls] res] eqn:Hfirst.
  assert (Hres : calls = 1%nat /\ res = Ret (inl (reference "int"))).
  { vm_compute in Hfirst. injection Hfirst as _ <- <-. split; reflexivity. }
  destruct Hres as [-> ->]. exists schemas. split; [reflexivity|].
  destruct (reflectSchema_known_identifier flatGenerator (fun _ => None)
              t_int (∅, 0%nat) countingSettings) as [_ Hagain].
  destruct (Hagain _ _ Hfirst) as [_ Hunchanged].
  exact (Hunchanged flatGenerator (fun _ => None) countingSettings eq_refl).
Defined.

(** ** The package's tests, run on the embedding *)

Example walkSchema_traversal :
  (walkSchema s_test noteIds []).1.2
  = ["allOf1"; "anyOf1"; "allOfNested"; "oneOf1"; "oneOf2";
     "item1"; "prop1"; "nestedProp"; "prop2"; "root"].
Proof. vm_compute. reflexivity. Qed.

Example walkSchema_error :
  map (fun failId =>
         match (walkSchema s_test (failOn failId) []).2 with
         | Ret (Some err) => Error err
         | _ => ""
         end)
    ["anyOf1"; "oneOf2"; "item1"; "nestedProp"; "root"]
  = ["allOf: allOf: test"; "allOf: test"; "prop prop1: items: test";
     "prop prop2: prop prop3: test"; "test"]
  /\ (walkSchema s_test (failOn "oneOf1") []).1.2
     = ["allOf1"; "anyOf1"; "allOfNested"; "oneOf1"].
Proof. split; vm_compute; reflexivity. Qed.

Example walkSchema_replace :
  exists ref',
    walkSchema s_test (replaceOn "nestedProp") tt = (ref', tt, Ret None)
    /\ hasProperty ref' "prop2"
         (mkSchemaRef ""
            (Some (mkSchema {["$id" := ExtString "prop2"]} [] [] [] None
                     [("prop3",
                       mkSchemaRef "#/components/schemas/nestedProp" None)]
                     [] "" None None))).
Proof.
  eexists. split; [vm_compute; reflexivity|].
  eexists. split; [reflexivity|].
  apply list_elem_of_further, list_elem_of_here.
Qed.

Example walkSchema_nil :
  walkSchema (NewSchemaRef "" None) noteIds [] = (NewSchemaRef "" None, [], Ret None).
Proof. reflexivity. Qed.

(** The test of deduplication: [dedup1{}] and then [&dedup2{}] are
    reflected into one table; the mapper is called for each type that
    the generator meets, and not at all when [dedup1{}] is reflected
    again. *)
Example reflectSchema_dedup :
  exists w1 w2 d1 d2 dup,
    reflectSchema structuralGenerator (fun _ => None) t_dedup1 (∅, 0%nat)
      countingSettings
    = (w1, Ret (inl (reference "github.com.pbedat.expose.dedup1")))
    /\ reflectSchema structuralGenerator (fun _ => None) (TPointer t_dedup2) w1
         countingSettings
       = (w2, Ret (inl (reference "github.com.pbedat.expose.dedup2")))
    /\ reflectSchema structuralGenerator (fun _ => None) t_dedup1 w2
         countingSettings
       = (w2, Ret (inl (reference "github.com.pbedat.expose.dedup1")))
    /\ w1.2 = 3%nat /\ w2.2 = 6%nat
    /\ w2.1 !! "github.com.pbedat.expose.dedup1" = Some d1
    /\ w2.1 !! "github.com.pbedat.expose.dedup2" = Some d2
    /\ w2.1 !! "github.com.pbedat.expose.dup" = Some dup
    /\ hasProperty d1 "Dup1" (reference "github.com.pbedat.expose.dup")
    /\ hasProperty d2 "Dup2" (reference "github.com.pbedat.expose.dup")
    /\ size w2.1 = 3%nat.
Proof.
  eexists _, _, _, _, _.
  split; [vm_compute; reflexivity|].
  split; [vm_compute; reflexivity|].
  split; [vm_compute; reflexivity|].
  split; [reflexivity|]. split; [reflexivity|].
  split; [vm_compute; reflexivity|].
  split; [vm_compute; reflexivity|].
  split; [vm_compute; reflexivity|].
  split; [eexists; split; [reflexivity | apply list_elem_of_here]|].
  split; [eexists; split; [reflexivity | apply list_elem_of_here]|].
  vm_compute. reflexivity.
Qed.

(** * Further properties *)

(** ** The walker and the state of the visitor *)

Section WalkInvariant.

Context {St : Type}.
Variable R : St -> St -> Prop.
Hypothesis R_refl : forall st, R st st.
Hypothesis R_trans : forall a b c, R a b -> R b c -> R a c.
Variable walk : SchemaRef -> St -> walked (St := St) SchemaRef.

Lemma walkMembers_state prefix ms :
  Forall (fun m => forall st, R st (walk m st).1.2) ms ->
  forall st, R st (walkMembers walk prefix ms st).1.2.
Proof.
  induction 1 as [|m ms Hm _ IH]; intros st; [apply R_refl|].
  destruct m as [rf [s|]]; cbn [walkMembers].
  - specialize (Hm st).
    destruct (walk (mkSchemaRef rf (Some s)) st) as [[m' st1] [[e|]|msg]];
      cbn [fst snd] in *; try exact Hm.
    specialize (IH st1).
    destruct (walkMembers walk prefix ms st1) as [[ms' st2] res].
    cbn [fst snd] in *. eauto.
  - specialize (IH st).
    destruct (walkMembers walk prefix ms st) as [[ms' st2] res]. exact IH.
Qed.

Lemma walkProperties_state props :
  Forall (fun kp : string * SchemaRef => forall st, R st (walk kp.2 st).1.2)
    props ->
  forall st, R st (walkProperties walk props st).1.2.
Proof.
  induction 1 as [|[k p] props Hp _ IH]; intros st; [apply R_refl|].
  cbn [fst snd] in Hp. destruct p as [rf [s|]]; cbn [walkProperties].
  - specialize (Hp st).
    destruct (walk (mkSchemaRef rf (Some s)) st) as [[p' st1] [[e|]|msg]];
      cbn [fst snd] in *; try exact Hp.
    specialize (IH st1).
    destruct (walkProperties walk props st1) as [[ps' st2] res].
    cbn [fst snd] in *. eauto.
  - specialize (IH st).
    destruct (walkProperties walk props st) as [[ps' st2] res]. exact IH.
Qed.

Lemma walkItems_state items :
  match items with
  | Some it => forall st, R st (walk it st).1.2
  | None => True
  end ->
  forall st, R st (walkItems walk items st).1.2.
Proof.
  intros Hit st. destruct items as [it|]; cbn [walkItems]; [|apply R_refl].
  specialize (Hit st). destruct (walk it st) as [[it' st1] res]. exact Hit.
Qed.

End WalkInvariant.

(** The state of the visitor changes through the calls of the visitor
    only: a preorder that every call respects holds between the state
    before the walk and the state after it, however the walk ends. *)
Lemma walkSchema_state {St : Type} (R : St -> St -> Prop)
    (visitor : visitorFn St) :
  (forall st, R st st) ->
  (forall a b c, R a b -> R b c -> R a c) ->
  (forall ref st, R st (visitor ref st).1) ->
  forall ref st, R st (walkSchema ref visitor st).1.2.
Proof.
  intros R_refl R_trans Hvisit.
  induction ref as [r|r ext allOf anyOf oneOf items props req ty addl nt
                      HallOf HanyOf HoneOf Hitems Hprops]
    using SchemaRef_nested_ind; intros st; [apply R_refl|].
  set (walk := fun m st => walkSchema m visitor st).
  pose proof (walkMembers_state R R_refl R_trans walk "allOf: " allOf HallOf)
    as S1.
  pose proof (walkMembers_state R R_refl R_trans walk "allOf: " anyOf HanyOf)
    as S2.
  pose proof (walkMembers_state R R_refl R_trans walk "allOf: " oneOf HoneOf)
    as S3.
  pose proof (walkItems_state R R_refl walk items Hitems) as S4.
  pose proof (walkProperties_state R R_refl R_trans walk props Hprops) as S5.
  cbn [walkSchema]. fold walk.
  specialize (S1 st).
  destruct (walkMembers walk "allOf: " allOf st) as [[x1 st1] [[e|]|msg]];
    cbn [unlessFailed fst snd] in *; try exact S1.
  specialize (S2 st1).
  destruct (walkMembers walk "allOf: " anyOf st1) as [[x2 st2] [[e|]|msg]];
    cbn [unlessFailed fst snd] in *; eauto.
  specialize (S3 st2).
  destruct (walkMembers walk "allOf: " oneOf st2) as [[x3 st3] [[e|]|msg]];
    cbn [unlessFailed fst snd] in *; eauto.
  specialize (S4 st3).
  destruct (walkItems walk items st3) as [[x4 st4] [[e|]|msg]];
    cbn [unlessFailed fst snd] in *; eauto.
  specialize (S5 st4).
  destruct (walkProperties walk props st4) as [[x5 st5] [[e|]|msg]];
    cbn [unlessFailed fst snd] in *; eauto.
  unfold visit.
  match goal with
  | |- context [visitor ?seen st5] =>
      pose proof (Hvisit seen st5) as S6;
      destruct (visitor seen st5) as [st6 [[[rep|] [e|]]|msg]]
  end; cbn [fst snd] in *; eauto 10.
Qed.

(** ** Errors of the walk *)

Lemma logged_answered {St : Type} (visitor : visitorFn St) ref st log :
  exists new,
    (walkSchema ref (logged visitor) (st, log)).1.2.2 = log ++ new
    /\ Forall (answered visitor) new.
Proof.
  apply (walkSchema_state
           (fun a b : St * visitLog =>
              exists new, b.2 = a.2 ++ new /\ Forall (answered visitor) new)).
  - intros a. exists []. split; [symmetry; apply app_nil_r | constructor].
  - intros a b c (n1 & E1 & F1) (n2 & E2 & F2). exists (n1 ++ n2). split.
    + rewrite E2, E1, app_assoc. reflexivity.
    + apply Forall_app. split; assumption.
  - intros r [s l]. unfold logged. cbv beta iota.
    destruct (visitor r s) as [s' out] eqn:Ev. cbn [fst snd].
    eexists. split; [reflexivity|].
    constructor; [|constructor]. exists s. cbn [fst snd]. rewrite Ev.
    reflexivity.
Qed.

Lemma walkSchema_error_answered {St : Type} (visitor : visitorFn St)
    (ref : SchemaRef) (st : St) (err : error) :
  (walkSchema ref visitor st).2 = Ret (Some err) ->
  exists labels seen st0 rep e,
    (visitor seen st0).2 = Ret (rep, Some e) /\ err = wrapAll labels e.
Proof.
  intros Hres.
  destruct (walkSchema_records visitor ref st []) as (new & E & W).
  destruct (logged_answered visitor ref st []) as (new' & E' & F).
  rewrite E in E'.
  destruct (walkSchema ref visitor st) as [[x st'] res].
  cbn [fst snd app] in *. subst res new'.
  apply Walked_first_error in W
    as (before & seen & e & labels & target & -> & _ & _ & _ & _ & ->).
  apply Forall_app in F as [_ F].
  apply Forall_cons in F as [[st0 A] _]. cbn [fst snd] in A.
  destruct (visitor seen st0) as [s1 [[rep e1]|msg]] eqn:Ev;
    cbn [snd] in A; [|discriminate].
  injection A as <-.
  exists labels, seen, st0, rep, e. rewrite Ev. split; reflexivity.
Qed.

(** X1. The walker makes no error of its own: an error that
    [walkSchema] returns is the error that a call of the visitor returned,
    behind the labels of the walker. *)
Theorem walkSchema_error_origin {St : Type} (visitor : visitorFn St)
    (ref : SchemaRef) (st : St) (err : error) :
  (walkSchema ref visitor st).2 = Ret (Some err) ->
  exists labels seen st0 rep e,
    (visitor seen st0).2 = Ret (rep, Some e) /\ err = wrapAll labels e.
Proof. apply walkSchema_error_answered. Qed.

Lemma walkSchema_error_origin_witness :
  exists labels seen st0 rep e,
    (failOn "item1" seen st0).2 = Ret (rep, Some e)
    /\ ErrWrap "prop prop1: " (ErrWrap "items: " (ErrNew "test"))
       = wrapAll labels e.
Proof.
  apply (walkSchema_error_origin (failOn "item1") s_test []).
  vm_compute. reflexivity.
Defined.

(** The extraction visitor returns no error, so the walk with it
    returns none. *)
Lemma extraction_no_error (ref : SchemaRef) (schemas : Schemas) (err : error) :
  (walkSchema ref extractSubSchemas schemas).2 <> Ret (Some err).
Proof.
  intros H.
  apply walkSchema_error_answered in H as (labels & seen & st0 & rep & e & H & _).
  unfold extractSubSchemas in H.
  destruct (Value seen) as [s|]; [|discriminate].
  destruct (Extensions s !! "$id") as [[id|]|]; try discriminate.
  destruct (st0 !! strings.TrimPrefix id "#"); discriminate.
Qed.

Lemma extraction_keeps (ref : SchemaRef) (schemas : Schemas) :
  schemas ⊆ (walkSchema ref extractSubSchemas schemas).1.2.
Proof.
  apply (walkSchema_state (fun a b : Schemas => a ⊆ b)).
  - reflexivity.
  - intros a b c Hab Hbc. etrans; eassumption.
  - intros r st. unfold extractSubSchemas.
    destruct (Value r) as [s|]; [|reflexivity].
    destruct (Extensions s !! "$id") as [[id|]|]; try reflexivity.
    destruct (st !! strings.TrimPrefix id "#") eqn:E; cbn [fst]; [reflexivity|].
    apply insert_subseteq. exact E.
Qed.


(** ** Visitors that replace nothing *)

Section WalkUnchanged.

Context {St : Type}.
Variable walk : SchemaRef -> St -> walked (St := St) SchemaRef.

Lemma walkMembers_unchanged prefix ms :
  Forall (fun m => forall st, (walk m st).1.1 = m) ms ->
  forall st, (walkMembers walk prefix ms st).1.1 = ms.
Proof.
  induction 1 as [|m ms Hm _ IH]; intros st; [reflexivity|].
  destruct m as [rf [s|]]; cbn [walkMembers].
  - specialize (Hm st).
    destruct (walk (mkSchemaRef rf (Some s)) st) as [[m' st1] [[e|]|msg]];
      cbn [fst snd] in *; subst m'; try reflexivity.
    specialize (IH st1).
    destruct (walkMembers walk prefix ms st1) as [[ms' st2] res].
    cbn [fst snd] in *. subst ms'. reflexivity.
  - specialize (IH st).
    destruct (walkMembers walk prefix ms st) as [[ms' st2] res].
    cbn [fst snd] in *. subst ms'. reflexivity.
Qed.

Lemma walkProperties_unchanged props :
  Forall (fun kp : string * SchemaRef => forall st, (walk kp.2 st).1.1 = kp.2)
    props ->
  forall st, (walkProperties walk props st).1.1 = props.
Proof.
  induction 1 as [|[k p] props Hp _ IH]; intros st; [reflexivity|].
  cbn [fst snd] in Hp. destruct p as [rf [s|]]; cbn [walkProperties].
  - specialize (Hp st).
    destruct (walk (mkSchemaRef rf (Some s)) st) as [[p' st1] [[e|]|msg]];
      cbn [fst snd] in *; subst p'; try reflexivity.
    specialize (IH st1).
    destruct (walkProperties walk props st1) as [[ps' st2] res].
    cbn [fst snd] in *. subst ps'. reflexivity.
  - specialize (IH st).
    destruct (walkProperties walk props st) as [[ps' st2] res].
    cbn [fst snd] in *. subst ps'. reflexivity.
Qed.

Lemma walkItems_unchanged items :
  match items with
  | Some it => forall st, (walk it st).1.1 = it
  | None => True
  end ->
  forall st, (walkItems walk items st).1.1 = items.
Proof.
  intros Hit st. destruct items as [it|]; cbn [walkItems]; [|reflexivity].
  specialize (Hit st). destruct (walk it st) as [[it' st1] res].
  cbn [fst snd] in *. subst it'. reflexivity.
Qed.

End WalkUnchanged.

(** X3. The walk changes the schema through the replacements of the
    visitor only: with a visitor that never answers with a replacement
    and no error, [walkSchema] leaves the schema as it was, however the
    walk ends. *)
Theorem walkSchema_without_replacement {St : Type} (visitor : visitorFn St) :
  (forall ref st rep, (visitor ref st).2 <> Ret (Some rep, None)) ->
  forall ref st, (walkSchema ref visitor st).1.1 = ref.
Proof.
  intros Hvisit.
  induction ref as [r|r ext allOf anyOf oneOf items props req ty addl nt
                      HallOf HanyOf HoneOf Hitems Hprops]
    using SchemaRef_nested_ind; intros st; [reflexivity|].
  set (walk := fun m st => walkSchema m visitor st).
  pose proof (walkMembers_unchanged walk "allOf: " allOf HallOf) as S1.
  pose proof (walkMembers_unchanged walk "allOf: " anyOf HanyOf) as S2.
  pose proof (walkMembers_unchanged walk "allOf: " oneOf HoneOf) as S3.
  pose proof (walkItems_unchanged walk items Hitems) as S4.
  pose proof (walkProperties_unchanged walk props Hprops) as S5.
  cbn [walkSchema]. fold walk.
  specialize (S1 st).
  destruct (walkMembers walk "allOf: " allOf st) as [[x1 st1] res1].
  cbn [fst snd] in S1. subst x1.
  destruct res1 as [[e|]|msg]; cbn [unlessFailed fst snd]; try reflexivity.
  specialize (S2 st1).
  destruct (walkMembers walk "allOf: " anyOf st1) as [[x2 st2] res2].
  cbn [fst snd] in S2. subst x2.
  destruct res2 as [[e|]|msg]; cbn [unlessFailed fst snd]; try reflexivity.
  specialize (S3 st2).
  destruct (walkMembers walk "allOf: " oneOf st2) as [[x3 st3] res3].
  cbn [fst snd] in S3. subst x3.
  destruct res3 as [[e|]|msg]; cbn [unlessFailed fst snd]; try reflexivity.
  specialize (S4 st3).
  destruct (walkItems walk items st3) as [[x4 st4] res4].
  cbn [fst snd] in S4. subst x4.
  destruct res4 as [[e|]|msg]; cbn [unlessFailed fst snd]; try reflexivity.
  specialize (S5 st4).
  destruct (walkProperties walk props st4) as [[x5 st5] res5].
  cbn [fst snd] in S5. subst x5.
  destruct res5 as [[e|]|msg]; cbn [unlessFailed fst snd]; try reflexivity.
  unfold visit.
  match goal with
  | |- context [visitor ?seen st5] =>
      pose proof (Hvisit seen st5) as S6;
      destruct (visitor seen st5) as [st6 [[[rep|] [e|]]|msg]]
  end; cbn [fst snd] in *; try reflexivity.
  exfalso. apply (S6 rep). reflexivity.
Qed.

Lemma walkSchema_without_replacement_witness :
  (walkSchema s_test (failOn "oneOf1") []).1.1 = s_test.
Proof.
  apply (walkSchema_without_replacement (failOn "oneOf1")).
  intros ref st rep. unfold failOn. cbn [snd].
  destruct (String.eqb (idOf ref) "oneOf1"); discriminate.
Defined.

(** ** Extraction run again *)

Lemma pendingId_body r ext a1 a2 a3 it ps rq ty ad nt
    r' b1 b2 b3 it' ps' rq' ty' ad' nt' :
  pendingId (mkSchemaRef r (Some (mkSchema ext a1 a2 a3 it ps rq ty ad nt)))
  = pendingId
      (mkSchemaRef r' (Some (mkSchema ext b1 b2 b3 it' ps' rq' ty' ad' nt'))).
Proof. reflexivity. Qed.

Lemma promoted_idempotent (ref : SchemaRef) :
  promoted (promoted ref) = promoted ref.
Proof.
  induction ref as [r|r ext allOf anyOf oneOf items props req ty addl nt
                      HallOf HanyOf HoneOf Hitems Hprops]
    using SchemaRef_nested_ind; [reflexivity|].
  cbn [promoted].
  destruct (pendingId
              (mkSchemaRef r
                 (Some (mkSchema ext allOf anyOf oneOf items props req ty addl nt))))
    as [id|] eqn:Hid; [reflexivity|].
  cbn [promoted].
  rewrite (pendingId_body r ext _ _ _ _ _ _ _ _ _ r allOf anyOf oneOf items
             props req ty addl nt), Hid.
  f_equal. f_equal. f_equal.
  - rewrite map_map. apply map_ext_Forall. exact HallOf.
  - rewrite map_map. apply map_ext_Forall. exact HanyOf.
  - rewrite map_map. apply map_ext_Forall. exact HoneOf.
  - destruct items as [it|]; [|reflexivity]. cbn [option_map]. f_equal.
    exact Hitems.
  - rewrite map_map. apply map_ext_Forall.
    eapply Forall_impl; [exact Hprops|]. intros [k p] Hp. cbn [fst snd] in *.
    f_equal. exact Hp.
Qed.

Lemma idsAreStringsAmong_flat_map {A : Type}
    (f : A -> list (list string * SchemaRef)) (l : list A) :
  idsAreStringsAmong (flat_map f l) = forallb (fun x => idsAreStringsAmong (f x)) l.
Proof.
  induction l as [|x l IH]; [reflexivity|].
  cbn [flat_map forallb]. rewrite idsAreStringsAmong_app, IH. reflexivity.
Qed.

Lemma promoted_idsAreStrings (ref : SchemaRef) :
  idsAreStrings ref = true -> idsAreStrings (promoted ref) = true.
Proof.
  unfold idsAreStrings.
  induction ref as [r|r ext allOf anyOf oneOf items props req ty addl nt
                      HallOf HanyOf HoneOf Hitems Hprops]
    using SchemaRef_nested_ind; [reflexivity|].
  intros H. cbn [promoted].
  destruct (pendingId
              (mkSchemaRef r
                 (Some (mkSchema ext allOf anyOf oneOf items props req ty addl nt))))
    as [id|] eqn:Hid; [reflexivity|].
  cbn [visitOrder] in *.
  rewrite !idsAreStringsAmong_app, !idsAreStringsAmong_under,
    !idsAreStringsAmong_flat_map in *.
  repeat (apply andb_prop in H as [? H]).
  repeat (apply andb_true_intro; split).
  - rewrite forallb_forall in *. rewrite Forall_forall in HallOf.
    intros x Hx. apply in_map_iff in Hx as (y & <- & Hy).
    apply HallOf; [apply list_elem_of_In; exact Hy | auto].
  - rewrite forallb_forall in *. rewrite Forall_forall in HanyOf.
    intros x Hx. apply in_map_iff in Hx as (y & <- & Hy).
    apply HanyOf; [apply list_elem_of_In; exact Hy | auto].
  - rewrite forallb_forall in *. rewrite Forall_forall in HoneOf.
    intros x Hx. apply in_map_iff in Hx as (y & <- & Hy).
    apply HoneOf; [apply list_elem_of_In; exact Hy | auto].
  - destruct items as [it|]; [|reflexivity]. cbn [option_map]. auto.
  - rewrite forallb_forall in *. rewrite Forall_forall in Hprops.
    intros x Hx. apply in_map_iff in Hx as (y & <- & Hy). cbn [fst snd].
    rewrite idsAreStringsAmong_under.
    match goal with
    | Hp : forall x, In x props -> _ |- _ =>
        specialize (Hp y Hy); rewrite idsAreStringsAmong_under in Hp
    end.
    apply Hprops; [apply list_elem_of_In; exact Hy | assumption].
  - assumption.
  - reflexivity.
Qed.

(** X4. Extraction is idempotent: a second walk with the extraction
    visitor over the schema that the first one left changes neither the
    schema nor the table. *)
Theorem extraction_idempotent (ref : SchemaRef) (schemas : Schemas) :
  idsAreStrings ref = true ->
  exists schemas',
    walkSchema ref extractSubSchemas schemas = (promoted ref, schemas', Ret None)
    /\ walkSchema (promoted ref) extractSubSchemas schemas'
       = (promoted ref, schemas', Ret None).
Proof.
  intros Hids.
  destruct (walkSchema_extracts ref Hids schemas) as (schemas1 & E1 & _).
  destruct (walkSchema_extracts (promoted ref) (promoted_idsAreStrings ref Hids)
              schemas1) as (schemas2 & E2 & X2).
  exists schemas1. split; [exact E1|].
  rewrite E2, promoted_idempotent. f_equal. f_equal.
  fold (stampedNodes (promoted ref)) in X2. rewrite promoted_no_stamp in X2.
  destruct X2 as (Hkeep & _ & Hnew).
  apply map_eq. intros id.
  destruct (schemas2 !! id) as [entry|] eqn:E.
  - destruct (Hnew id entry E) as [H|H]; [exact (eq_sym H)|].
    apply elem_of_nil in H. destruct H.
  - destruct (schemas1 !! id) as [entry|] eqn:E'; [|reflexivity].
    apply Hkeep in E'. congruence.
Qed.

Lemma extraction_idempotent_witness :
  exists schemas',
    walkSchema s_dedup1 extractSubSchemas ∅
    = (promoted s_dedup1, schemas', Ret None)
    /\ walkSchema (promoted s_dedup1) extractSubSchemas schemas'
       = (promoted s_dedup1, schemas', Ret None).
Proof. apply (extraction_idempotent s_dedup1 ∅). reflexivity. Defined.

(** ** The customizer flow *)

Lemma newCustomizerFlow_cons {U : Type} (p : @SchemaCustomizer U) rest
    name t tag schema w :
  newCustomizerFlow (p :: rest) name t tag schema w
  = match p name t tag schema w with
    | (w, Ret (schema, _, Some err)) => (w, Ret (schema, Some err))
    | (w, Ret (schema, true, None)) => (w, Ret (schema, None))
    | (w, Ret (schema, false, None)) =>
        newCustomizerFlow rest name t tag schema w
    | (w, Panic msg) => (w, Panic msg)
    end.
Proof. reflexivity. Qed.

Lemma newCustomizerFlow_app {U : Type} (ps qs : list (@SchemaCustomizer U))
    name t tag : forall schema w,
  newCustomizerFlow (ps ++ qs) name t tag schema w
  = match passes ps name t tag schema w with
    | Some (schema', w') => newCustomizerFlow qs name t tag schema' w'
    | None => newCustomizerFlow ps name t tag schema w
    end.
Proof.
  induction ps as [|p ps IH]; intros schema w; [reflexivity|].
  cbn [app passes]. rewrite !newCustomizerFlow_cons.
  destruct (p name t tag schema w) as [w' [[[s' [|]] [e|]]|msg]];
    try reflexivity.
  apply IH.
Qed.

(** X5. The pipes of a flow run in order, each on the schema and the
    world that the one before left, and the flow ends with the first
    pipe that stops it, fails or panics: a flow of [ps ++ qs] is the
    flow of [qs] after [ps] when every pipe of [ps] passes, and the flow
    of [ps] alone otherwise, whatever [qs] holds. *)
Theorem customizerFlow_composition {U : Type}
    (ps qs : list (@SchemaCustomizer U)) name t tag schema w :
  newCustomizerFlow (ps ++ qs) name t tag schema w
  = match passes ps name t tag schema w with
    | Some (schema', w') => newCustomizerFlow qs name t tag schema' w'
    | None => newCustomizerFlow ps name t tag schema w
    end.
Proof. apply newCustomizerFlow_app. Qed.

Section FlowOrder.

Context {U : Type}.
Variable JSONSchema :
  GoType -> option (@World U -> @World U * (option SchemaRef * option error)).
Variable val : GoType.
Variable settings : @reflectSettings U.
Variables (name : string) (t : GoType) (tag : string).

Lemma flowOf_passes schema w s1 w1 :
  passes ([setID val (typeNamer settings)] ++ customizers settings)
    name t tag schema w = Some (s1, w1) ->
  flowOf JSONSchema val settings name t tag schema w
  = newCustomizerFlow
      [tryMap (mapper settings); useCutomType JSONSchema;
       markPropertiesRequired] name t tag s1 w1.
Proof.
  intros H. unfold flowOf. rewrite newCustomizerFlow_app, H. reflexivity.
Qed.

End FlowOrder.

(** X6. The mapper comes after [setID] and the caller's customizers
    and before everything else: when those pass and the mapper has a
    schema for the type, the flow ends with that schema as it is.  What
    [setID] and the customizers did to the schema is dropped with it, no
    [JSONSchema] method is called and no property is marked required. *)
Theorem customizerFlow_mapped {U : Type}
    (JSONSchema :
       GoType ->
       option (@World U -> @World U * (option SchemaRef * option error)))
    (val : GoType) (settings : @reflectSettings U)
    (name : string) (t : GoType) (tag : string) (schema : Schema)
    (w : @World U) (s1 : Schema) (w1 w2 : @World U)
    (m : @SchemaMapper U) (mapped : Schema) :
  passes ([setID val (typeNamer settings)] ++ customizers settings)
    name t tag schema w = Some (s1, w1) ->
  mapper settings = Some m ->
  m t w1 = (w2, Some mapped) ->
  flowOf JSONSchema val settings name t tag schema w = (w2, Ret (mapped, None)).
Proof.
  intros Hpass Hm Hmapped.
  rewrite (flowOf_passes _ _ _ _ _ _ _ _ _ _ Hpass), newCustomizerFlow_cons.
  unfold tryMap. rewrite Hm, Hmapped. reflexivity.
Qed.

Lemma customizerFlow_mapped_witness :
  flowOf (fun _ => None) t_dedup1 dupSettings "Dup1" t_dup ""
    (mkSchema ∅ [] [] [] None [] [] "object" None None) (∅, 0%nat)
  = ((∅, 0%nat), Ret (mkSchema ∅ [] [] [] None [] [] "string" None None, None)).
Proof.
  eapply (customizerFlow_mapped (fun _ => None) t_dedup1 dupSettings "Dup1"
            t_dup "" _ _ _ _ _ dupMapper); reflexivity.
Defined.

(** X7. A type with a [JSONSchema] method that the mapper does not map
    gets the body of the schema that the method returns, and the flow
    ends there, no property marked required; an error of the method ends
    the flow with that error behind [failed to generate custom schema for
    <type name>: ]. *)
Theorem customizerFlow_provider {U : Type}
    (JSONSchema :
       GoType ->
       option (@World U -> @World U * (option SchemaRef * option error)))
    (val : GoType) (settings : @reflectSettings U)
    (name : string) (t : GoType) (tag : string) (schema : Schema)
    (w : @World U) (s1 : Schema) (w1 w2 : @World U)
    (provider : @World U -> @World U * (option SchemaRef * option error)) :
  passes ([setID val (typeNamer settings)] ++ customizers settings)
    name t tag schema w = Some (s1, w1) ->
  match mapper settings with
  | Some m => m t w1 = (w2, None)
  | None => w2 = w1
  end ->
  JSONSchema t = Some provider ->
  (forall w3 r custom,
     provider w2 = (w3, (Some (mkSchemaRef r (Some custom)), None)) ->
     flowOf JSONSchema val settings name t tag schema w
     = (w3, Ret (custom, None)))
  /\ (forall w3 returned err,
        provider w2 = (w3, (returned, Some err)) ->
        flowOf JSONSchema val settings name t tag schema w
        = (w3, Ret (s1, Some (ErrWrap ("failed to generate custom schema for "
                                        +:+ TypeName t +:+ ": ") err)))).
Proof.
  intros Hpass Hm Hp.
  rewrite (flowOf_passes _ _ _ _ _ _ _ _ _ _ Hpass), newCustomizerFlow_cons.
  assert (Hmap : tryMap (mapper settings) name t tag s1 w1
                 = (w2, Ret (s1, false, None))).
  { unfold tryMap. destruct (mapper settings) as [m|]; [|subst; reflexivity].
    rewrite Hm. reflexivity. }
  rewrite Hmap, newCustomizerFlow_cons. unfold useCutomType. rewrite Hp.
  split.
  - intros w3 r custom ->. reflexivity.
  - intros w3 returned err ->. destruct returned as [[r [c|]]|]; reflexivity.
Qed.

Lemma customizerFlow_provider_witness :
  flowOf failingProvider t_dedup1 countingSettings "Dup1" t_dup ""
    (mkSchema ∅ [] [] [] None [] [] "object" None None) (∅, 0%nat)
  = ((∅, 1%nat),
     Ret (mkSchema {["$id" := ExtString "#github.com.pbedat.expose.dup"]}
            [] [] [] None [] [] "object" None None,
          Some (ErrWrap "failed to generate custom schema for dup: "
                  (ErrNew "no schema")))).
Proof.
  eapply (customizerFlow_provider failingProvider t_dedup1 countingSettings
            "Dup1" t_dup "" _ _ _ _ (∅, 1%nat)); reflexivity.
Defined.

(** X8. For a type that the mapper does not map and that has no
    [JSONSchema] method, the flow returns the schema that [setID] and the
    customizers left, with the required properties of the type appended
    to the ones it lists already. *)
Theorem customizerFlow_required {U : Type}
    (JSONSchema :
       GoType ->
       option (@World U -> @World U * (option SchemaRef * option error)))
    (val : GoType) (settings : @reflectSettings U)
    (name : string) (t : GoType) (tag : string) (schema : Schema)
    (w : @World U) (s1 : Schema) (w1 w2 : @World U) :
  passes ([setID val (typeNamer settings)] ++ customizers settings)
    name t tag schema w = Some (s1, w1) ->
  match mapper settings with
  | Some m => m t w1 = (w2, None)
  | None => w2 = w1
  end ->
  JSONSchema t = None ->
  flowOf JSONSchema val settings name t tag schema w
  = (w2, Ret (with_Required s1 (Required s1 ++ getRequiredProps t), None)).
Proof.
  intros Hpass Hm Hp.
  rewrite (flowOf_passes _ _ _ _ _ _ _ _ _ _ Hpass), newCustomizerFlow_cons.
  assert (Hmap : tryMap (mapper settings) name t tag s1 w1
                 = (w2, Ret (s1, false, None))).
  { unfold tryMap. destruct (mapper settings) as [m|]; [|subst; reflexivity].
    rewrite Hm. reflexivity. }
  rewrite Hmap, newCustomizerFlow_cons. unfold useCutomType. rewrite Hp.
  reflexivity.
Qed.

Lemma customizerFlow_required_witness :
  flowOf (fun _ => None) t_dedup1 countingSettings "Dup1" t_dup ""
    (mkSchema ∅ [] [] [] None [] ["Bar"] "object" None None) (∅, 0%nat)
  = ((∅, 1%nat),
     Ret (mkSchema {["$id" := ExtString "#github.com.pbedat.expose.dup"]}
            [] [] [] None [] ["Bar"; "Foo"] "object" None None, None)).
Proof.
  apply (customizerFlow_required (fun _ => None) t_dedup1 countingSettings
           "Dup1" t_dup "" _ _
           (mkSchema {["$id" := ExtString "#github.com.pbedat.expose.dup"]}
              [] [] [] None [] ["Bar"] "object" None None)
           (∅, 0%nat) (∅, 1%nat)); reflexivity.
Defined.

(** ** The stamp of [setID] *)

Lemma TrimPrefix_stamp (id : string) : strings.TrimPrefix ("#" +:+ id) "#" = id.
Proof. reflexivity. Qed.

(** X9. The stamp round trip: on a struct type other than the main
    type, [setID] writes [# + namer t] under [$id], over whatever was
    there, and the extraction visitor files the stamped node under
    [namer t] exactly, also when the identifier itself starts with [#];
    the schema of the main type, of the type it points to and of a type
    that is no struct is left as it is. *)
Theorem setID_extracted {U : Type} (mainType : GoType)
    (namer : SchemaIdentifier) (name : string) (t : GoType) (tag : string)
    (schema : Schema) (w : @World U) :
  let mainStructType :=
    match mainType with TPointer e => e | _ => mainType end in
  (kind t = KStruct -> GoType_eqb t mainStructType = false ->
   exists schema',
     setID mainType namer name t tag schema w = (w, Ret (schema', false, None))
     /\ forall r schemas,
          extractSubSchemas (mkSchemaRef r (Some schema')) schemas
          = (match schemas !! namer t with
             | Some _ => schemas
             | None => <[namer t := mkSchemaRef r (Some schema')]> schemas
             end,
             Ret (Some (reference (namer t)), None)))
  /\ (kind t <> KStruct \/ GoType_eqb t mainStructType = true ->
      setID mainType namer name t tag schema w = (w, Ret (schema, false, None))).
Proof.
  intros mainStructType. split.
  - intros Hkind Hmain.
    destruct (setID_stamps mainType namer name t tag schema w "" Hkind Hmain)
      as (schema' & E & Hid).
    exists schema'. split; [exact E|]. intros r schemas.
    unfold pendingId in Hid. cbn [Value] in Hid.
    unfold extractSubSchemas. cbn [Value].
    destruct (Extensions schema' !! "$id") as [[id|]|]; try discriminate.
    injection Hid as Hid. rewrite Hid.
    destruct (schemas !! namer t); reflexivity.
  - intros H. unfold setID. fold mainStructType.
    destruct H as [H| ->]; [|reflexivity].
    destruct (kind t); try congruence; rewrite andb_false_r; reflexivity.
Qed.

Lemma setID_extracted_witness :
  exists schema',
    setID (TPointer t_dedup1) DefaultSchemaIdentifier "Dup1" t_dup ""
      (mkSchema ∅ [] [] [] None [] [] "object" None None) (∅, 0%nat)
    = ((∅, 0%nat), Ret (schema', false, None))
    /\ forall r schemas,
         extractSubSchemas (mkSchemaRef r (Some schema')) schemas
         = (match schemas !! "github.com.pbedat.expose.dup" with
            | Some _ => schemas
            | None =>
                <["github.com.pbedat.expose.dup"
                  := mkSchemaRef r (Some schema')]> schemas
            end,
            Ret (Some (reference "github.com.pbedat.expose.dup"), None)).
Proof.
  apply (setID_extracted (TPointer t_dedup1) DefaultSchemaIdentifier "Dup1"
           t_dup "" (mkSchema ∅ [] [] [] None [] [] "object" None None) (∅, 0%nat));
    reflexivity.
Defined.

(** ** The schema builder: what it registers *)

Section Builder.

Context {U : Type}.
Variable NewSchemaRefForValue :
  @SchemaCustomizerFn U -> GoType -> @World U ->
  @World U * go (SchemaRef + error).
Variable JSONSchema :
  GoType -> option (@World U -> @World U * (option SchemaRef * option error)).

Local Abbreviation build :=
  (reflectSchema NewSchemaRefForValue JSONSchema).

(** [reflectSchema] on an identifier that the table does not hold, by
    what the generator answers. *)
Lemma reflectSchema_generated val w settings :
  w.1 !! typeNamer settings val = None ->
  build val w settings
  = (let id := typeNamer settings val in
     let '(w0, generated) :=
       NewSchemaRefForValue (flowOf JSONSchema val settings) val w in
     match generated with
     | Panic msg => (w0, Panic msg)
     | Ret (inr err) => (w0, Ret (inr (failedToReflect val err)))
     | Ret (inl ref) =>
         if negb (skipExtractSubSchemas settings)
            && match Value ref with Some _ => true | None => false end
         then
           let '(ref', schemas, res) :=
             walkSchema ref extractSubSchemas (<[id := ref]> w0.1) in
           match res with
           | Ret None => ((<[id := ref']> schemas, w0.2), Ret (inl (reference id)))
           | Ret (Some err) =>
               ((<[id := ref']> schemas, w0.2),
                Ret (inr (failedToReflect val err)))
           | Panic msg => ((<[id := ref']> schemas, w0.2), Panic msg)
           end
         else ((<[id := ref]> w0.1, w0.2), Ret (inl (reference id)))
     end).
Proof.
  intros Hnew. unfold reflectSchema, flowOf. rewrite Hnew.
  cbv zeta.
  destruct (NewSchemaRefForValue _ val w) as [[schemas0 u0] [[ref|e]|msg]];
    reflexivity.
Qed.

Lemma reflectSchema_known val w settings entry :
  w.1 !! typeNamer settings val = Some entry ->
  build val w settings = (w, Ret (inl (reference (typeNamer settings val)))).
Proof. intros H. unfold reflectSchema. rewrite H. reflexivity. Qed.

(** A successful call returns the reference to the identifier, which
    the table then holds. *)
Lemma reflectSchema_registered val w settings w1 ref :
  build val w settings = (w1, Ret (inl ref)) ->
  ref = reference (typeNamer settings val)
  /\ is_Some (w1.1 !! typeNamer settings val).
Proof.
  destruct (w.1 !! typeNamer settings val) as [entry|] eqn:Hid.
  - rewrite (reflectSchema_known _ _ _ _ Hid). intros H.
    injection H as <- <-. split; [reflexivity | exists entry; exact Hid].
  - rewrite (reflectSchema_generated _ _ _ Hid). cbv zeta.
    destruct (NewSchemaRefForValue _ val w) as [w0 [[ref0|e]|msg]];
      try discriminate.
    destruct (negb (skipExtractSubSchemas settings) && _).
    + destruct (walkSchema ref0 extractSubSchemas _) as [[ref' schemas] res].
      destruct res as [[e|]|msg]; try discriminate.
      intros H. injection H as <- <-. split; [reflexivity|].
      cbn [fst]. rewrite lookup_insert_eq. eexists; reflexivity.
    + intros H. injection H as <- <-. split; [reflexivity|].
      cbn [fst]. rewrite lookup_insert_eq. eexists; reflexivity.
Qed.

End Builder.

(** [reflectSchema] fails exactly when the generator does. *)
Lemma reflectSchema_failure {U : Type}
    (NewSchemaRefForValue :
       @SchemaCustomizerFn U -> GoType -> @World U ->
       @World U * go (SchemaRef + error))
    (JSONSchema :
       GoType ->
       option (@World U -> @World U * (option SchemaRef * option error)))
    (val : GoType) (w : @World U) (settings : reflectSettings)
    (w' : @World U) (err : error) :
  reflectSchema NewSchemaRefForValue JSONSchema val w settings
  = (w', Ret (inr err))
  <-> (w.1 !! typeNamer settings val = None
       /\ exists e,
            NewSchemaRefForValue (flowOf JSONSchema val settings) val w
            = (w', Ret (inr e))
            /\ err = failedToReflect val e).
Proof.
  split.
  - destruct (w.1 !! typeNamer settings val) as [entry|] eqn:Hid.
    + rewrite (reflectSchema_known _ _ _ _ _ _ Hid). discriminate.
    + rewrite (reflectSchema_generated _ _ _ _ _ Hid). cbv zeta.
      destruct (NewSchemaRefForValue _ val w) as [w0 [[ref0|e]|msg]];
        try discriminate.
      * destruct (negb (skipExtractSubSchemas settings) && _);
          [|discriminate].
        pose proof (extraction_no_error ref0
                      (<[typeNamer settings val := ref0]> w0.1)) as Hno.
        destruct (walkSchema ref0 extractSubSchemas _) as [[ref' schemas] res].
        destruct res as [[e|]|msg]; try discriminate.
        exfalso. exact (Hno e eq_refl).
      * intros H. injection H as <- <-. split; [reflexivity|].
        exists e. split; reflexivity.
  - intros (Hid & e & Hgen & ->).
    rewrite (reflectSchema_generated _ _ _ _ _ Hid). cbv zeta.
    rewrite Hgen. reflexivity.
Qed.

(** X10. [reflectSchema] fails exactly when the generator does: the
    walk that extracts the sub schemas never returns an error.  The
    error is the generator's behind [failed to reflect schema <type>; ],
    and the table is as the generator left it, with nothing filed under
    the identifier of the type. *)
Theorem reflectSchema_error {U : Type}
    (NewSchemaRefForValue :
       @SchemaCustomizerFn U -> GoType -> @World U ->
       @World U * go (SchemaRef + error))
    (JSONSchema :
       GoType ->
       option (@World U -> @World U * (option SchemaRef * option error)))
    (val : GoType) (w : @World U) (settings : reflectSettings)
    (w' : @World U) (err : error) :
  reflectSchema NewSchemaRefForValue JSONSchema val w settings
  = (w', Ret (inr err))
  <-> (w.1 !! typeNamer settings val = None
       /\ exists e,
            NewSchemaRefForValue (flowOf JSONSchema val settings) val w
            = (w', Ret (inr e))
            /\ err = failedToReflect val e).
Proof. apply reflectSchema_failure. Qed.

Lemma reflectSchema_error_witness :
  reflectSchema structuralGenerator failingProvider t_dedup1 (∅, 0%nat)
    countingSettings
  = ((∅, 2%nat),
     Ret (inr (failedToReflect t_dedup1
                 (ErrWrap "failed to generate custom schema for dup: "
                    (ErrNew "no schema"))))).
Proof.
  apply (reflectSchema_error structuralGenerator failingProvider t_dedup1
           (∅, 0%nat) countingSettings).
  split; [reflexivity|]. eexists. split; reflexivity.
Defined.

(** X11. What a new type leaves in the table.  When the table does
    not hold the identifier of the type and the generator returns a
    schema whose [$id]s, at the nodes that the walk visits, are strings,
    [reflectSchema] succeeds; the table then holds under the identifier
    the schema with every stamped node that the walk visits (those
    nested through [allOf], [anyOf], [oneOf], [items] and [properties])
    replaced by its reference, and the schema as generated when
    extraction is skipped; it holds an entry for the identifier of each
    of these nodes and the other entries of the generator's table
    unchanged; nothing else is added.  Stamped schemas under
    [AdditionalProperties] and [Not] are left in place and add no
    entry. *)
Theorem reflectSchema_registers {U : Type}
    (NewSchemaRefForValue :
       @SchemaCustomizerFn U -> GoType -> @World U ->
       @World U * go (SchemaRef + error))
    (JSONSchema :
       GoType ->
       option (@World U -> @World U * (option SchemaRef * option error)))
    (val : GoType) (w : @World U) (settings : reflectSettings)
    (w0 : @World U) (ref0 : SchemaRef) :
  let id := typeNamer settings val in
  w.1 !! id = None ->
  NewSchemaRefForValue (flowOf JSONSchema val settings) val w
  = (w0, Ret (inl ref0)) ->
  idsAreStrings ref0 = true ->
  exists schemas',
    reflectSchema NewSchemaRefForValue JSONSchema val w settings
    = ((schemas', w0.2), Ret (inl (reference id)))
    /\ schemas' !! id
       = Some (if skipExtractSubSchemas settings then ref0 else promoted ref0)
    /\ (forall k entry, k <> id -> w0.1 !! k = Some entry ->
                        schemas' !! k = Some entry)
    /\ (skipExtractSubSchemas settings = false ->
        forall k, k ∈ (stampedNodes ref0).*1 -> is_Some (schemas' !! k))
    /\ (forall k entry, schemas' !! k = Some entry ->
          k = id \/ w0.1 !! k = Some entry
          \/ (skipExtractSubSchemas settings = false
              /\ (k, entry) ∈ stampedNodes ref0)).
Proof.
  intros id Hid Hgen Hids.
  rewrite (reflectSchema_generated _ _ _ _ _ Hid). cbv zeta. rewrite Hgen.
  fold id.
  destruct (skipExtractSubSchemas settings) eqn:Eskip; cbn [negb andb].
  - exists (<[id := ref0]> w0.1). split; [reflexivity|].
    split; [apply lookup_insert_eq|].
    split; [intros k entry Hne Hk; rewrite lookup_insert_ne by congruence;
            exact Hk|].
    split; [discriminate|].
    intros k entry Hk. destruct (decide (id = k)) as [<-|Hne]; [left; reflexivity|].
    rewrite lookup_insert_ne in Hk by exact Hne. right. left. exact Hk.
  - destruct (Value ref0) as [body|] eqn:Hbody.
    + destruct (walkSchema_extracts ref0 Hids (<[id := ref0]> w0.1))
        as (schemas1 & E & Hkeep & Hall & Hnew).
      rewrite E. fold (stampedNodes ref0) in Hall, Hnew.
      exists (<[id := promoted ref0]> schemas1). split; [reflexivity|].
      split; [apply lookup_insert_eq|].
      split.
      { intros k entry Hne Hk. rewrite lookup_insert_ne by congruence.
        apply Hkeep. rewrite lookup_insert_ne by congruence. exact Hk. }
      split.
      { intros _ k Hk. destruct (decide (id = k)) as [<-|Hne].
        - rewrite lookup_insert_eq. eexists; reflexivity.
        - rewrite lookup_insert_ne by exact Hne. apply Hall. exact Hk. }
      intros k entry Hk. destruct (decide (id = k)) as [<-|Hne];
        [left; reflexivity|].
      rewrite lookup_insert_ne in Hk by exact Hne.
      destruct (Hnew k entry Hk) as [H|H].
      * rewrite lookup_insert_ne in H by exact Hne. right. left. exact H.
      * right. right. split; [reflexivity | exact H].
    + assert (Hsame : promoted ref0 = ref0).
      { destruct ref0 as [r [b|]]; [discriminate | reflexivity]. }
      assert (Hnone : stampedNodes ref0 = []).
      { destruct ref0 as [r [b|]]; [discriminate | reflexivity]. }
      rewrite Hsame, Hnone.
      exists (<[id := ref0]> w0.1). split; [reflexivity|].
      split; [apply lookup_insert_eq|].
      split; [intros k entry Hne Hk; rewrite lookup_insert_ne by congruence;
              exact Hk|].
      split; [intros _ k Hk; apply elem_of_nil in Hk; destruct Hk|].
      intros k entry Hk. destruct (decide (id = k)) as [<-|Hne];
        [left; reflexivity|].
      rewrite lookup_insert_ne in Hk by exact Hne. right. left. exact Hk.
Qed.

Lemma reflectSchema_registers_witness :
  exists schemas',
    reflectSchema structuralGenerator (fun _ => None) t_dedup1 (∅, 0%nat)
      countingSettings
    = ((schemas', 3%nat),
       Ret (inl (reference "github.com.pbedat.expose.dedup1")))
    /\ schemas' !! "github.com.pbedat.expose.dedup1" = Some (promoted s_dedup1)
    /\ is_Some (schemas' !! "github.com.pbedat.expose.dup").
Proof.
  destruct (reflectSchema_registers structuralGenerator (fun _ => None)
              t_dedup1 (∅, 0%nat) countingSettings (∅, 3%nat) s_dedup1)
    as (schemas' & E & Hroot & _ & Hall & _);
    [reflexivity | vm_compute; reflexivity | reflexivity |].
  exists schemas'. split; [exact E|]. split; [exact Hroot|].
  apply Hall; [reflexivity|]. vm_compute. apply list_elem_of_here.
Defined.

(** X12. The default identifiers do not tell every two types apart: a
    slice of a struct type [T] has the identifier of the struct type
    [TList] of the same package.  Once one of the two is reflected, the
    other one is taken for known: [reflectSchema] returns the same
    reference without generating anything, and the table is left as it
    is. *)
Theorem identifier_collision {U : Type}
    (NewSchemaRefForValue :
       @SchemaCustomizerFn U -> GoType -> @World U ->
       @World U * go (SchemaRef + error))
    (JSONSchema :
       GoType ->
       option (@World U -> @World U * (option SchemaRef * option error)))
    (pkgPath name : string) (str1 str2 : string)
    (fields1 fields2 : list StructField)
    (w w1 : @World U) (settings : reflectSettings) (ref : SchemaRef) :
  let elems := TSlice (TStruct pkgPath name str1 fields1) in
  let list := TStruct pkgPath (name +:+ "List") str2 fields2 in
  typeNamer settings = DefaultSchemaIdentifier ->
  reflectSchema NewSchemaRefForValue JSONSchema elems w settings
  = (w1, Ret (inl ref)) ->
  reflectSchema NewSchemaRefForValue JSONSchema list w1 settings
  = (w1, Ret (inl ref)).
Proof.
  intros elems list Hnamer Hfirst.
  apply reflectSchema_registered in Hfirst as [-> [entry Hentry]].
  assert (Hsame : typeNamer settings list = typeNamer settings elems).
  { rewrite Hnamer. unfold list, elems. cbn [DefaultSchemaIdentifier].
    destruct (String.eqb pkgPath ""); cbn [PkgPath TypeName];
      rewrite ?append_assoc; reflexivity. }
  rewrite <- Hsame in Hentry |- *.
  apply (reflectSchema_known _ _ _ _ _ _ Hentry).
Qed.

Lemma identifier_collision_witness :
  exists w1 ref,
    reflectSchema structuralGenerator (fun _ => None) (TSlice t_dup)
      (∅, 0%nat) countingSettings = (w1, Ret (inl ref))
    /\ reflectSchema structuralGenerator (fun _ => None)
         (TStruct "github.com/pbedat/expose" "dupList" "expose.dupList"
            [mkField "Items" false "" (TSlice t_int)])
         w1 countingSettings = (w1, Ret (inl ref)).
Proof.
  destruct (reflectSchema structuralGenerator (fun _ => None) (TSlice t_dup)
              (∅, 0%nat) countingSettings) as [w1 [[ref|e]|msg]] eqn:E;
    [|vm_compute in E; discriminate..].
  exists w1, ref. split; [reflexivity|].
  exact (identifier_collision structuralGenerator (fun _ => None)
           "github.com/pbedat/expose" "dup" "expose.dup" "expose.dupList"
           [mkField "Foo" false "" t_string]
           [mkField "Items" false "" (TSlice t_int)]
           (∅, 0%nat) w1 countingSettings ref eq_refl E).
Defined.

(** ** The document assembler: operations, template and components *)

Lemma othersAt_AddOperation paths path op p :
  othersAt (AddOperation paths path op) p = othersAt paths p.
Proof.
  unfold othersAt, AddOperation.
  destruct (decide (path = p)) as [->|Hne].
  - rewrite lookup_insert_eq. destruct (paths !! p); reflexivity.
  - rewrite lookup_insert_ne by exact Hne. reflexivity.
Qed.

Section Document.

Context {U : Type}.
Variable NewSchemaRefForValue :
  @SchemaCustomizerFn U -> GoType -> @World U ->
  @World U * go (SchemaRef + error).
Variable JSONSchema :
  GoType -> option (@World U -> @World U * (option SchemaRef * option error)).

Local Abbreviation build :=
  (reflectSchema NewSchemaRefForValue JSONSchema).
Local Abbreviation operation :=
  (reflectOperation NewSchemaRefForValue JSONSchema).
Local Abbreviation operations :=
  (reflectOperations NewSchemaRefForValue JSONSchema).

Lemma ReflectSpec_settingsOf root fns opts u :
  ReflectSpec NewSchemaRefForValue JSONSchema root fns opts u
  = match operations (settingsOf opts) fns (Paths root) (∅, u) with
    | ((_, u), Panic msg) => (u, Panic msg)
    | ((_, u), Ret (inr err)) =>
        (u, Ret (inr (ErrWrap "failed to reflect openapi spec: " err)))
    | ((components, u), Ret (inl paths)) =>
        (u, Ret (inl (mkT "3.0.2"
                        (match Components root with
                         | None => Some components
                         | Some c => Some c
                         end)
                        paths)))
    end.
Proof. reflexivity. Qed.

(** A step of the loop that succeeds: the operation added, and the
    identifiers that the table holds afterwards. *)
Lemma reflectOperation_step settings fn paths w w' paths' :
  operation settings fn paths w = (w', Ret (inl paths')) ->
  exists m,
    Module fn = Ret m
    /\ paths' = AddOperation paths (Path fn) (operationOf settings fn m)
    /\ is_Some (w'.1 !! typeNamer settings (Res fn)).
Proof.
  unfold reflectOperation, operationOf.
  destruct (Module fn) as [m|msg] eqn:Hm; [|discriminate].
  destruct (GoType_eqb (Req fn) Void); cbn [negb].
  - destruct (build (Res fn) w settings) as [w2 [[r2|e]|msg]] eqn:E2;
      try discriminate.
    apply reflectSchema_registered in E2 as [-> Hres].
    intros [= <- <-]. exists m. auto.
  - destruct (build (Req fn) w settings) as [w1 [[r|e]|msg]] eqn:E1;
      try discriminate.
    destruct (build (Res fn) w1 settings) as [w2 [[r2|e]|msg]] eqn:E2;
      try discriminate.
    apply reflectSchema_registered in E1 as [-> _].
    apply reflectSchema_registered in E2 as [-> Hres].
    intros [= <- <-]. exists m. auto.
Qed.

Lemma reflectOperations_items settings fns : forall paths w w' paths',
  operations settings fns paths w = (w', Ret (inl paths')) ->
  forall p,
    ((p ∉ map Path fns) /\ paths' !! p = paths !! p)
    \/ (exists before fn after m,
          fns = (before ++ fn :: after)%list /\ Path fn = p
          /\ (p ∉ map Path after)
          /\ Module fn = Ret m
          /\ paths' !! p
             = Some (mkPathItem (Some (operationOf settings fn m))
                       (othersAt paths p))).
Proof.
  induction fns as [|fn fns IH]; intros paths w w' paths' Hrun p.
  - simpl in Hrun. injection Hrun as <- <-. left. split; [|reflexivity].
    apply not_elem_of_nil.
  - simpl in Hrun.
    destruct (operation settings fn paths w) as [w1 [[paths1|e]|msg]]
      eqn:Hstep; try discriminate.
    destruct (reflectOperation_step _ _ _ _ _ _ Hstep) as (m & Hm & -> & _).
    destruct (IH _ _ _ _ Hrun p) as [[Hnot Hkeep] | Hlater].
    + destruct (decide (Path fn = p)) as [Heq | Hne].
      * right. exists [], fn, fns, m.
        split; [reflexivity|]. split; [exact Heq|]. split; [exact Hnot|].
        split; [exact Hm|].
        rewrite Hkeep. unfold AddOperation, othersAt. rewrite Heq.
        rewrite lookup_insert_eq. destruct (paths !! p); reflexivity.
      * left. split.
        -- simpl. rewrite not_elem_of_cons. auto.
        -- rewrite Hkeep. unfold AddOperation.
           now rewrite lookup_insert_ne.
    + right. destruct Hlater as (before & fn' & after & m' & -> & H).
      exists (fn :: before), fn', after, m'. split; [reflexivity|].
      rewrite othersAt_AddOperation in H. exact H.
Qed.

(** The loop fails with the error of a failed [reflectSchema], for the
    request or the result type of one of the functions. *)
Lemma reflectOperations_failed settings fns : forall paths w w' err,
  operations settings fns paths w = (w', Ret (inr err)) ->
  exists fn t w0 w1,
    fn ∈ fns /\ (t = Req fn \/ t = Res fn)
    /\ build t w0 settings = (w1, Ret (inr err)).
Proof.
  induction fns as [|fn fns IH]; intros paths w w' err Hrun;
    [discriminate|].
  simpl in Hrun.
  destruct (operation settings fn paths w) as [w1 [[paths1|e]|msg]]
    eqn:Hstep; try discriminate.
  - destruct (IH _ _ _ _ Hrun) as (fn' & t & w0 & w2 & Hin & Ht & Hb).
    exists fn', t, w0, w2. split; [apply list_elem_of_further; exact Hin|].
    auto.
  - injection Hrun as <- <-. clear IH.
    unfold reflectOperation in Hstep.
    destruct (Module fn) as [m|msg]; [|discriminate].
    destruct (negb (GoType_eqb (Req fn) Void)).
    + destruct (build (Req fn) w settings) as [w2 [[r|e1]|msg]] eqn:E1;
        try discriminate.
      * destruct (build (Res fn) w2 settings) as [w3 [[r2|e2]|msg]] eqn:E2;
          try discriminate.
        injection Hstep as <- <-.
        exists fn, (Res fn), w2, w3.
        split; [apply list_elem_of_here|]. auto.
      * injection Hstep as <- <-.
        exists fn, (Req fn), w, w2.
        split; [apply list_elem_of_here|]. auto.
    + destruct (build (Res fn) w settings) as [w3 [[r2|e2]|msg]] eqn:E2;
        try discriminate.
      injection Hstep as <- <-.
      exists fn, (Res fn), w, w3.
      split; [apply list_elem_of_here|]. auto.
Qed.

Section Keys.

Variable settings : @reflectSettings U.
Hypothesis generator_keeps :
  forall val w k,
    is_Some (w.1 !! k) ->
    is_Some
      ((NewSchemaRefForValue (flowOf JSONSchema val settings) val w).1.1 !! k).

Lemma reflectSchema_keeps val w k :
  is_Some (w.1 !! k) -> is_Some ((build val w settings).1.1 !! k).
Proof.
  intros Hk.
  destruct (w.1 !! typeNamer settings val) as [entry|] eqn:Hid.
  - rewrite (reflectSchema_known _ _ _ _ _ _ Hid). exact Hk.
  - rewrite (reflectSchema_generated _ _ _ _ _ Hid). cbv zeta.
    pose proof (generator_keeps val w k Hk) as Hgen.
    destruct (NewSchemaRefForValue _ val w) as [w0 [[ref0|e]|msg]];
      cbn [fst snd] in *; try exact Hgen.
    assert (Hin : is_Some (<[typeNamer settings val := ref0]> w0.1 !! k)).
    { destruct (decide (typeNamer settings val = k)) as [->|Hne].
      - rewrite lookup_insert_eq. eexists; reflexivity.
      - rewrite lookup_insert_ne by exact Hne. exact Hgen. }
    destruct (negb (skipExtractSubSchemas settings) && _); [|exact Hin].
    pose proof (extraction_keeps ref0 (<[typeNamer settings val := ref0]> w0.1))
      as Hkeep.
    destruct (walkSchema ref0 extractSubSchemas _) as [[ref' schemas] res].
    cbn [fst snd] in Hkeep.
    assert (Hout : is_Some (<[typeNamer settings val := ref']> schemas !! k)).
    { destruct (decide (typeNamer settings val = k)) as [->|Hne].
      - rewrite lookup_insert_eq. eexists; reflexivity.
      - rewrite lookup_insert_ne by exact Hne.
        destruct Hin as [x Hx]. exists x.
        eapply lookup_weaken; eassumption. }
    destruct res as [[e|]|msg]; exact Hout.
Qed.

Lemma reflectOperation_keeps fn paths w k :
  is_Some (w.1 !! k) ->
  is_Some ((operation settings fn paths w).1.1 !! k).
Proof.
  intros Hk. unfold reflectOperation.
  destruct (Module fn) as [m|msg]; [|exact Hk].
  destruct (negb (GoType_eqb (Req fn) Void)).
  - pose proof (reflectSchema_keeps (Req fn) w k Hk) as H1.
    destruct (build (Req fn) w settings) as [w1 [[r|e1]|msg]];
      cbn [fst snd] in *; try exact H1.
    pose proof (reflectSchema_keeps (Res fn) w1 k H1) as H2.
    destruct (build (Res fn) w1 settings) as [w2 [[r2|e2]|msg]];
      cbn [fst snd] in *; exact H2.
  - pose proof (reflectSchema_keeps (Res fn) w k Hk) as H2.
    destruct (build (Res fn) w settings) as [w2 [[r2|e2]|msg]];
      cbn [fst snd] in *; exact H2.
Qed.

Lemma reflectOperations_keeps fns : forall paths w k,
  is_Some (w.1 !! k) ->
  is_Some ((operations settings fns paths w).1.1 !! k).
Proof.
  induction fns as [|fn fns IH]; intros paths w k Hk; [exact Hk|].
  simpl. pose proof (reflectOperation_keeps fn paths w k Hk) as H1.
  destruct (operation settings fn paths w) as [w1 [[paths1|e]|msg]];
    cbn [fst snd] in *; try exact H1.
  apply IH. exact H1.
Qed.

(** A step that succeeds leaves the identifiers of both types in the
    table. *)
Lemma reflectOperation_registers fn paths w w' paths' :
  operation settings fn paths w = (w', Ret (inl paths')) ->
  is_Some (w'.1 !! typeNamer settings (Res fn))
  /\ (GoType_eqb (Req fn) Void = false ->
      is_Some (w'.1 !! typeNamer settings (Req fn))).
Proof.
  intros Hstep.
  split; [destruct (reflectOperation_step _ _ _ _ _ _ Hstep)
            as (m & _ & _ & H); exact H|].
  intros Hreq. unfold reflectOperation in Hstep.
  destruct (Module fn) as [m|msg]; [|discriminate].
  rewrite Hreq in Hstep. cbn [negb] in Hstep.
  destruct (build (Req fn) w settings) as [w1 [[r|e1]|msg]] eqn:E1;
    try discriminate.
  apply reflectSchema_registered in E1 as [_ H1].
  pose proof (reflectSchema_keeps (Res fn) w1 _ H1) as H2.
  destruct (build (Res fn) w1 settings) as [w2 [[r2|e2]|msg]];
    try discriminate.
  injection Hstep as <- _. exact H2.
Qed.

Lemma reflectOperations_registers fns : forall paths w w' paths',
  operations settings fns paths w = (w', Ret (inl paths')) ->
  forall fn, fn ∈ fns ->
    is_Some (w'.1 !! typeNamer settings (Res fn))
    /\ (GoType_eqb (Req fn) Void = false ->
        is_Some (w'.1 !! typeNamer settings (Req fn))).
Proof.
  induction fns as [|fn0 fns IH]; intros paths w w' paths' Hrun fn Hin.
  - apply elem_of_nil in Hin. destruct Hin.
  - simpl in Hrun.
    destruct (operation settings fn0 paths w) as [w1 [[paths1|e]|msg]]
      eqn:Hstep; try discriminate.
    apply elem_of_cons in Hin as [->|Hin]; [|exact (IH _ _ _ _ Hrun fn Hin)].
    destruct (reflectOperation_registers _ _ _ _ _ Hstep) as [Hres Hreq].
    pose proof (reflectOperations_keeps fns paths1 w1) as Hkeep.
    rewrite Hrun in Hkeep. cbn [fst] in Hkeep. split; auto.
Qed.

End Keys.

End Document.

(** X13. In the document that [ReflectSpec] returns, the operation at
    the path of a function is the one of the function registered last at
    that path: its request body refers to the schema filed under the
    identifier of the request type, and there is no request body when
    that type is [Void]; its response refers to the schema filed under
    the identifier of the result type, [Void] included. *)
Theorem ReflectSpec_operation {U : Type}
    (NewSchemaRefForValue :
       @SchemaCustomizerFn U -> GoType -> @World U ->
       @World U * go (SchemaRef + error))
    (JSONSchema :
       GoType ->
       option (@World U -> @World U * (option SchemaRef * option error)))
    (root : T) (fns : list Function) (opts : list (option reflectSpecOpt))
    (u u' : U) (doc : T) :
  ReflectSpec NewSchemaRefForValue JSONSchema root fns opts u
  = (u', Ret (inl doc)) ->
  forall fn, fn ∈ fns ->
    exists before fn' after item op,
      fns = (before ++ fn' :: after)%list
      /\ Path fn' = Path fn
      /\ (Path fn ∉ map Path after)
      /\ Paths doc !! Path fn = Some item
      /\ Post item = Some op
      /\ RequestBody op
         = (if GoType_eqb (Req fn') Void then None
            else Some (reference (typeNamer (settingsOf opts) (Req fn'))))
      /\ Response200 op
         = Some (reference (typeNamer (settingsOf opts) (Res fn'))).
Proof.
  intros Hrun fn Hin. rewrite ReflectSpec_settingsOf in Hrun.
  destruct (reflectOperations _ _ (settingsOf opts) fns (Paths root) (∅, u))
    as [[c u1] [[paths|e]|msg]] eqn:Hops; try discriminate.
  injection Hrun as <- <-. cbn [Paths].
  destruct (reflectOperations_items _ _ _ _ _ _ _ _ Hops (Path fn))
    as [[Hnot _] | (before & fn' & after & m & Hfns & Hpath & Hafter & Hm
                    & Hitem)].
  { exfalso. apply Hnot. apply list_elem_of_fmap. eauto. }
  exists before, fn', after. do 2 eexists.
  repeat (split; [solve [eauto]|]). split; reflexivity.
Qed.

Lemma ReflectSpec_operation_witness :
  exists u' doc item op,
    ReflectSpec flatGenerator (fun _ => None) (mkT "" None ∅)
      [fn_inc; fn_get] [] tt = (u', Ret (inl doc))
    /\ Paths doc !! "/counter/get" = Some item
    /\ Post item = Some op
    /\ RequestBody op = None
    /\ Response200 op = Some (reference "int").
Proof.
  destruct (ReflectSpec flatGenerator (fun _ => None) (mkT "" None ∅)
              [fn_inc; fn_get] [] tt) as [u' [[doc|e]|msg]] eqn:Hrun;
    [|vm_compute in Hrun; discriminate..].
  destruct (ReflectSpec_operation _ _ _ _ _ _ _ _ Hrun fn_get)
    as (before & fn' & after & item & op & Hfns & Hsame & Hafter & Hitem
        & Hpost & Hreq & Hres).
  { apply list_elem_of_further, list_elem_of_here. }
  assert (Hfn' : fn' = fn_get).
  { destruct before as [|b [|b' [|b'' before]]]; simpl in Hfns;
      inversion Hfns; subst; try reflexivity; discriminate. }
  subst fn'. exists u', doc, item, op. repeat split; assumption.
Defined.

(** X14. [ReflectSpec] keeps the template.  The document has the
    version [3.0.2]; its paths are those of the template and those of
    the functions; a path of the template that is no function's keeps
    its item, and one that is a function's keeps its operations for the
    other methods.  When the template has components they are the
    components of the document as they are: the schemas reflected for
    the functions are not among them unless the template had them. *)
Theorem ReflectSpec_template {U : Type}
    (NewSchemaRefForValue :
       @SchemaCustomizerFn U -> GoType -> @World U ->
       @World U * go (SchemaRef + error))
    (JSONSchema :
       GoType ->
       option (@World U -> @World U * (option SchemaRef * option error)))
    (root : T) (fns : list Function) (opts : list (option reflectSpecOpt))
    (u u' : U) (doc : T) :
  ReflectSpec NewSchemaRefForValue JSONSchema root fns opts u
  = (u', Ret (inl doc)) ->
  OpenAPI doc = "3.0.2"
  /\ (forall c, Components root = Some c -> Components doc = Some c)
  /\ (forall p, (p ∉ map Path fns) -> Paths doc !! p = Paths root !! p)
  /\ (forall p, othersAt (Paths doc) p = othersAt (Paths root) p)
  /\ (forall p, is_Some (Paths doc !! p) <->
                is_Some (Paths root !! p) \/ p ∈ map Path fns).
Proof.
  intros Hrun. rewrite ReflectSpec_settingsOf in Hrun.
  destruct (reflectOperations _ _ (settingsOf opts) fns (Paths root) (∅, u))
    as [[c u1] [[paths|e]|msg]] eqn:Hops; try discriminate.
  injection Hrun as <- <-. cbn [OpenAPI Components Paths].
  pose proof (reflectOperations_items _ _ _ _ _ _ _ _ Hops) as Hitems.
  split; [reflexivity|]. split; [intros c0 ->; reflexivity|].
  split.
  { intros p Hp. destruct (Hitems p) as [[_ H]|(b & f & a & m & -> & <- & _)];
      [exact H|].
    exfalso. apply Hp. rewrite map_app. apply elem_of_app. right.
    apply list_elem_of_here. }
  split.
  { intros p. destruct (Hitems p) as [[_ H]|(b & f & a & m & _ & _ & _ & _ & H)];
      unfold othersAt at 1; rewrite H; reflexivity. }
  intros p. destruct (Hitems p) as [[Hnot H]|(b & f & a & m & -> & <- & _ & _ & H)].
  - rewrite H. split; [auto|]. intros [Hp|Hp]; [exact Hp | contradiction].
  - rewrite H. split; [|intros _; eexists; reflexivity].
    intros _. right. rewrite map_app. apply elem_of_app. right.
    apply list_elem_of_here.
Qed.

Lemma ReflectSpec_template_witness :
  exists u' doc,
    ReflectSpec flatGenerator (fun _ => None)
      (mkT "3.0.0" (Some ∅)
         {["/counter/inc" := mkPathItem None [("GET", mkOperation "get" None None [])]]})
      [fn_inc] [] tt = (u', Ret (inl doc))
    /\ OpenAPI doc = "3.0.2"
    /\ Components doc = Some ∅
    /\ othersAt (Paths doc) "/counter/inc"
       = [("GET", mkOperation "get" None None [])].
Proof.
  destruct (ReflectSpec flatGenerator (fun _ => None)
              (mkT "3.0.0" (Some ∅)
                 {["/counter/inc"
                   := mkPathItem None [("GET", mkOperation "get" None None [])]]})
              [fn_inc] [] tt) as [u' [[doc|e]|msg]] eqn:Hrun;
    [|vm_compute in Hrun; discriminate..].
  destruct (ReflectSpec_template _ _ _ _ _ _ _ _ Hrun)
    as (Hversion & Hcomponents & _ & Hothers & _).
  exists u', doc. split; [reflexivity|]. split; [exact Hversion|].
  split; [apply Hcomponents; reflexivity|].
  rewrite Hothers. reflexivity.
Defined.

(** X15. With a template that has no components, and a generator that
    removes no entry of the table, every schema that an operation of the
    document refers to is in the components of the document: they hold
    the identifier of the result type of every function, and of its
    request type unless that is [Void]. *)
Theorem ReflectSpec_components {U : Type}
    (NewSchemaRefForValue :
       @SchemaCustomizerFn U -> GoType -> @World U ->
       @World U * go (SchemaRef + error))
    (JSONSchema :
       GoType ->
       option (@World U -> @World U * (option SchemaRef * option error)))
    (root : T) (fns : list Function) (opts : list (option reflectSpecOpt))
    (u u' : U) (doc : T) :
  (forall val w k,
     is_Some (w.1 !! k) ->
     is_Some
       ((NewSchemaRefForValue (flowOf JSONSchema val (settingsOf opts)) val w).1.1
          !! k)) ->
  Components root = None ->
  ReflectSpec NewSchemaRefForValue JSONSchema root fns opts u
  = (u', Ret (inl doc)) ->
  exists components,
    Components doc = Some components
    /\ forall fn, fn ∈ fns ->
         is_Some (components !! typeNamer (settingsOf opts) (Res fn))
         /\ (GoType_eqb (Req fn) Void = false ->
             is_Some (components !! typeNamer (settingsOf opts) (Req fn))).
Proof.
  intros Hgen Hnone Hrun. rewrite ReflectSpec_settingsOf in Hrun.
  destruct (reflectOperations _ _ (settingsOf opts) fns (Paths root) (∅, u))
    as [[c u1] [[paths|e]|msg]] eqn:Hops; try discriminate.
  injection Hrun as <- <-. cbn [Components]. rewrite Hnone.
  exists c. split; [reflexivity|]. intros fn Hin.
  exact (reflectOperations_registers _ _ _ Hgen _ _ _ _ _ Hops fn Hin).
Qed.

Lemma flatGenerator_keeps (val : GoType) (w : @World unit) (k : string) :
  is_Some (w.1 !! k) ->
  is_Some
    ((flatGenerator (flowOf (fun _ => None) val (settingsOf [])) val w).1.1 !! k).
Proof.
  intros Hk. unfold flatGenerator, flowOf, settingsOf.
  cbn [fold_left customizers typeNamer mapper app].
  rewrite !newCustomizerFlow_cons. unfold setID.
  destruct (negb _ && _); cbn; exact Hk.
Qed.

Lemma ReflectSpec_components_witness :
  exists u' doc components,
    ReflectSpec flatGenerator (fun _ => None) (mkT "" None ∅)
      [fn_inc; fn_get] [] tt = (u', Ret (inl doc))
    /\ Components doc = Some components
    /\ is_Some (components !! "int").
Proof.
  destruct (ReflectSpec flatGenerator (fun _ => None) (mkT "" None ∅)
              [fn_inc; fn_get] [] tt) as [u' [[doc|e]|msg]] eqn:Hrun;
    [|vm_compute in Hrun; discriminate..].
  destruct (ReflectSpec_components flatGenerator (fun _ => None)
              (mkT "" None ∅) [fn_inc; fn_get] [] tt u' doc
              flatGenerator_keeps eq_refl Hrun) as (components & Hc & Hall).
  exists u', doc, components. split; [reflexivity|]. split; [exact Hc|].
  exact (proj1 (Hall fn_inc (list_elem_of_here _ _))).
Defined.

(** X16. An error of [ReflectSpec] names the type that failed: it is
    the error of the generator for the request or the result type of one
    of the functions, behind [failed to reflect schema <type>; ] and
    [failed to reflect openapi spec: ]. *)
Theorem ReflectSpec_error {U : Type}
    (NewSchemaRefForValue :
       @SchemaCustomizerFn U -> GoType -> @World U ->
       @World U * go (SchemaRef + error))
    (JSONSchema :
       GoType ->
       option (@World U -> @World U * (option SchemaRef * option error)))
    (root : T) (fns : list Function) (opts : list (option reflectSpecOpt))
    (u u' : U) (err : error) :
  ReflectSpec NewSchemaRefForValue JSONSchema root fns opts u
  = (u', Ret (inr err)) ->
  exists fn t w0 w1 e,
    fn ∈ fns /\ (t = Req fn \/ t = Res fn)
    /\ NewSchemaRefForValue (flowOf JSONSchema t (settingsOf opts)) t w0
       = (w1, Ret (inr e))
    /\ err = ErrWrap "failed to reflect openapi spec: " (failedToReflect t e)
    /\ Error err
       = "failed to reflect openapi spec: failed to reflect schema "
         +:+ TypeString t +:+ "; " +:+ Error e.
Proof.
  intros Hrun. rewrite ReflectSpec_settingsOf in Hrun.
  destruct (reflectOperations _ _ (settingsOf opts) fns (Paths root) (∅, u))
    as [[c u1] [[paths|e]|msg]] eqn:Hops; try discriminate.
  injection Hrun as <- <-.
  destruct (reflectOperations_failed _ _ _ _ _ _ _ _ Hops)
    as (fn & t & w0 & w1 & Hin & Ht & Hb).
  apply reflectSchema_failure in Hb as (_ & e0 & Hgen & ->).
  exists fn, t, w0, w1, e0. repeat (split; [assumption|]).
  split; [reflexivity|].
  unfold failedToReflect. cbn [Error].
  rewrite !append_assoc. reflexivity.
Qed.

Lemma ReflectSpec_error_witness :
  exists fn t (w0 w1 : @World unit) e,
    fn ∈ [fn_inc; fn_get] /\ (t = Req fn \/ t = Res fn)
    /\ flatGenerator
         (flowOf (fun _ => Some (fun w => (w, (None, Some (ErrNew "no schema")))))
            t (settingsOf [])) t w0
       = (w1, Ret (inr e))
    /\ ErrWrap "failed to reflect openapi spec: "
         (failedToReflect t_int
            (ErrWrap "failed to generate custom schema for int: "
               (ErrNew "no schema")))
       = ErrWrap "failed to reflect openapi spec: " (failedToReflect t e)
    /\ "failed to reflect openapi spec: failed to reflect schema int; failed to generate custom schema for int: no schema"
       = "failed to reflect openapi spec: failed to reflect schema "
         +:+ TypeString t +:+ "; " +:+ Error e.
Proof.
  apply (ReflectSpec_error flatGenerator
           (fun _ => Some (fun w => (w, (None, Some (ErrNew "no schema")))))
           (mkT "" None ∅) [fn_inc; fn_get] [] tt tt).
  vm_compute. reflexivity.
Defined.

(** ** Discovery: what [Struct] returns *)

Lemma ContainsByte_append (a b : string) (c : ascii) :
  strings.ContainsByte (a +:+ b) c
  = strings.ContainsByte a c || strings.ContainsByte b c.
Proof.
  induction a as [|x a IH]; [reflexivity|].
  rewrite append_cons. cbn [strings.ContainsByte]. rewrite IH.
  destruct (Ascii.eqb x c); reflexivity.
Qed.

Lemma fold_left_collect_in {A B : Type} (P : B -> Prop)
    (keep : list B -> A -> bool) (make : A -> B) (l : list A) :
  (forall acc x, x ∈ l -> keep acc x = true -> P (make x)) ->
  forall init,
    Forall P init ->
    Forall P (fold_left
                (fun acc x => if keep acc x then acc ++ [make x] else acc)
                l init).
Proof.
  induction l as [|x l IH]; intros Hkeep init Hinit; [exact Hinit|].
  cbn [fold_left]. apply IH.
  - intros acc y Hy. apply Hkeep. apply list_elem_of_further. exact Hy.
  - destruct (keep init x) eqn:Hx; [|exact Hinit].
    apply Forall_app. split; [exact Hinit|].
    constructor; [|constructor].
    apply (Hkeep init x); [apply list_elem_of_here | exact Hx].
Qed.

Section DiscoverySound.

Variable ToKebab : string -> string.
Variable implementsContext : GoType -> bool.
Variable implementsError : GoType -> bool.
Variable opts : list FuncOpt.

Local Abbreviation exposable :=
  (isExposableMethod implementsContext implementsError).
Local Abbreviation create :=
  (createFunction implementsContext implementsError).
Local Abbreviation exposables :=
  (getExposableMethods implementsContext implementsError).
Local Abbreviation register :=
  (registerMethods ToKebab implementsContext implementsError).
Local Abbreviation traverse :=
  (traverseStruct ToKebab implementsContext implementsError).
Local Abbreviation node :=
  (traverseNode ToKebab implementsContext implementsError
     (fun path v canAddr functions => traverse path v canAddr functions opts)).
Local Abbreviation shapes := (fourShapes implementsContext implementsError).
Local Abbreviation eligible :=
  (fun m : Method => method_exported m && exposable (method_type m)).
Local Abbreviation info :=
  (fun m : Method => mkMethodInfo (method_name m) (method_type m)).

(** The function found for the method [m]. *)
Local Abbreviation madeFrom f m :=
  (method_exported m = true
   /\ shapes (method_type m) = true
   /\ Name f = method_name m
   /\ Req f = match ins (method_type m) with
              | [_; req] => req
              | _ => Void
              end
   /\ Res f = match outs (method_type m) with
              | [res; _] => res
              | _ => Void
              end).

Lemma getExposableMethods_from ms pms canAddr :
  Forall (fun mi => exists m, m ∈ (ms ++ pms)%list /\ eligible m = true
                              /\ mi = info m)
    (exposables ms pms canAddr).
Proof.
  unfold getExposableMethods.
  set (P := fun mi => exists m, m ∈ (ms ++ pms)%list /\ eligible m = true
                                /\ mi = info m).
  assert (Hvalue :
    Forall P
      (fold_left
         (fun acc m =>
            if method_exported m && exposable (method_type m)
            then acc ++ [mkMethodInfo (method_name m) (method_type m)]
            else acc) ms [])).
  { apply (fold_left_collect_in P (fun _ m => eligible m) info);
      [|constructor].
    intros acc m Hm He. exists m. split; [|auto].
    apply elem_of_app. left. exact Hm. }
  destruct canAddr; [|exact Hvalue].
  apply (fold_left_collect_in P
           (fun acc m =>
              negb (existsb (fun mi => String.eqb (mi_name mi) (method_name m))
                      acc)
              && method_exported m && exposable (method_type m))
           info); [|exact Hvalue].
  intros acc m Hm He. exists m. split; [apply elem_of_app; right; exact Hm|].
  split; [|reflexivity].
  apply andb_true_iff in He as [He H2]. apply andb_true_iff in He as [_ H1].
  cbn beta. rewrite H1, H2. reflexivity.
Qed.

Lemma createFunction_madeFrom path m f :
  eligible m = true ->
  create path (method_name m) (method_type m) opts = Some f ->
  madeFrom f m.
Proof.
  intros He Hf. apply andb_true_iff in He as [Hexp Hok].
  pose proof (fourShapes_exposable implementsContext implementsError
                (method_type m)) as Hshape.
  rewrite (createFunction_exposable _ _ _ _ _ _ Hok) in Hf.
  rewrite Hok in Hshape. cbn [andb] in Hshape.
  destruct (NumIn (method_type m) <=? 2) eqn:Hin; [|discriminate].
  injection Hf as <-.
  split; [exact Hexp|]. split; [exact Hshape|]. split; [reflexivity|].
  unfold fourShapes in Hshape. unfold NumIn, NumOut, In_, Out.
  destruct (method_type m) as [i o]. cbn [ins outs] in *.
  destruct i as [|c [|rq [|x i]]]; try discriminate;
    destruct o as [|a [|b [|y o]]]; try discriminate;
    split; reflexivity.
Qed.

Lemma registerMethods_madeFrom path ms pms canAddr f :
  f ∈ register path (exposables ms pms canAddr) [] opts ->
  exists m, m ∈ (ms ++ pms)%list /\ madeFrom f m.
Proof.
  rewrite registerMethods_spec. cbn [app].
  pose proof (getExposableMethods_from ms pms canAddr) as Hfrom.
  rewrite Forall_forall in Hfrom.
  assert (Hone : forall p mi,
            mi ∈ exposables ms pms canAddr ->
            f ∈ option_list (create p (mi_name mi) (mi_method mi) opts) ->
            exists m, m ∈ (ms ++ pms)%list /\ madeFrom f m).
  { intros p mi Hmi Hf.
    destruct (Hfrom mi Hmi) as (m & Hm & He & ->). cbn [mi_name mi_method] in Hf.
    destruct (create p (method_name m) (method_type m) opts) as [g|] eqn:Hg;
      [|inversion Hf].
    apply list_elem_of_singleton in Hf as ->.
    exists m. split; [exact Hm|].
    eapply createFunction_madeFrom; eassumption. }
  destruct (exposables ms pms canAddr) as [|m1 [|m2 rest]] eqn:E.
  - intros Hf. inversion Hf.
  - apply Hone. apply list_elem_of_here.
  - intros Hf. apply list_elem_of_In, in_flat_map in Hf as (mi & Hmi & Hf).
    apply list_elem_of_In in Hmi, Hf. eapply Hone; eassumption.
Qed.

Lemma traverseStruct_madeFrom v :
  (forall path a f, f ∈ traverse path v a [] opts ->
                    exists m, m ∈ methodsOf v /\ madeFrom f m)
  /\ (forall path a f, f ∈ node path v a [] opts ->
                       exists m, m ∈ methodsOf v /\ madeFrom f m).
Proof.
  induction v as [|e [_ IHn]| |e [IHt _]|ms pms fields IH|]
    using ReflectValue_nested_ind.
  - split; intros path a f Hf; inversion Hf.
  - split; intros path a f Hf; [|inversion Hf].
    rewrite traverseStruct_unfold in Hf. eauto.
  - split; intros path a f Hf; inversion Hf.
  - assert (Hn : forall path a f,
               f ∈ node path (VInterface (Some e)) a [] opts ->
               exists m, m ∈ methodsOf (VInterface (Some e)) /\ madeFrom f m)
      by (intros path a f Hf; eapply IHt, Hf).
    split; [|exact Hn]. intros path a f Hf.
    rewrite traverseStruct_unfold in Hf. eauto.
  - assert (Hn : forall path a f,
               f ∈ node path (VStruct ms pms fields) a [] opts ->
               exists m, m ∈ methodsOf (VStruct ms pms fields) /\ madeFrom f m).
    { intros path a f. rewrite traverseNode_struct.
      intros [Hf | Hf]%elem_of_app.
      - apply registerMethods_madeFrom in Hf as (m & Hm & Hmade).
        exists m. split; [|exact Hmade]. cbn [methodsOf].
        rewrite app_assoc. apply elem_of_app. left. exact Hm.
      - apply list_elem_of_In, in_flat_map in Hf as (fd & Hfd & Hf).
        destruct fd as [[n x] fv]. simpl in Hf. destruct x; [|contradiction].
        apply list_elem_of_In in Hfd, Hf.
        rewrite Forall_forall in IH. destruct (IH _ Hfd) as [IHfd _].
        destruct (IHfd _ _ _ Hf) as (m & Hm & Hmade).
        exists m. split; [|exact Hmade]. cbn [methodsOf].
        apply elem_of_app. right. apply elem_of_app. right.
        apply list_elem_of_In, in_flat_map. exists (n, true, fv).
        split; apply list_elem_of_In; assumption. }
    split; [|exact Hn]. intros path a f Hf.
    rewrite traverseStruct_unfold in Hf. eauto.
  - split; intros path a f Hf; inversion Hf.
Qed.

(** The first loop of [getExposableMethods] keeps the eligible methods,
    in order. *)
Lemma fold_left_eligible (ms : list Method) : forall acc,
  fold_left
    (fun acc m =>
       if method_exported m && exposable (method_type m)
       then acc ++ [mkMethodInfo (method_name m) (method_type m)]
       else acc) ms acc
  = (acc ++ map info (filter (fun m => eligible m = true) ms))%list.
Proof.
  induction ms as [|m ms IH]; intros acc; [symmetry; apply app_nil_r|].
  cbn [fold_left]. rewrite IH.
  destruct (method_exported m && exposable (method_type m)) eqn:E.
  - rewrite filter_cons_True by exact E. cbn [map].
    rewrite <- app_assoc. reflexivity.
  - rewrite filter_cons_False by (rewrite E; discriminate). reflexivity.
Qed.

Lemma existsb_name (acc : list methodInfo) (n : string) :
  existsb (fun mi => String.eqb (mi_name mi) n) acc = false ->
  n ∉ map mi_name acc.
Proof.
  induction acc as [|mi acc IH]; intros H; [apply not_elem_of_nil|].
  cbn [existsb] in H. apply orb_false_iff in H as [Hne H].
  cbn [map]. apply not_elem_of_cons. split; [|exact (IH H)].
  intros ->. rewrite String.eqb_refl in Hne. discriminate.
Qed.

Lemma getExposableMethods_names ms pms canAddr :
  NoDup (map method_name ms) ->
  NoDup (map mi_name (exposables ms pms canAddr)).
Proof.
  intros Hms. unfold getExposableMethods.
  rewrite fold_left_eligible, app_nil_l.
  assert (Hvalue :
    NoDup (map mi_name (map info (filter (fun m => eligible m = true) ms)))).
  { rewrite map_map. cbn [mi_name].
    induction ms as [|m ms IH]; [constructor|].
    cbn [map] in Hms. apply NoDup_cons in Hms as [Hm Hms].
    destruct (eligible m) eqn:E.
    - rewrite filter_cons_True by exact E. cbn [map]. apply NoDup_cons.
      split; [|exact (IH Hms)].
      intros Hin. apply Hm. apply list_elem_of_fmap in Hin as (x & -> & Hx).
      apply list_elem_of_filter in Hx as [_ Hx].
      apply list_elem_of_fmap. eauto.
    - rewrite filter_cons_False by (rewrite E; discriminate). exact (IH Hms). }
  destruct canAddr; [|exact Hvalue].
  revert Hvalue. clear Hms.
  match goal with
  | |- NoDup (map mi_name ?init) -> NoDup (map mi_name (fold_left _ pms ?init')) =>
      change init' with init; generalize init
  end.
  induction pms as [|m pms IH]; intros acc Hacc; [exact Hacc|].
  cbn [fold_left]. apply IH.
  destruct (existsb (fun mi => String.eqb (mi_name mi) (method_name m)) acc)
    eqn:Hfound; cbn [negb andb]; [exact Hacc|].
  destruct (method_exported m && exposable (method_type m)); [|exact Hacc].
  rewrite map_app. cbn [map mi_name]. apply NoDup_app.
  split; [exact Hacc|]. split; [|apply NoDup_singleton].
  intros n Hn Hn'. apply list_elem_of_singleton in Hn' as ->.
  exact (existsb_name _ _ Hfound Hn).
Qed.

Lemma traverseFields_exported path canAddr
    (fields : list (string * bool * ReflectValue)) : forall fns,
  traverseFields ToKebab
    (fun path v canAddr functions => traverse path v canAddr functions opts)
    path canAddr fields fns
  = traverseFields ToKebab
      (fun path v canAddr functions => traverse path v canAddr functions opts)
      path canAddr
      (filter (fun f : string * bool * ReflectValue => f.1.2 = true) fields) fns.
Proof.
  induction fields as [|[[n x] fv] fields IH]; intros fns; [reflexivity|].
  destruct x.
  - rewrite filter_cons_True by reflexivity. cbn [traverseFields negb].
    apply IH.
  - rewrite filter_cons_False by discriminate. cbn [traverseFields negb].
    apply IH.
Qed.

End DiscoverySound.

(** X17. Every function that [Struct] returns has its path at or below
    the base path: the base path itself, or the base path followed by
    [/] and more.  So with a base path that has a [/], [Module] is
    defined for every one of them. *)
Theorem Struct_paths_below (ToKebab : string -> string)
    (implementsContext implementsError : GoType -> bool)
    (basePath : string) (v : ReflectValue) (opts : list FuncOpt)
    (f : Function) :
  f ∈ Struct ToKebab implementsContext implementsError basePath v opts ->
  (exists suffix,
     Path f = basePath +:+ suffix
     /\ (suffix = "" \/ exists r, suffix = String "/" r))
  /\ (strings.ContainsByte basePath "/" = true -> exists m, Module f = Ret m).
Proof.
  intros Hf. unfold Struct in Hf.
  destruct (traverseStruct_below ToKebab implementsContext implementsError
              opts v) as [Hbelow _].
  destruct (Hbelow _ _ _ Hf) as (suffix & Hpath & Hsuffix).
  split; [exists suffix; auto|].
  intros Hslash. apply Module_defined_iff.
  rewrite Hpath, ContainsByte_append, Hslash. reflexivity.
Qed.

Lemma Struct_paths_below_witness :
  Forall
    (fun f =>
       (exists suffix,
          Path f = "/app" +:+ suffix
          /\ (suffix = "" \/ exists r, suffix = String "/" r))
       /\ exists m, Module f = Ret m)
    (Struct_sample "/app" v_Application []).
Proof.
  apply Forall_forall. intros f Hf.
  destruct (Struct_paths_below strcase_ToKebab implementsContext_sample
              implementsError_sample "/app" v_Application [] f Hf)
    as [Hbelow Hmodule].
  split; [exact Hbelow | apply Hmodule; reflexivity].
Defined.

(** X18. [Struct] invents nothing: every function that it returns is
    made from an exported method, of one of the four shapes, of a struct
    that the value holds; it has the name of the method, the second
    parameter of the method as its request type and the first of two
    results as its result type, and [Void] where the method has none. *)
Theorem Struct_sound (ToKebab : string -> string)
    (implementsContext implementsError : GoType -> bool)
    (basePath : string) (v : ReflectValue) (opts : list FuncOpt)
    (f : Function) :
  f ∈ Struct ToKebab implementsContext implementsError basePath v opts ->
  exists m,
    m ∈ methodsOf v
    /\ method_exported m = true
    /\ fourShapes implementsContext implementsError (method_type m) = true
    /\ Name f = method_name m
    /\ Req f = match ins (method_type m) with
               | [_; req] => req
               | _ => Void
               end
    /\ Res f = match outs (method_type m) with
               | [res; _] => res
               | _ => Void
               end.
Proof.
  intros Hf. unfold Struct in Hf.
  destruct (traverseStruct_madeFrom ToKebab implementsContext implementsError
              opts v) as [Hmade _].
  exact (Hmade _ _ _ Hf).
Qed.

Lemma Struct_sound_witness :
  Forall
    (fun f =>
       exists m,
         m ∈ methodsOf v_Application
         /\ method_exported m = true
         /\ fourShapes implementsContext_sample implementsError_sample
              (method_type m) = true
         /\ Name f = method_name m
         /\ Req f = match ins (method_type m) with
                    | [_; req] => req
                    | _ => Void
                    end
         /\ Res f = match outs (method_type m) with
                    | [res; _] => res
                    | _ => Void
                    end)
    (Struct_sample "/app" v_Application []).
Proof.
  apply Forall_forall. intros f Hf.
  exact (Struct_sound strcase_ToKebab implementsContext_sample
           implementsError_sample "/app" v_Application [] f Hf).
Defined.

(** X19. [getExposableMethods] lists no method twice although the
    method set of the pointer repeats the methods of the value: when the
    methods of the value have distinct names, so have the methods found;
    the methods of the value come first, and they are all there is when
    the value is not addressable. *)
Theorem getExposableMethods_distinct
    (implementsContext implementsError : GoType -> bool)
    (methods ptrMethods : list Method) (canAddr : bool) :
  NoDup (map method_name methods) ->
  let eligible := fun m : Method =>
    method_exported m
    && isExposableMethod implementsContext implementsError (method_type m) in
  let found :=
    map (fun m => mkMethodInfo (method_name m) (method_type m))
      (filter (fun m => eligible m = true) methods) in
  NoDup (map mi_name
           (getExposableMethods implementsContext implementsError
              methods ptrMethods canAddr))
  /\ getExposableMethods implementsContext implementsError
       methods ptrMethods false = found
  /\ exists more,
       getExposableMethods implementsContext implementsError
         methods ptrMethods canAddr = (found ++ more)%list.
Proof.
  intros Hms eligible found.
  split; [apply getExposableMethods_names; exact Hms|].
  unfold getExposableMethods. rewrite fold_left_eligible, app_nil_l.
  split; [reflexivity|].
  destruct canAddr; [|exists []; symmetry; apply app_nil_r].
  change (map _ (filter _ methods)) with found. generalize found. clear.
  induction ptrMethods as [|m pms IH]; intros acc;
    [exists []; symmetry; apply app_nil_r|].
  cbn [fold_left].
  destruct (negb _ && method_exported m && _).
  - destruct (IH (acc ++ [mkMethodInfo (method_name m) (method_type m)])%list)
      as (more & ->).
    eexists. rewrite <- app_assoc. reflexivity.
  - apply IH.
Qed.

Lemma getExposableMethods_distinct_witness :
  map mi_name
    (getExposableMethods implementsContext_sample implementsError_sample
       [m_Get] [m_Do; m_Get] true) = ["Get"; "Do"]
  /\ NoDup (map mi_name
              (getExposableMethods implementsContext_sample
                 implementsError_sample [m_Get] [m_Do; m_Get] true)).
Proof.
  split; [reflexivity|].
  apply (getExposableMethods_distinct implementsContext_sample
           implementsError_sample [m_Get] [m_Do; m_Get] true).
  apply NoDup_singleton.
Defined.

(** X20. [Struct] never looks into a field that is not exported:
    whatever such fields hold, the functions found are those of the
    struct without them. *)
Theorem traverseStruct_exported_fields (ToKebab : string -> string)
    (implementsContext implementsError : GoType -> bool)
    (path : string) (methods ptrMethods : list Method)
    (fields : list (string * bool * ReflectValue)) (canAddr : bool)
    (functions : list Function) (opts : list FuncOpt) :
  let exported :=
    filter (fun f : string * bool * ReflectValue => f.1.2 = true) fields in
  traverseStruct ToKebab implementsContext implementsError path
    (VStruct methods ptrMethods fields) canAddr functions opts
  = traverseStruct ToKebab implementsContext implementsError path
      (VStruct methods ptrMethods exported) canAddr functions opts
  /\ Struct ToKebab implementsContext implementsError path
       (VPtr (Some (VStruct methods ptrMethods fields))) opts
     = Struct ToKebab implementsContext implementsError path
         (VPtr (Some (VStruct methods ptrMethods exported))) opts.
Proof.
  intros exported. unfold Struct.
  rewrite !traverseStruct_unfold. cbn [traverseNode].
  rewrite !(traverseFields_exported ToKebab implementsContext implementsError
              opts path _ fields).
  split; reflexivity.
Qed.

(** ** Names, modules and identifiers *)

Lemma slice_from_last (pre last : string) :
  slice_from (pre +:+ String "/" last) (Z.of_nat (String.length pre) + 1)
  = Ret last.
Proof.
  change (String "/" last) with ("/" +:+ last).
  rewrite <- append_assoc.
  replace (Z.of_nat (String.length pre) + 1)
    with (Z.of_nat (String.length (pre +:+ "/")))
    by (rewrite length_append; cbn [String.length]; lia).
  apply slice_from_suffix.
Qed.

Lemma name_of_mountpoint (mountpoint : string) :
  exists n,
    slice_from mountpoint (strings.LastIndex mountpoint "/" + 1) = Ret n
    /\ strings.ContainsByte n "/" = false
    /\ (mountpoint = n \/ exists pre, mountpoint = pre +:+ String "/" n).
Proof.
  destruct (strings.ContainsByte mountpoint "/") eqn:Hslash.
  - destruct (split_at_last _ _ Hslash) as (pre & last & -> & Hlast).
    exists last. rewrite (LastIndex_last pre last "/" Hlast).
    split; [apply slice_from_last|]. split; [exact Hlast|].
    right. exists pre. reflexivity.
  - exists mountpoint. rewrite (LastIndex_absent _ _ Hslash).
    split; [apply slice_from_0|]. split; [exact Hslash|]. left. reflexivity.
Qed.

(** X21. The name that [Func] and its variants give a function is the
    last segment of the mount point: it has no [/], and the mount point
    is the name itself or ends with [/] and the name. *)
Theorem Func_name (TReq TRes : GoType) (mountpoint : string)
    (opts : list FuncOpt) :
  Forall
    (fun ctor : string -> list FuncOpt -> go Function =>
       exists f,
         ctor mountpoint opts = Ret f
         /\ strings.ContainsByte (Name f) "/" = false
         /\ (mountpoint = Name f
             \/ exists pre, mountpoint = pre +:+ String "/" (Name f)))
    [Func TReq TRes; FuncVoid TReq; FuncNullary TRes; FuncNullaryVoid].
Proof.
  destruct (name_of_mountpoint mountpoint) as (n & Hn & Hfree & Hsplit).
  repeat constructor;
    unfold Func, FuncVoid, FuncNullary, FuncNullaryVoid; rewrite Hn;
    cbn [go_bind]; eexists; (split; [reflexivity|]); cbn [Name fd_name];
    auto.
Qed.

Lemma ReplaceAll_free (s : string) (old new : ascii) :
  Ascii.eqb new old = false ->
  strings.ContainsByte (strings.ReplaceAll s old new) old = false.
Proof.
  intros Hne. induction s as [|c s IH]; [reflexivity|].
  cbn [strings.ReplaceAll strings.ContainsByte]. rewrite IH, orb_false_r.
  destruct (Ascii.eqb c old) eqn:E; [exact Hne | exact E].
Qed.

Lemma TrimPrefix_dot_free (s : string) (c : ascii) :
  strings.ContainsByte s c = false ->
  strings.ContainsByte (strings.TrimPrefix s ".") c = false.
Proof.
  intros H. destruct s as [|x s]; [reflexivity|].
  unfold strings.TrimPrefix. cbn [strings.CutPrefix].
  destruct (Ascii.eqb "." x); [|exact H].
  cbn [strings.ContainsByte] in H. apply orb_false_iff in H as [_ H]. exact H.
Qed.

(** X22. A module name has no [/]: whatever the path of the function,
    when [Module] returns, every [/] of the parent path has become a
    [.]. *)
Theorem Module_no_slash (f : Function) (m : string) :
  Module f = Ret m -> strings.ContainsByte m "/" = false.
Proof.
  rewrite Module_of_path.
  destruct (slice_to (Path f) (strings.LastIndex (Path f) "/")) as [parent|msg];
    [|discriminate].
  cbn [go_bind]. intros [= <-].
  apply TrimPrefix_dot_free, ReplaceAll_free. reflexivity.
Qed.

Lemma Module_no_slash_witness :
  strings.ContainsByte "foo.bar" "/" = false.
Proof.
  apply (Module_no_slash
           (FunctionDefinition
              (mkFunctionDefinition "baz" "/foo/bar/baz" t_int t_int
                 (mkFunctionSettings false)))).
  reflexivity.
Defined.

Lemma DefaultSchemaIdentifier_slash (t : GoType) :
  strings.ContainsByte (DefaultSchemaIdentifier t) "/"
  = strings.ContainsByte (TypeName (elemType t)) "/".
Proof.
  assert (Hbase : forall p n : string,
            strings.ContainsByte
              ((if String.eqb p "" then ""
                else ("" +:+ strings.ReplaceAll p "/" ".") +:+ ".") +:+ n) "/"
            = strings.ContainsByte n "/").
  { intros p n. destruct (String.eqb p ""); [reflexivity|].
    rewrite !ContainsByte_append, ReplaceAll_free by reflexivity.
    reflexivity. }
  induction t as [e IH|e IH|p n s fs|k p n s].
  - exact IH.
  - cbn [DefaultSchemaIdentifier elemType].
    rewrite ContainsByte_append, IH. apply orb_false_r.
  - apply Hbase.
  - apply Hbase.
Qed.

(** X23. The default identifier of a type has a [/] exactly when the
    name of the type it is made from has one: the [/] of the package path
    become [.], and nothing is done about the name.  So the reference
    [#/components/schemas/<identifier>] has no further path segment unless
    the type name brings one. *)
Theorem DefaultSchemaIdentifier_slashes (t : GoType) :
  strings.ContainsByte (DefaultSchemaIdentifier t) "/"
  = strings.ContainsByte (TypeName (elemType t)) "/".
Proof. apply DefaultSchemaIdentifier_slash. Qed.

(** ** Errors with codes *)

Lemma AsWithCode_wrapped (prefixes : list string) (code : string)
    (inner : option exposedError) :
  AsWithCode (wrappedBy prefixes (ErrWithCode code inner)) = Some code.
Proof. induction prefixes as [|p prefixes IH]; [reflexivity | exact IH]. Qed.

(** X24. The code round trip.  [GetErrCode] finds the code that
    [SetErrCode] set, also behind any number of [fmt.Errorf] wrappers with
    one [%w] each, and whatever the marked error is or wraps itself, an
    error with a code of its own included: the outermost code is the one
    found.  It finds none in the nil error. *)
Theorem GetErrCode_SetErrCode (prefixes : list string)
    (inner : option exposedError) (code : string) :
  GetErrCode (option_map (wrappedBy prefixes) (SetErrCode inner code))
  = (code, true)
  /\ GetErrCode None = ("", false).
Proof.
  split; [|reflexivity].
  unfold GetErrCode, SetErrCode. cbn [option_map].
  rewrite AsWithCode_wrapped. reflexivity.
Qed.

(** X25. [SetErrCode] hides what it marks from [errors.Is]:
    [ErrWithCode] has no [Unwrap], so an error marked with a code, also
    behind [fmt.Errorf] wrappers with one [%w] each, is no
    [ErrApplication], whatever the marked error is, [ErrApplication]
    itself included. *)
Theorem SetErrCode_hides_application (prefixes : list string)
    (inner : option exposedError) (code : string) :
  option_map IsErrApplication
    (option_map (wrappedBy prefixes) (SetErrCode inner code))
  = Some false.
Proof.
  unfold SetErrCode. cbn [option_map]. f_equal.
  induction prefixes as [|p prefixes IH]; [reflexivity | exact IH].
Qed.

(** An application error is one behind the same wrappers when it is
    not marked. *)
Example application_error_wrapped :
  IsErrApplication (wrappedBy ["inc: "; "limit: "] ErrApplication) = true
  /\ option_map IsErrApplication
       (option_map (wrappedBy ["inc: "; "limit: "])
          (SetErrCode (Some ErrApplication) "E_LIMIT"))
     = Some false
  /\ IsErrApplication
       (ErrOther false None [ErrWithCode "E_LIMIT" None; ErrApplication])
     = true
  /\ GetErrCode
       (Some (ErrOther false None [ErrWithCode "E_LIMIT" None; ErrApplication]))
     = ("E_LIMIT", true).
Proof. repeat split; reflexivity. Qed.

(** ** The options of the handler *)

Section HandlerOptions.

Context {U Handler Codec ErrorHandler : Type}.
Variable StripPrefix : string -> Handler -> Handler.

Local Abbreviation Settings := (@handlerSettings U Handler Codec ErrorHandler).
Local Abbreviation option_ :=
  (@chainOption Handler U Codec ErrorHandler StripPrefix).

Lemma applyMiddlewares_app (a b : list (@Middleware Handler)) (h : Handler) :
  applyMiddlewares (a ++ b) h = applyMiddlewares b (applyMiddlewares a h).
Proof. apply fold_left_app. Qed.

Lemma applyMiddlewares_strip (ps : list string) (h : Handler) :
  applyMiddlewares (map (fun p next => StripPrefix p next) (rev ps)) h
  = fold_right StripPrefix h ps.
Proof.
  revert h. induction ps as [|p ps IH]; intros h; [reflexivity|].
  cbn [rev fold_right]. rewrite map_app, applyMiddlewares_app, IH.
  reflexivity.
Qed.

Lemma applyOptions_cons (o : @HandlerOption U Handler Codec ErrorHandler) os
    (settings : Settings) :
  applyOptions (o :: os) settings = applyOptions os (o settings).
Proof. reflexivity. Qed.

Lemma chain_options_middlewares (os : list (string + list (@Middleware Handler))) :
  forall settings : Settings,
    middlewares (applyOptions (map option_ os) settings)
    = (map (fun p next => StripPrefix p next) (rev (prefixesOf os))
       ++ middlewares settings ++ middlewaresOf os)%list
    /\ basePath (applyOptions (map option_ os) settings)
       = default (basePath settings) (last (prefixesOf os)).
Proof.
  induction os as [|[p|mws] os IH]; intros settings.
  - cbn. rewrite app_nil_r. split; reflexivity.
  - cbn [map]. rewrite applyOptions_cons.
    change (option_ (inl p) settings)
      with (WithPathPrefix StripPrefix p settings).
    destruct (IH (WithPathPrefix StripPrefix p settings)) as [-> ->].
    change (prefixesOf (inl p :: os)) with (p :: prefixesOf os).
    change (middlewaresOf (inl p :: os)) with (middlewaresOf os).
    cbn [middlewares basePath WithPathPrefix rev app].
    split.
    + rewrite map_app, <- !app_assoc. reflexivity.
    + destruct (prefixesOf os) as [|q qs]; [reflexivity|].
      change (last (p :: q :: qs)) with (last (q :: qs)).
      destruct (last (q :: qs)) as [x|] eqn:Hlast; [reflexivity|].
      apply last_None in Hlast. discriminate.
  - cbn [map]. rewrite applyOptions_cons.
    change (option_ (inr mws) settings) with (WithMiddleware mws settings).
    destruct (IH (WithMiddleware mws settings)) as [-> ->].
    change (prefixesOf (inr mws :: os)) with (prefixesOf os).
    change (middlewaresOf (inr mws :: os)) with (mws ++ middlewaresOf os)%list.
    cbn [middlewares basePath WithMiddleware].
    rewrite <- !app_assoc. split; reflexivity.
Qed.

Lemma find_snoc {A : Type} (p : A -> bool) (l : list A) (x : A) :
  find p (l ++ [x])
  = match find p l with
    | Some y => Some y
    | None => if p x then Some x else None
    end.
Proof.
  induction l as [|y l IH]; [reflexivity|].
  cbn [app find]. destruct (p y); [reflexivity | exact IH].
Qed.

Lemma insert_encodings (encodings : list (@Encoding Codec)) (m : string) :
  forall table : gmap string (@Encoding Codec),
    fold_left (fun encoding enc => <[MimeType enc := enc]> encoding)
      encodings table !! m
    = match find (fun enc => String.eqb (MimeType enc) m) (rev encodings) with
      | Some enc => Some enc
      | None => table !! m
      end.
Proof.
  induction encodings as [|enc encodings IH]; intros table; [reflexivity|].
  cbn [fold_left rev]. rewrite IH, find_snoc.
  destruct (find _ (rev encodings)); [reflexivity|].
  destruct (String.eqb_spec (MimeType enc) m) as [->|Hne].
  - apply lookup_insert_eq.
  - apply lookup_insert_ne. exact Hne.
Qed.

End HandlerOptions.

(** X26. The order of the middlewares.  Whatever the order in which
    [WithPathPrefix] and [WithMiddleware] are given, the handlers that
    strip the prefixes are applied first, so they stand innermost, next
    to the router, the one of the last [WithPathPrefix] closest to it;
    the caller's middlewares wrap them in the order given, the last one
    outermost, and see the path with its prefix.  The base path is the
    prefix given last. *)
Theorem middleware_order {U Handler Codec ErrorHandler : Type}
    (StripPrefix : string -> Handler -> Handler)
    (os : list (string + list (@Middleware Handler)))
    (settings : @handlerSettings U Handler Codec ErrorHandler)
    (r : Handler) :
  let settings' := applyOptions (map (chainOption StripPrefix) os) settings in
  applyMiddlewares (middlewares settings') r
  = applyMiddlewares (middlewares settings ++ middlewaresOf os)
      (fold_right StripPrefix r (prefixesOf os))
  /\ basePath settings' = default (basePath settings) (last (prefixesOf os)).
Proof.
  intros settings'. unfold settings'.
  destruct (chain_options_middlewares StripPrefix os settings) as [-> ->].
  split; [|reflexivity].
  rewrite (applyMiddlewares_app
             (map (fun p next => StripPrefix p next) (rev (prefixesOf os)))),
    (applyMiddlewares_strip StripPrefix).
  reflexivity.
Qed.

(** X27. [WithEncodings] registers each encoding under its MIME type,
    one after the other: the encoding looked up for a MIME type is the
    last of the given ones with that type, and the one registered before
    when none of them has it. *)
Theorem WithEncodings_lookup {U Handler Codec ErrorHandler : Type}
    (encodings : list (@Encoding Codec))
    (settings : @handlerSettings U Handler Codec ErrorHandler)
    (m : string) :
  encoding (WithEncodings encodings settings) !! m
  = match find (fun enc => String.eqb (MimeType enc) m) (rev encodings) with
    | Some enc => Some enc
    | None => encoding settings !! m
    end.
Proof. apply insert_encodings. Qed.
